(** * igotstandard: fingerprint cache and resumable batch harvester

    A shallow embedding of the two JavaScript programs of the repository,
    [server.js] (the on-demand service with its [CacheManager]) and
    [cache-system.js] (the offline [DataCachingSystem]), followed by the
    properties that the design document states about them and by further
    properties of the code: of the cache, the routes, the license, the
    clean-up of screenshots, the harvester and the addresses. *)

From Stdlib Require Import ZArith Ascii String List Lia Bool.
From Equations Require Import Equations.
From stdpp Require Import base tactics option list gmap strings pretty sorting.

#[local] Set Warnings "-register-all,-abstract-large-number".
Open Scope Z_scope.

(** * Results of computations that may throw *)

Inductive exn :=
| TypeError (message : string)
| Error (message : string)
| IOError (path : string).

Inductive res (A : Type) :=
| Ok (a : A)
| Throw (e : exn).
Arguments Ok {A} a.
Arguments Throw {A} e.

Definition is_ok {A} (r : res A) : bool :=
  match r with Ok _ => true | Throw _ => false end.

#[global] Instance res_ret : MRet res := λ A a, Ok a.
#[global] Instance res_bind : MBind res := λ A B k r,
  match r with Ok a => k a | Throw e => Throw e end.

(** * Effectful code

    A computation of [M W A] runs in a world [W] (memory, files, clock,
    the outside) and either returns a value or throws, leaving a world
    behind in both cases. *)
Definition M (W A : Type) : Type := W → res A * W.

Section monad.
Context {W : Type}.

Definition ret {A} (a : A) : M W A := λ w, (Ok a, w).

Definition bind {A B} (m : M W A) (k : A → M W B) : M W B := λ w,
  match m w with
  | (Ok a, w') => k a w'
  | (Throw e, w') => (Throw e, w')
  end.

Definition throw {A} (e : exn) : M W A := λ w, (Throw e, w).

(** [try { m } catch (e) { h e }] *)
Definition try_catch {A} (m : M W A) (h : exn → M W A) : M W A := λ w,
  match m w with
  | (Ok a, w') => (Ok a, w')
  | (Throw e, w') => h e w'
  end.

Definition lift {A} (r : res A) : M W A := λ w, (r, w).
Definition gets {A} (f : W → A) : M W A := λ w, (Ok (f w), w).
Definition modify (f : W → W) : M W unit := λ w, (Ok tt, f w).
End monad.

#[global] Instance M_ret {W} : MRet (M W) := λ A, ret.
#[global] Instance M_bind {W} : MBind (M W) := λ A B k m, bind m k.

(** * JavaScript values

    Numbers are kept exact and in decimal: [Dec m e] is the finite value
    [m * 10^(-e)].  The rounding of binary64, negative zero, and the exponent
    notation that [Number.prototype.toString] switches to below [1e-6] and
    from [1e21] on are outside this model. *)
Module JS.

Inductive number :=
| NaN
| Infinity (negative : bool)
| Dec (m : Z) (e : nat).

Definition int (z : Z) : number := Dec z 0.

(** Drops the trailing zeros of the fraction, so that equal values have
    equal representations. *)
Fixpoint dec (m : Z) (e : nat) : number :=
  match e with
  | O => Dec m 0
  | S e' => if (m mod 10 =? 0) then dec (m / 10) e' else Dec m e
  end.

Inductive jsval :=
| JUndefined
| JNull
| JBool (b : bool)
| JNum (n : number)
| JStr (s : string)
| JArr (items : list jsval)
| JObj (props : list (string * jsval))
| JFun (name : string).

(** A plain object as [JSON.parse] or an object literal builds it: its own
    properties in insertion order. *)
Abbreviation object := (list (string * jsval)).

Fixpoint own (o : object) (k : string) : option jsval :=
  match o with
  | [] => None
  | (k', v) :: o' => if String.eqb k' k then Some v else own o' k
  end.

(** The members every plain object inherits from [Object.prototype]. *)
Definition objectPrototype : list string :=
  [ "constructor"; "__defineGetter__"; "__defineSetter__"; "hasOwnProperty";
    "__lookupGetter__"; "__lookupSetter__"; "isPrototypeOf";
    "propertyIsEnumerable"; "toString"; "valueOf"; "__proto__";
    "toLocaleString" ].

Definition inherited (k : string) : option jsval :=
  if bool_decide (k ∈ objectPrototype)
  then Some (if String.eqb k "__proto__" then JObj [] else JFun k)
  else None.

(** [o[k]]: own property first, then the prototype, else [undefined]. *)
Definition get (o : object) (k : string) : jsval :=
  match own o k with
  | Some v => v
  | None => default JUndefined (inherited k)
  end.

(** ToBoolean. *)
Definition truthy (v : jsval) : bool :=
  match v with
  | JUndefined | JNull => false
  | JBool b => b
  | JNum NaN => false
  | JNum (Infinity _) => true
  | JNum (Dec m _) => negb (m =? 0)
  | JStr s => negb (String.eqb s "")
  | JArr _ | JObj _ | JFun _ => true
  end.

(** [v === s] for a string and [v === n] for a number. *)
Definition is_string (v : jsval) (s : string) : bool :=
  match v with JStr t => String.eqb t s | _ => false end.

Definition number_eqb (a b : number) : bool :=
  match a, b with
  | Infinity x, Infinity y => Bool.eqb x y
  | Dec m e, Dec m' e' => m * 10 ^ Z.of_nat e' =? m' * 10 ^ Z.of_nat e
  | _, _ => false
  end.

Definition is_number (v : jsval) (n : number) : bool :=
  match v with JNum m => number_eqb m n | _ => false end.

(** [a || b] *)
Definition or (a b : jsval) : jsval := if truthy a then a else b.

(** ** Number to string *)

Fixpoint zeros (n : nat) : string :=
  match n with O => "" | S n' => String "0" (zeros n') end.

Definition pad_left (width : nat) (s : string) : string :=
  zeros (width - String.length s) +:+ s.

Definition number_to_string (n : number) : string :=
  match n with
  | NaN => "NaN"
  | Infinity false => "Infinity"
  | Infinity true => "-Infinity"
  | Dec m O => pretty m
  | Dec m e =>
      let a := Z.abs m in
      let p := 10 ^ Z.of_nat e in
      (if m <? 0 then "-" else "") +:+ pretty (a / p) +:+ "." +:+
      pad_left e (pretty (a mod p))
  end.

(** ** ToString, and the [toString()] method of a non-nullish value *)

Definition has_own (o : object) (k : string) : bool :=
  match own o k with Some _ => true | None => false end.

Fixpoint toString (v : jsval) : res string :=
  match v with
  | JUndefined => Ok "undefined"
  | JNull => Ok "null"
  | JBool true => Ok "true"
  | JBool false => Ok "false"
  | JNum n => Ok (number_to_string n)
  | JStr s => Ok s
  | JArr items =>
      (fix join (l : list jsval) : res string :=
         match l with
         | [] => Ok ""
         | x :: l' =>
             s ← match x with JUndefined | JNull => Ok "" | _ => toString x end;
             match l' with
             | [] => Ok s
             | _ => r ← join l'; Ok (s +:+ "," +:+ r)
             end
         end) items
  | JObj props =>
      if has_own props "toString"
      then Throw (TypeError "Cannot convert object to primitive value")
      else Ok "[object Object]"
  | JFun name => Ok ("function " +:+ name +:+ "() { [native code] }")
  end.

(** ** [parseInt] and [parseFloat] *)

(** StrWhiteSpaceChar, as far as it fits in one byte. *)
Definition is_white (c : ascii) : bool :=
  bool_decide (nat_of_ascii c ∈ [9; 10; 11; 12; 13; 32]%nat).

Fixpoint trim_start (s : string) : string :=
  match s with
  | String c s' => if is_white c then trim_start s' else s
  | EmptyString => s
  end.

(** The value of a digit in a radix up to 36. *)
Definition digit_value (c : ascii) : option Z :=
  let n := Z.of_nat (nat_of_ascii c) in
  if (48 <=? n) && (n <=? 57) then Some (n - 48)
  else if (97 <=? n) && (n <=? 122) then Some (n - 87)
  else if (65 <=? n) && (n <=? 90) then Some (n - 55)
  else None.

Definition is_digit (radix : Z) (c : ascii) : bool :=
  match digit_value c with Some d => d <? radix | None => false end.

(** The longest prefix of radix digits, and what follows it. *)
Fixpoint span_digits (radix : Z) (s : string) : string * string :=
  match s with
  | String c s' =>
      if is_digit radix c
      then let '(d, r) := span_digits radix s' in (String c d, r)
      else ("", s)
  | EmptyString => ("", "")
  end.

Fixpoint digits_value (radix : Z) (acc : Z) (s : string) : Z :=
  match s with
  | String c s' => digits_value radix (acc * radix + default 0 (digit_value c)) s'
  | EmptyString => acc
  end.

Definition read_sign (s : string) : bool * string :=
  match s with
  | String "-" r => (true, r)
  | String "+" r => (false, r)
  | _ => (false, s)
  end.

Definition signed (negative : bool) (z : Z) : Z := if negative then - z else z.

(** A leading [0x] or [0X] makes the radix 16 and is skipped. *)
Definition read_radix (s : string) : Z * string :=
  if String.prefix "0x" s || String.prefix "0X" s
  then (16, String.substring 2 (String.length s - 2) s)
  else (10, s).

Definition parseInt (v : jsval) : res number :=
  inputString ← toString v;
  let '(negative, s) := read_sign (trim_start inputString) in
  let '(radix, s) := read_radix s in
  let '(z, _) := span_digits radix s in
  Ok (if String.eqb z "" then NaN
      else int (signed negative (digits_value radix 0 z))).

Definition parseFloat (v : jsval) : res number :=
  inputString ← toString v;
  let '(negative, s) := read_sign (trim_start inputString) in
  if String.prefix "Infinity" s then Ok (Infinity negative)
  else
    let '(ip, r1) := span_digits 10 s in
    let '(fp, r2) :=
      match r1 with
      | String "." r => span_digits 10 r
      | _ => ("", r1)
      end in
    if String.eqb ip "" && String.eqb fp "" then Ok NaN
    else
      let exponent :=
        match r2 with
        | String "e" r | String "E" r =>
            let '(eneg, r') := read_sign r in
            let '(ed, _) := span_digits 10 r' in
            signed eneg (digits_value 10 0 ed)
        | _ => 0
        end in
      let m := signed negative (digits_value 10 0 (ip +:+ fp)) in
      let shift := exponent - Z.of_nat (String.length fp) in
      Ok (if 0 <=? shift then Dec (m * 10 ^ shift) 0
          else dec m (Z.to_nat (- shift))).

(** ** [JSON.stringify] without indentation *)

Definition dquote : string := String (ascii_of_nat 34) "".

Definition escape_char (c : ascii) : string :=
  let n := nat_of_ascii c in
  if (n =? 34)%nat then "\" +:+ dquote
  else if (n =? 92)%nat then "\\"
  else if (n =? 8)%nat then "\b"
  else if (n =? 12)%nat then "\f"
  else if (n =? 10)%nat then "\n"
  else if (n =? 13)%nat then "\r"
  else if (n =? 9)%nat then "\t"
  else if (n <? 32)%nat
       then "\u00" +:+ (if (n <? 16)%nat then "0" else "1") +:+
            String (ascii_of_nat (let d := (n mod 16)%nat in
                                  if (d <? 10)%nat then 48 + d else 87 + d)) ""
  else String c "".

Fixpoint escape (s : string) : string :=
  match s with
  | EmptyString => ""
  | String c s' => escape_char c +:+ escape s'
  end.

Definition quote (s : string) : string := dquote +:+ escape s +:+ dquote.

Definition stringify_number (n : number) : string :=
  match n with
  | NaN | Infinity _ => "null"
  | Dec _ _ => number_to_string n
  end.

Fixpoint join_with (sep : string) (l : list string) : string :=
  match l with
  | [] => ""
  | [x] => x
  | x :: l' => x +:+ sep +:+ join_with sep l'
  end.

(** [None] stands for the result [undefined]: such a property is left out of
    an object, and such an array element is written [null]. *)
Fixpoint stringify (v : jsval) : option string :=
  match v with
  | JUndefined | JFun _ => None
  | JNull => Some "null"
  | JBool true => Some "true"
  | JBool false => Some "false"
  | JNum n => Some (stringify_number n)
  | JStr s => Some (quote s)
  | JArr items =>
      Some ("[" +:+
            join_with ","
              ((fix each (l : list jsval) : list string :=
                  match l with
                  | [] => []
                  | x :: l' => default "null" (stringify x) :: each l'
                  end) items) +:+ "]")
  | JObj props =>
      Some ("{" +:+
            join_with ","
              ((fix each (l : object) : list string :=
                  match l with
                  | [] => []
                  | (k, x) :: l' =>
                      match stringify x with
                      | Some t => (quote k +:+ ":" +:+ t) :: each l'
                      | None => each l'
                      end
                  end) props) +:+ "}")
  end.

(** ** Comparison *)

(** [a <= b], which is false when either side is [NaN]. *)
Definition number_leb (a b : number) : bool :=
  match a, b with
  | NaN, _ | _, NaN => false
  | Infinity true, _ => true
  | _, Infinity false => true
  | Infinity false, _ => false
  | _, Infinity true => false
  | Dec m e, Dec m' e' => m * 10 ^ Z.of_nat e' <=? m' * 10 ^ Z.of_nat e
  end.

(** [a === b].  The values of this model carry no identity.  A function is
    the member of [Object.prototype] that [inherited] gives for its name,
    and the empty object is what [inherited] gives for [__proto__], the
    prototype itself; these are the only functions and objects that the
    code compares, so that two functions are the same when their names
    are, and two objects when both are that empty object. *)
Definition strictEquals (a b : jsval) : bool :=
  match a, b with
  | JUndefined, JUndefined | JNull, JNull => true
  | JBool x, JBool y => Bool.eqb x y
  | JNum x, JNum y => number_eqb x y
  | JStr x, JStr y => String.eqb x y
  | JFun x, JFun y => String.eqb x y
  | JObj [], JObj [] => true
  | _, _ => false
  end.

(** ** [Number.prototype.toFixed]

    Let [n] be an integer for which [n / 10^digits - x] is as close to zero
    as possible, the larger one if there are two.  Here [x] is the exact
    decimal: a value that binary64 cannot hold and that lies half-way in
    this model may be rounded the other way by the code, and from [1e21]
    on the code switches to the exponent notation. *)
Definition toFixed (digits : nat) (x : number) : string :=
  match x with
  | NaN | Infinity _ => number_to_string x
  | Dec m e =>
      let n := (2 * Z.abs m * 10 ^ Z.of_nat digits + 10 ^ Z.of_nat e)
               / (2 * 10 ^ Z.of_nat e) in
      let p := 10 ^ Z.of_nat digits in
      (if m <? 0 then "-" else "") +:+ pretty (n / p) +:+
      match digits with
      | O => ""
      | S _ => "." +:+ pad_left digits (pretty (n mod p))
      end
  end.

(** ** [URLSearchParams]

    The serializer of [application/x-www-form-urlencoded], byte by byte:
    letters, digits and [*-._] stay, a space becomes [+], and every other
    byte is written in hexadecimal after a percent sign. *)
Definition upper_hex_digit (x : nat) : ascii :=
  ascii_of_nat (if (x <? 10)%nat then 48 + x else 55 + x).

Definition urlencode_byte (c : ascii) : string :=
  let n := nat_of_ascii c in
  if ((48 <=? n) && (n <=? 57) || (65 <=? n) && (n <=? 90)
      || (97 <=? n) && (n <=? 122))%nat
     || bool_decide (n ∈ [42; 45; 46; 95]%nat)
  then String c ""
  else if (n =? 32)%nat then "+"
  else String "%" (String (upper_hex_digit (n / 16))
                     (String (upper_hex_digit (n mod 16)) "")).

Fixpoint urlencode (s : string) : string :=
  match s with
  | EmptyString => ""
  | String c s' => urlencode_byte c +:+ urlencode s'
  end.

(** [params.toString()] for the pairs appended to [params], in order. *)
Definition searchParams (params : list (string * string)) : string :=
  join_with "&" ((λ p, urlencode p.1 +:+ "=" +:+ urlencode p.2) <$> params).

End JS.

(** * MD5

    [crypto.createHash('md5')] of Node.js, after RFC 1321, on byte strings. *)
Module MD5.

Definition mask32 (x : Z) : Z := Z.land x 0xffffffff.

Definition rotl32 (x : Z) (c : Z) : Z :=
  mask32 (Z.lor (Z.shiftl x c) (Z.shiftr x (32 - c))).

Definition not32 (x : Z) : Z := Z.lxor x 0xffffffff.

Definition shifts : list Z :=
  [ 7; 12; 17; 22; 7; 12; 17; 22; 7; 12; 17; 22; 7; 12; 17; 22;
    5; 9; 14; 20; 5; 9; 14; 20; 5; 9; 14; 20; 5; 9; 14; 20;
    4; 11; 16; 23; 4; 11; 16; 23; 4; 11; 16; 23; 4; 11; 16; 23;
    6; 10; 15; 21; 6; 10; 15; 21; 6; 10; 15; 21; 6; 10; 15; 21 ].

(** [floor (2^32 * |sin (i + 1)|)] for [i] from 0 to 63. *)
Definition sines : list Z :=
  [
    0xd76aa478; 0xe8c7b756; 0x242070db; 0xc1bdceee;
    0xf57c0faf; 0x4787c62a; 0xa8304613; 0xfd469501;
    0x698098d8; 0x8b44f7af; 0xffff5bb1; 0x895cd7be;
    0x6b901122; 0xfd987193; 0xa679438e; 0x49b40821;
    0xf61e2562; 0xc040b340; 0x265e5a51; 0xe9b6c7aa;
    0xd62f105d; 0x02441453; 0xd8a1e681; 0xe7d3fbc8;
    0x21e1cde6; 0xc33707d6; 0xf4d50d87; 0x455a14ed;
    0xa9e3e905; 0xfcefa3f8; 0x676f02d9; 0x8d2a4c8a;
    0xfffa3942; 0x8771f681; 0x6d9d6122; 0xfde5380c;
    0xa4beea44; 0x4bdecfa9; 0xf6bb4b60; 0xbebfbc70;
    0x289b7ec6; 0xeaa127fa; 0xd4ef3085; 0x04881d05;
    0xd9d4d039; 0xe6db99e5; 0x1fa27cf8; 0xc4ac5665;
    0xf4292244; 0x432aff97; 0xab9423a7; 0xfc93a039;
    0x655b59c3; 0x8f0ccc92; 0xffeff47d; 0x85845dd1;
    0x6fa87e4f; 0xfe2ce6e0; 0xa3014314; 0x4e0811a1;
    0xf7537e82; 0xbd3af235; 0x2ad7d2bb; 0xeb86d391 ].

Definition bytes_of_string (s : string) : list Z :=
  (λ c, Z.of_nat (nat_of_ascii c)) <$> list_ascii_of_string s.

(** The [n] low bytes of [x], least significant first. *)
Fixpoint le_bytes (n : nat) (x : Z) : list Z :=
  match n with
  | O => []
  | S n' => Z.land x 0xff :: le_bytes n' (Z.shiftr x 8)
  end.

Definition pad (msg : list Z) : list Z :=
  let len := Z.of_nat (length msg) in
  let fill := Z.to_nat ((55 - len) mod 64) in
  msg ++ [0x80] ++ replicate fill 0 ++ le_bytes 8 (len * 8).

Fixpoint le_word (bs : list Z) : Z :=
  match bs with
  | [] => 0
  | b :: bs' => Z.lor b (Z.shiftl (le_word bs') 8)
  end.

(** Cuts a byte list into [n] little-endian 32-bit words. *)
Fixpoint words (n : nat) (bs : list Z) : list Z :=
  match n with
  | O => []
  | S n' => le_word (take 4 bs) :: words n' (drop 4 bs)
  end.

Record state := { sa : Z; sb : Z; sc : Z; sd : Z }.

Definition init : state :=
  {| sa := 0x67452301; sb := 0xefcdab89; sc := 0x98badcfe; sd := 0x10325476 |}.

Definition round (M : list Z) (st : state) (i : nat) : state :=
  let '{| sa := A; sb := B; sc := C; sd := D |} := st in
  let '(F, g) :=
    if (i <? 16)%nat then (Z.lor (Z.land B C) (Z.land (not32 B) D), i)
    else if (i <? 32)%nat
         then (Z.lor (Z.land D B) (Z.land (not32 D) C), (5 * i + 1) mod 16)%nat
    else if (i <? 48)%nat then (Z.lxor B (Z.lxor C D), (3 * i + 5) mod 16)%nat
    else (Z.lxor C (Z.lor B (not32 D)), (7 * i) mod 16)%nat in
  let F := mask32 (F + A + nth i sines 0 + nth g M 0) in
  {| sa := D; sd := C; sc := B; sb := mask32 (B + rotl32 F (nth i shifts 0)) |}.

Definition block (st : state) (M : list Z) : state :=
  let st' := fold_left (round M) (seq 0 64) st in
  {| sa := mask32 (sa st + sa st'); sb := mask32 (sb st + sb st');
     sc := mask32 (sc st + sc st'); sd := mask32 (sd st + sd st') |}.

Fixpoint blocks (n : nat) (st : state) (bs : list Z) : state :=
  match n with
  | O => st
  | S n' => blocks n' (block st (words 16 (take 64 bs))) (drop 64 bs)
  end.

Definition hex_digit (x : Z) : ascii :=
  ascii_of_nat (Z.to_nat (if x <? 10 then 48 + x else 87 + x)).

Definition hex_byte (b : Z) : string :=
  String (hex_digit (Z.shiftr b 4)) (String (hex_digit (Z.land b 0xf)) "").

Definition hex (bs : list Z) : string :=
  fold_right (λ b acc, hex_byte b +:+ acc) "" bs.

Definition digest (msg : list Z) : list Z :=
  let p := pad msg in
  let st := blocks (length p / 64) init p in
  le_bytes 4 (sa st) ++ le_bytes 4 (sb st) ++ le_bytes 4 (sc st) ++
  le_bytes 4 (sd st).

(** [crypto.createHash('md5').update(s).digest('hex')] *)
Definition md5 (s : string) : string := hex (digest (bytes_of_string s)).

End MD5.

(** * server.js: [CacheManager] *)
Module CacheManager.
Import JS.

(** The object that [getNormalizedCriteria] builds.  [race] is whatever the
    lookup in [raceMapping] returns, which is why it is a [jsval]. *)
Record normalized := {
  minAge : number;
  maxAge : number;
  excludeMarried : bool;
  race : jsval;
  minHeight : number;
  excludeObese : bool;
  minIncome : number
}.

Definition raceMapping : object :=
  [ ("any", JNum (int 0)); ("0", JNum (int 0));
    ("white", JNum (int 1)); ("1", JNum (int 1));
    ("black", JNum (int 2)); ("2", JNum (int 2));
    ("asian", JNum (int 3)); ("3", JNum (int 3)) ].

(** [race?.toString()] used as a property key: [undefined] becomes the key
    ["undefined"]. *)
Definition raceKey (race : jsval) : res string :=
  match race with
  | JUndefined | JNull => Ok "undefined"
  | _ => toString race
  end.

Definition normalizeRace (race : jsval) : res jsval :=
  k ← raceKey race;
  Ok (match get raceMapping k with
      | JUndefined => JNum (int 0)
      | v => v
      end).

(** [n || d] on numbers. *)
Definition orDefault (n d : number) : number :=
  if truthy (JNum n) then n else d.

Definition normalizeHeight (height : jsval) : res number :=
  if negb (truthy height)
     || is_string height "any"
     || is_number height (int 0)
  then Ok (int 0)
  else f ← parseFloat height; Ok (orDefault f (int 0)).

Definition getNormalizedCriteria (criteria : object) : res normalized :=
  a ← parseInt (get criteria "minAge");
  b ← parseInt (get criteria "maxAge");
  r ← normalizeRace (get criteria "race");
  h ← normalizeHeight (or (get criteria "height") (get criteria "minHeight"));
  i ← parseInt (or (or (get criteria "income") (get criteria "minIncome"))
                  (JNum (int 0)));
  Ok {| minAge := orDefault a (int 25);
        maxAge := orDefault b (int 35);
        excludeMarried := truthy (get criteria "excludeMarried");
        race := r;
        minHeight := h;
        excludeObese := truthy (get criteria "excludeObese");
        minIncome := i |}.

(** The normalized record as the JavaScript object it is, properties in the
    order of the object literal. *)
Definition toObject (n : normalized) : object :=
  [ ("minAge", JNum (minAge n));
    ("maxAge", JNum (maxAge n));
    ("excludeMarried", JBool (excludeMarried n));
    ("race", race n);
    ("minHeight", JNum (minHeight n));
    ("excludeObese", JBool (excludeObese n));
    ("minIncome", JNum (minIncome n)) ].

(** [Object.keys(o).sort()] and the copy in that key order. *)
Definition sortedKeys (o : object) : list string :=
  merge_sort String.le (fst <$> o).

Definition sortedCopy (o : object) : object :=
  (λ k, (k, get o k)) <$> sortedKeys o.

Definition fingerprint (n : normalized) : string :=
  MD5.md5 (default "" (stringify (JObj (sortedCopy (toObject n))))).

Definition generateKey (criteria : object) : res string :=
  n ← getNormalizedCriteria criteria; Ok (fingerprint n).

End CacheManager.

(** * server.js: the cache and the on-demand path *)
Module Server.
Import JS CacheManager.

(** One entry of [this.cache].  [data] is the object that [scrapeResults]
    returned; time stamps are readings of the clock. *)
Record cacheEntry := {
  criteria : normalized;
  data : object;
  timestamp : Z;
  accessCount : Z;
  lastAccessed : option Z
}.

(** What [cacheManager.get] and [getResults] return: the properties of the
    scraped data, overridden by the four properties written after the
    spread, of which a miss sets only the first two. *)
Module Envelope.
Record t := {
  payload : object;
  fromCache : bool;
  cacheKey : string;
  cachedAt : option Z;
  accessCount : option Z
}.
End Envelope.
Abbreviation envelope := Envelope.t.

(** The process and its surroundings: the [Map] in memory, the cache file
    (absent at first), the clock, what [console.error] printed, the number
    of file writes attempted so far with the oracle that tells which of
    them fail, and the number of scrapes so far with the oracle that tells
    what the site answers. *)
Record world := {
  cache : gmap string cacheEntry;
  cacheFile : option (gmap string cacheEntry);
  now : Z;
  console : list string;
  writes : nat;
  fails : nat → bool;
  visits : nat;
  site : nat → object → res object
}.

Definition set_cache (f : gmap string cacheEntry → gmap string cacheEntry)
    (w : world) : world :=
  {| cache := f (cache w); cacheFile := cacheFile w; now := now w;
     console := console w; writes := writes w; fails := fails w;
     visits := visits w; site := site w |}.

Definition log_error (line : string) (w : world) : world :=
  {| cache := cache w; cacheFile := cacheFile w; now := now w;
     console := console w ++ [line]; writes := writes w; fails := fails w;
     visits := visits w; site := site w |}.

(** [fs.writeFileSync(this.cacheFile, ...)] *)
Definition writeFileSync (content : gmap string cacheEntry) : M world unit :=
  λ w,
    let w' := {| cache := cache w;
                 cacheFile := if fails w (writes w) then cacheFile w
                              else Some content;
                 now := now w; console := console w;
                 writes := S (writes w); fails := fails w;
                 visits := visits w; site := site w |} in
    if fails w (writes w) then (Throw (IOError "scraped_data.json"), w')
    else (Ok tt, w').

Definition saveToFile : M world unit :=
  try_catch
    (cacheObject ← gets cache; writeFileSync cacheObject)
    (λ error, modify (log_error "Error saving cache to file:")).

Definition get (raw : object) : M world (option envelope) :=
  key ← lift (generateKey raw);
  cached ← gets (λ w, cache w !! key);
  match cached with
  | Some cached =>
      mret (Some {| Envelope.payload := data cached;
                    Envelope.fromCache := true;
                    Envelope.cacheKey := key;
                    Envelope.cachedAt := Some (timestamp cached);
                    Envelope.accessCount := Some (accessCount cached) |})
  | None => mret None
  end.

Definition set (raw : object) (scraped : object) : M world string :=
  key ← lift (generateKey raw);
  normalizedCriteria ← lift (getNormalizedCriteria raw);
  t ← gets now;
  let cacheEntry :=
    {| criteria := normalizedCriteria; data := scraped; timestamp := t;
       accessCount := 1; lastAccessed := None |} in
  modify (set_cache (insert key cacheEntry));;
  saveToFile;;
  mret key.

Definition updateAccess (raw : object) : M world unit :=
  key ← lift (generateKey raw);
  cached ← gets (λ w, cache w !! key);
  match cached with
  | Some cached =>
      t ← gets now;
      let cached :=
        {| criteria := criteria cached; data := data cached;
           timestamp := timestamp cached;
           accessCount :=
             (if accessCount cached =? 0 then 1 else accessCount cached) + 1;
           lastAccessed := Some t |} in
      modify (set_cache (insert key cached));;
      saveToFile
  | None => mret tt
  end.

(** The scraper is the outside world: the site answers the [n]-th visit. *)
Definition scrapeResults (raw : object) : M world object := λ w,
  (site w (visits w) raw,
   {| cache := cache w; cacheFile := cacheFile w; now := now w;
      console := console w; writes := writes w; fails := fails w;
      visits := S (visits w); site := site w |}).

Definition getResults (raw : object) : M world envelope :=
  cachedResult ← get raw;
  match cachedResult with
  | Some cachedResult => updateAccess raw;; mret cachedResult
  | None =>
      results ← scrapeResults raw;
      cacheKey ← set raw results;
      mret {| Envelope.payload := results;
              Envelope.fromCache := false;
              Envelope.cacheKey := cacheKey;
              Envelope.cachedAt := None;
              Envelope.accessCount := None |}
  end.

(** ** Reading and clearing the cache *)

(** [Array.from(this.cache.entries())], each entry with its key.  A [Map]
    iterates in insertion order, which the finite map of this model does
    not record: the array comes in the order of [map_to_list]. *)
Definition getAllCached : M world (list (string * cacheEntry)) :=
  gets (λ w, map_to_list (cache w)).

Module Stats.
Record t := {
  totalEntries : nat;
  totalAccesses : Z;
  oldestEntry : option Z;
  newestEntry : option Z
}.
End Stats.
Abbreviation stats := Stats.t.

(** [entry.accessCount || 1] *)
Definition accessesOf (entry : cacheEntry) : Z :=
  if accessCount entry =? 0 then 1 else accessCount entry.

(** [entries.reduce(f)] without an initial value: the first element starts
    the accumulation.  [None] stands for the empty array, on which the code
    does not call it. *)
Definition reduce {A} (f : A → A → A) (entries : list A) : option A :=
  match entries with
  | [] => None
  | first :: rest => Some (foldl f first rest)
  end.

Definition getStats : M world stats :=
  entries ← gets (λ w, (map_to_list (cache w)).*2);
  size ← gets (λ w, size (cache w));
  mret {| Stats.totalEntries := size;
          Stats.totalAccesses :=
            foldl (λ sum entry, sum + accessesOf entry) 0 entries;
          Stats.oldestEntry :=
            timestamp <$>
              reduce (λ oldest entry,
                        if timestamp entry <? timestamp oldest
                        then entry else oldest) entries;
          Stats.newestEntry :=
            timestamp <$>
              reduce (λ newest entry,
                        if timestamp newest <? timestamp entry
                        then entry else newest) entries |}.

(** [fs.unlinkSync(this.cacheFile)]: removes the file or throws.  For the
    oracle of failing writes it counts as a write. *)
Definition unlinkSync : M world unit := λ w,
  let w' := {| cache := cache w;
               cacheFile := if fails w (writes w) then cacheFile w else None;
               now := now w; console := console w;
               writes := S (writes w); fails := fails w;
               visits := visits w; site := site w |} in
  if fails w (writes w) then (Throw (IOError "scraped_data.json"), w')
  else (Ok tt, w').

Definition clear : M world unit :=
  modify (set_cache (λ _, ∅));;
  present ← gets (λ w, bool_decide (is_Some (cacheFile w)));
  if present : bool then unlinkSync else mret tt.

(** ** Route handlers *)

(** What a handler sends: [res.json(body)], or, from its [catch] block,
    [res.status(500).json({ success: false, error: error.message, ... })],
    of which the error is kept. *)
Inductive reply (A : Type) :=
| Sent (body : A)
| Failed (error : exn).
Arguments Sent {A} body.
Arguments Failed {A} error.

(** [!results.probability && !results.delusionScore &&
    !results.delusionScoreNumber] *)
Definition noValidResults (results : object) : bool :=
  negb (truthy (JS.get results "probability"))
  && negb (truthy (JS.get results "delusionScore"))
  && negb (truthy (JS.get results "delusionScoreNumber")).


(** The body of a successful reply of [/api/results]. *)
Module ResultsBody.
Record t := {
  fromCache : bool;
  cacheKey : string;
  criteria : normalized;
  results : object;
  timestamp : Z
}.
End ResultsBody.
Abbreviation resultsBody := ResultsBody.t.



(** [array.filter(f)] for a callback that may throw. *)
Fixpoint filterM {A} (f : A → res bool) (l : list A) : res (list A) :=
  match l with
  | [] => Ok []
  | x :: l' =>
      keep ← f x;
      rest ← filterM f l';
      Ok (if keep : bool then x :: rest else rest)
  end.

Module SearchBody.
Record t := {
  total : nat;
  filtered : nat;
  data : list (string * cacheEntry)
}.
End SearchBody.
Abbreviation searchBody := SearchBody.t.

(** [app.get('/api/search', ...)] *)
Definition search (query : object) : M world (reply searchBody) :=
  try_catch
    (let minAge := JS.get query "minAge" in
     let maxAge := JS.get query "maxAge" in
     let race := JS.get query "race" in
     let minIncome := JS.get query "minIncome" in
     allCached ← getAllCached;
     filtered ← lift (W := world)
       (if truthy minAge
        then filterM (λ entry : string * cacheEntry, n ← parseInt minAge;
                        Ok (number_leb n (CacheManager.minAge
                                            (criteria entry.2))))
                     allCached
        else Ok allCached);
     filtered ← lift
       (if truthy maxAge
        then filterM (λ entry : string * cacheEntry, n ← parseInt maxAge;
                        Ok (number_leb (CacheManager.maxAge
                                          (criteria entry.2)) n))
                     filtered
        else Ok filtered);
     filtered ← lift
       (if truthy race && negb (is_string race "any")
        then raceValue ← normalizeRace race;
             Ok (filter (λ entry : string * cacheEntry, strictEquals
                                    (CacheManager.race (criteria entry.2))
                                    raceValue = true)
                        filtered)
        else Ok filtered);
     filtered ← lift
       (if truthy minIncome
        then filterM (λ entry : string * cacheEntry, n ← parseInt minIncome;
                        Ok (number_leb n (CacheManager.minIncome
                                            (criteria entry.2))))
                     filtered
        else Ok filtered);
     mret (Sent {| SearchBody.total := length allCached;
                   SearchBody.filtered := length filtered;
                   SearchBody.data := filtered |}))
    (λ error, mret (Failed error)).

(** ** The address that [scrapeResults] navigates to *)

(** [value.toString()], which throws for [null] and [undefined]. *)
Definition toStringMethod (v : jsval) : res string :=
  match v with
  | JUndefined | JNull =>
      Throw (TypeError "Cannot read properties of null (reading 'toString')")
  | _ => toString v
  end.

(** The three values that [scrapeResults] prepares for the URL.  The first
    is [minHeight] after the block that handles the height. *)
Definition urlMinHeight (criteria : object) : res number :=
  let height := JS.get criteria "height" in
  if truthy height && negb (is_string height "any")
     && negb (is_number height (int 0))
  then f ← parseFloat height;
       Ok (match height, f with
           | JNum _, _ => f
           | _, NaN => int 0
           | _, _ => f
           end)
  else Ok (int 0).

Definition urlMinIncome (criteria : object) : res number :=
  let income := JS.get criteria "income" in
  let minIncome := JS.get criteria "minIncome" in
  if truthy income && negb (is_string income "any")
  then n ← parseInt income; Ok (orDefault n (int 0))
  else if truthy minIncome && negb (is_string minIncome "any")
       then n ← parseInt minIncome; Ok (orDefault n (int 0))
       else Ok (int 0).

(** The [raceMapping] of the file has the entries of the one in
    [normalizeRace]. *)
Definition urlRace (criteria : object) : res jsval :=
  match JS.get criteria "race" with
  | JUndefined => Ok (JNum (int 0))
  | race =>
      k ← toStringMethod race;
      Ok (match JS.get raceMapping k with
          | JUndefined => JNum (int 0)
          | v => v
          end)
  end.

(** The part of [scrapeResults] that builds the URL from the criteria. *)
Definition scrapeUrl (criteria : object) : res string :=
  minHeight ← urlMinHeight criteria;
  minIncome ← urlMinIncome criteria;
  race ← urlRace criteria;
  minAge ← toString (or (JS.get criteria "minAge") (JNum (int 25)));
  maxAge ← toString (or (JS.get criteria "maxAge") (JNum (int 35)));
  race ← toString race;
  Ok ("https://igotstandardsbro.com/results?" +:+
      searchParams
        [ ("minAge", minAge);
          ("maxAge", maxAge);
          ("excludeMarried",
           if truthy (JS.get criteria "excludeMarried")
           then "true" else "false");
          ("race", race);
          ("minHeight", toFixed 2 minHeight);
          ("excludeObese",
           if truthy (JS.get criteria "excludeObese")
           then "true" else "false");
          ("minIncome", number_to_string minIncome) ]).

End Server.

(** * server.js: [LicenseManager] and its middleware *)
Module LicenseManager.

(** The text of [public/index.html] and of [public/results.html]: the page
    of the application, or the page that [createExpiredPage] writes, of
    which the two interpolated values are kept: [this.licenseExpiry] and
    the clock reading whose date the page shows. *)
Inductive page :=
| Application
| ContainerNotFound (licenseExpiry : string) (currentDate : Z).

(** What goes to the console. *)
Inductive line :=
| LicenseExpired
| ExpiresIn (daysRemaining : Z)
| PageCreated
| PageFailed.

(** The manager and its surroundings.  [expiry] is the time value of
    [new Date(this.licenseExpiry)], with [None] for an invalid date, whose
    time value is [NaN]; [now] is what [new Date()] reads, in
    milliseconds, and does not move during a call.  [writes] counts the
    operations that change the file system, of which the oracle [fails]
    tells which ones throw. *)
Record world := {
  licenseExpiry : string;
  expiry : option Z;
  isExpired : bool;
  now : Z;
  publicDir : bool;
  index_html : option page;
  results_html : option page;
  console : list line;
  writes : nat;
  fails : nat → bool
}.

Definition set_isExpired (b : bool) (w : world) : world :=
  {| licenseExpiry := licenseExpiry w; expiry := expiry w; isExpired := b;
     now := now w; publicDir := publicDir w; index_html := index_html w;
     results_html := results_html w; console := console w;
     writes := writes w; fails := fails w |}.

Definition set_now (t : Z) (w : world) : world :=
  {| licenseExpiry := licenseExpiry w; expiry := expiry w;
     isExpired := isExpired w; now := t; publicDir := publicDir w;
     index_html := index_html w; results_html := results_html w;
     console := console w; writes := writes w; fails := fails w |}.

Definition log (l : line) (w : world) : world :=
  {| licenseExpiry := licenseExpiry w; expiry := expiry w;
     isExpired := isExpired w; now := now w; publicDir := publicDir w;
     index_html := index_html w; results_html := results_html w;
     console := console w ++ [l]; writes := writes w; fails := fails w |}.

Definition count_write (w : world) : world :=
  {| licenseExpiry := licenseExpiry w; expiry := expiry w;
     isExpired := isExpired w; now := now w; publicDir := publicDir w;
     index_html := index_html w; results_html := results_html w;
     console := console w; writes := S (writes w); fails := fails w |}.

Definition made_public (w : world) : world :=
  {| licenseExpiry := licenseExpiry w; expiry := expiry w;
     isExpired := isExpired w; now := now w; publicDir := true;
     index_html := index_html w; results_html := results_html w;
     console := console w; writes := writes w; fails := fails w |}.

Definition with_index (p : page) (w : world) : world :=
  {| licenseExpiry := licenseExpiry w; expiry := expiry w;
     isExpired := isExpired w; now := now w; publicDir := publicDir w;
     index_html := Some p; results_html := results_html w;
     console := console w; writes := writes w; fails := fails w |}.

Definition with_results (p : page) (w : world) : world :=
  {| licenseExpiry := licenseExpiry w; expiry := expiry w;
     isExpired := isExpired w; now := now w; publicDir := publicDir w;
     index_html := index_html w; results_html := Some p;
     console := console w; writes := writes w; fails := fails w |}.

(** [fs.mkdirSync] and [fs.writeFileSync]: the change is made or the call
    throws. *)
Definition fsChange (path : string) (change : world → world) : M world unit :=
  λ w, if fails w (writes w)
       then (Throw (IOError path), count_write w)
       else (Ok tt, change (count_write w)).

Definition createExpiredPage : M world unit :=
  expiredHTML ← gets (λ w, ContainerNotFound (licenseExpiry w) (now w));
  try_catch
    (present ← gets publicDir;
     (if present : bool then mret tt else fsChange "public" made_public);;
     fsChange "public/index.html" (with_index expiredHTML);;
     fsChange "public/results.html" (with_results expiredHTML);;
     modify (log PageCreated))
    (λ error, modify (log PageFailed)).

(** [Math.ceil((expiry - now) / (1000 * 60 * 60 * 24))], in exact
    arithmetic. *)
Definition daysRemaining (expiry now : Z) : Z :=
  - ((now - expiry) / 86400000).

Definition checkLicenseExpiry : M world bool :=
  now ← gets now;
  expiry ← gets expiry;
  match expiry with
  | Some expiry =>
      if expiry <? now
      then
        expired ← gets isExpired;
        (if expired : bool then mret tt
         else modify (log LicenseExpired);;
              modify (set_isExpired true);;
              createExpiredPage);;
        mret false
      else
        (if daysRemaining expiry now <=? 7
         then modify (log (ExpiresIn (daysRemaining expiry now)))
         else mret tt);;
        mret true
  | None => mret true
  end.

(** [!this.isExpired && this.checkLicenseExpiry()] *)
Definition isActive : M world bool :=
  expired ← gets isExpired;
  if expired : bool then mret false else checkLicenseExpiry.

(** What the middleware does with a request: it hands it on with [next()],
    or answers it with status 503. *)
Inductive served := Next | ServiceUnavailable.

Definition checkLicense (path : string) : M world served :=
  active ← isActive;
  if active : bool then mret Next
  else if String.prefix "/api/" path then mret ServiceUnavailable
       else mret Next.

End LicenseManager.

(** * server.js: the hourly clean-up of screenshots *)
Module Screenshots.

Inductive line :=
| Deleted (name : string)
| CouldNotDelete (name : string)
| CleanupError.

(** The directory [public/], [None] if there is none: its files with the
    time of their last modification.  The two oracles tell for which files
    of the directory [fs.statSync] and [fs.unlinkSync] throw; for a file
    that is not there they always throw. *)
Record world := {
  publicDir : option (gmap string Z);
  statFails : string → bool;
  unlinkFails : string → bool;
  console : list line
}.

Definition log (l : line) (w : world) : world :=
  {| publicDir := publicDir w; statFails := statFails w;
     unlinkFails := unlinkFails w; console := console w ++ [l] |}.

Definition remove (name : string) (w : world) : world :=
  {| publicDir := delete name <$> publicDir w; statFails := statFails w;
     unlinkFails := unlinkFails w; console := console w |}.

(** An element of [files], whose [path] is determined by its [name]. *)
Record shot := { name : string; time : Z }.

(** [file.endsWith(suffix)] *)
Definition endsWith (suffix file : string) : bool :=
  String.prefix (String.rev suffix) (String.rev file).

Definition isScreenshot (file : string) : bool :=
  String.prefix "screenshot_" file && endsWith ".png" file.

(** [fs.statSync(path).mtime.getTime()] *)
Definition statSync (file : string) : M world shot := λ w,
  match publicDir w ≫= (.!! file) with
  | Some mtime =>
      if statFails w file then (Throw (IOError file), w)
      else (Ok {| name := file; time := mtime |}, w)
  | None => (Throw (IOError file), w)
  end.

Definition unlinkSync (file : string) : M world unit := λ w,
  match publicDir w ≫= (.!! file) with
  | Some _ =>
      if unlinkFails w file then (Throw (IOError file), w)
      else (Ok tt, remove file w)
  | None => (Throw (IOError file), w)
  end.

(** The body of [filesToDelete.forEach]. *)
Definition deleteOne (file : shot) : M world unit :=
  try_catch
    (unlinkSync (name file);; modify (log (Deleted (name file))))
    (λ deleteError, modify (log (CouldNotDelete (name file)))).

Fixpoint forEach (files : list shot) : M world unit :=
  match files with
  | [] => mret tt
  | file :: rest => deleteOne file;; forEach rest
  end.

(** The comparison [(a, b) => b.time - a.time] puts [a] before [b] when
    its result is negative or zero. *)
Definition newestFirst (a b : shot) : Prop := time b ≤ time a.

#[global] Instance newestFirst_dec : RelDecision newestFirst.
Proof. intros a b. unfold newestFirst. apply _. Defined.

(** [Array.prototype.sort] keeps the order of equal elements, as
    [merge_sort] does.  [fs.readdirSync] lists the directory in an order
    that is not specified; here it is the order of [map_to_list]. *)
Definition cleanupOldScreenshots : M world unit :=
  try_catch
    (publicDir ← gets publicDir;
     match publicDir with
     | None => mret tt
     | Some dir =>
         files ← mapM statSync (filter (λ file, isScreenshot file = true)
                                       (map_to_list dir).*1);
         let files := merge_sort newestFirst files in
         if (50 <? length files)%nat
         then forEach (drop 50 files)
         else mret tt
     end)
    (λ error, modify (log CleanupError)).

End Screenshots.

(** * cache-system.js: [DataCachingSystem] *)
Module DataCachingSystem.
Import JS.

(** The seven values of one combination.  The grids hold integers. *)
Record parameterSet := {
  minAge : Z;
  maxAge : Z;
  excludeMarried : bool;
  race : Z;
  minHeight : Z;
  excludeObese : bool;
  minIncome : Z
}.

Record combination := { id : string; params : parameterSet }.

(** [this.parameterRanges] *)
Module Range.
Record t := {
  minAge : list Z;
  maxAge : list Z;
  excludeMarried : list bool;
  race : list Z;
  minHeight : list Z;
  excludeObese : list bool;
  minIncome : list Z
}.
End Range.

(** The fields of [this] that the code reads.  A batch size of zero would
    keep the outer loop of [startCaching] from advancing; the type leaves
    it out. *)
Record system := {
  batchSize : positive;
  delayBetweenRequests : Z;
  retryAttempts : nat;
  parameterRanges : Range.t
}.

(** The object that the constructor builds. *)
Definition constructor : system := {|
  batchSize := 10;
  delayBetweenRequests := 3000;
  retryAttempts := 3;
  parameterRanges := {|
    Range.minAge := [18; 20; 22; 25; 28; 30; 32; 35; 38; 40; 45; 50];
    Range.maxAge := [22; 25; 28; 30; 32; 35; 38; 40; 45; 50; 55; 60; 65];
    Range.excludeMarried := [true; false];
    Range.race := [0; 1; 2; 3];
    Range.minHeight := [0; 150; 155; 160; 165; 170; 175; 180; 185; 190];
    Range.excludeObese := [true; false];
    Range.minIncome :=
      [0; 30000; 50000; 75000; 100000; 150000; 200000; 300000; 500000]
  |}
|}.

(** A value inside a template literal. *)
Definition show_bool (b : bool) : string := if b then "true" else "false".

Definition generateCombinationId (p : parameterSet) : string :=
  pretty (minAge p) +:+ "-" +:+ pretty (maxAge p) +:+ "-" +:+
  show_bool (excludeMarried p) +:+ "-" +:+ pretty (race p) +:+ "-" +:+
  pretty (minHeight p) +:+ "-" +:+ show_bool (excludeObese p) +:+ "-" +:+
  pretty (minIncome p).

Definition generateAllCombinations (this : system) : list combination :=
  let r := parameterRanges this in
  minAgeVal ← Range.minAge r;
  maxAgeVal ← Range.maxAge r;
  if minAgeVal >=? maxAgeVal then [] else
  excludeMarriedVal ← Range.excludeMarried r;
  raceVal ← Range.race r;
  minHeightVal ← Range.minHeight r;
  excludeObeseVal ← Range.excludeObese r;
  minIncomeVal ← Range.minIncome r;
  let combination :=
    {| minAge := minAgeVal; maxAge := maxAgeVal;
       excludeMarried := excludeMarriedVal; race := raceVal;
       minHeight := minHeightVal; excludeObese := excludeObeseVal;
       minIncome := minIncomeVal |} in
  [ {| id := generateCombinationId combination; params := combination |} ].

(** ** Files, variables and the outside *)

(** What [scrapeWithRetry] returns: the scraped object, to which a time
    stamp and the parameters are added. *)
Record result := { data : object; timestamp : Z; parameters : parameterSet }.

(** An element of [errors.json] (the stack trace is left out). *)
Module ErrorRecord.
Record t := { timestamp : Z; combination : combination; error : string }.
End ErrorRecord.
Abbreviation errorRecord := ErrorRecord.t.

(** The content of [progress.json].  [completionPercentage], a display
    string that floating-point arithmetic derives from [processed] and
    [totalCombinations], is left out. *)
Record progress := {
  totalCombinations : nat;
  processed : nat;
  currentIndex : nat;
  startTime : option Z;
  lastProcessedAt : option Z;
  errors : nat;
  successes : nat
}.

Inductive file := progressFile | resultsFile | errorLogFile.

#[global] Instance file_eq_dec : EqDecision file.
Proof. solve_decision. Defined.

(** The three files of the cache directory; [None] is a file that does not
    exist. *)
Record disk := {
  progress_json : option progress;
  results_json : option (gmap string result);
  errors_json : option (list errorRecord)
}.

(** The variables of [startCaching] that its loops update.  They are part
    of the world, so that a [catch] block finds them as the [try] block
    left them. *)
Record variables := {
  existingResults : gmap string result;
  processedCount : nat;
  successCount : nat;
  errorCount : nat
}.

(** What a run does that can be observed from outside: every attempt to
    load the page, every [setTimeout] wait, every file written. *)
Inductive event :=
| Attempt (id : string) (attempt : nat)
| Sleep (ms : Z)
| SavedProgress (p : progress)
| SavedResults (ids : list string)
| SavedErrors (count : nat).

(** [fails f n] tells whether the [n]-th write of the run, if it is to file
    [f], fails; [page n c] is what loading and reading the page for [c]
    gives at the [n]-th visit.  The clock [now] moves only with the waits
    of [setTimeout]. *)
Record world := {
  files : disk;
  vars : variables;
  now : Z;
  trace : list event;
  writes : nat;
  fails : file → nat → bool;
  visits : nat;
  page : nat → combination → res object
}.

Definition set_files (f : disk → disk) (w : world) : world :=
  {| files := f (files w); vars := vars w; now := now w; trace := trace w;
     writes := writes w; fails := fails w; visits := visits w;
     page := page w |}.

Definition set_vars (f : variables → variables) (w : world) : world :=
  {| files := files w; vars := f (vars w); now := now w; trace := trace w;
     writes := writes w; fails := fails w; visits := visits w;
     page := page w |}.

Definition emit (e : event) (w : world) : world :=
  {| files := files w; vars := vars w; now := now w;
     trace := trace w ++ [e];
     writes := writes w; fails := fails w; visits := visits w;
     page := page w |}.

Definition count_write (w : world) : world :=
  {| files := files w; vars := vars w; now := now w; trace := trace w;
     writes := S (writes w); fails := fails w; visits := visits w;
     page := page w |}.

Definition count_visit (w : world) : world :=
  {| files := files w; vars := vars w; now := now w; trace := trace w;
     writes := writes w; fails := fails w; visits := S (visits w);
     page := page w |}.

Definition advance (ms : Z) (w : world) : world :=
  {| files := files w; vars := vars w; now := now w + ms; trace := trace w;
     writes := writes w; fails := fails w; visits := visits w;
     page := page w |}.

(** [await new Promise(resolve => setTimeout(resolve, ms))] *)
Definition sleep (ms : Z) : M world unit :=
  modify (λ w, emit (Sleep ms) (advance ms w)).

Definition path (f : file) : string :=
  match f with
  | progressFile => "progress.json"
  | resultsFile => "results.json"
  | errorLogFile => "errors.json"
  end.

(** [await fs.writeFile(f, ...)]: replaces the whole file or throws. *)
Definition writeFile (f : file) (content : disk → disk) (e : event)
    : M world unit := λ w,
  if fails w f (writes w)
  then (Throw (IOError (path f)), count_write w)
  else (Ok tt, emit e (set_files content (count_write w))).

Definition with_progress (p : progress) (d : disk) : disk :=
  {| progress_json := Some p; results_json := results_json d;
     errors_json := errors_json d |}.

Definition with_results (r : gmap string result) (d : disk) : disk :=
  {| progress_json := progress_json d; results_json := Some r;
     errors_json := errors_json d |}.

Definition with_errors (l : list errorRecord) (d : disk) : disk :=
  {| progress_json := progress_json d; results_json := results_json d;
     errors_json := Some l |}.

Definition saveProgress (p : progress) : M world unit :=
  writeFile progressFile (with_progress p) (SavedProgress p).

(** [null] when the file cannot be read. *)
Definition loadProgress : M world (option progress) :=
  gets (λ w, progress_json (files w)).

Definition saveResults (results : gmap string result) : M world unit :=
  writeFile resultsFile (with_results results)
    (SavedResults (fst <$> map_to_list results)).

Definition loadResults : M world (gmap string result) :=
  gets (λ w, default ∅ (results_json (files w))).

Definition loadErrors : M world (list errorRecord) :=
  gets (λ w, default [] (errors_json (files w))).

Definition message (e : exn) : string :=
  match e with
  | TypeError m | Error m => m
  | IOError p => "EIO: i/o error, write " +:+ p
  end.

Definition logError (c : combination) (error : exn) : M world unit :=
  try_catch
    (errors ← loadErrors;
     t ← gets now;
     let errors :=
       errors ++ [ {| ErrorRecord.timestamp := t;
                      ErrorRecord.combination := c;
                      ErrorRecord.error := message error |} ] in
     writeFile errorLogFile (with_errors errors)
       (SavedErrors (length errors)))
    (λ logError, mret tt).

Definition initialize : M world unit :=
  try_catch
    (p ← gets (λ w, progress_json (files w));
     match p with
     | Some _ => mret tt
     | None =>
         saveProgress {| totalCombinations := 0; processed := 0;
                         currentIndex := 0; startTime := None;
                         lastProcessedAt := None; errors := 0;
                         successes := 0 |}
     end;;
     r ← gets (λ w, results_json (files w));
     match r with
     | Some _ => mret tt
     | None => writeFile resultsFile (with_results ∅) (SavedResults [])
     end;;
     e ← gets (λ w, errors_json (files w));
     match e with
     | Some _ => mret tt
     | None => writeFile errorLogFile (with_errors []) (SavedErrors 0)
     end)
    (λ error, throw error).

(** ** Fetching with retries *)

(** One pass through the [try] block of [scrapeWithRetry]: the page is
    opened, loaded and read, which the outside decides, and the scraped
    object is validated. *)
Definition visit (c : combination) : M world object := λ w,
  (page w (visits w) c, count_visit w).

(** [!results.probability && !results.delusionScore &&
    !results.delusionScoreNumber] *)
Definition noValidResults (results : object) : bool :=
  negb (truthy (get results "probability"))
  && negb (truthy (get results "delusionScore"))
  && negb (truthy (get results "delusionScoreNumber")).

Definition attemptOnce (c : combination) (attempt : nat) : M world result :=
  modify (emit (Attempt (id c) attempt));;
  results ← visit c;
  if noValidResults results
  then throw (Error "No valid results found on page")
  else
    t ← gets now;
    mret {| data := results; timestamp := t; parameters := params c |}.

Equations? scrapeWithRetry (this : system) (c : combination) (attempt : nat)
    (w : world) : res result * world
    by wf (retryAttempts this - attempt)%nat lt :=
  scrapeWithRetry this c attempt w with attemptOnce c attempt w := {
    | (Ok r, w1) := (Ok r, w1);
    | (Throw error, w1) with lt_dec attempt (retryAttempts this) := {
        | left _ :=
            match sleep 5000 w1 with
            | (_, w2) => scrapeWithRetry this c (attempt + 1) w2
            end;
        | right _ := (logError c error;; throw error) w1 } }.
Proof. lia. Qed.

(** ** The batch driver *)

Definition count_skipped (v : variables) : variables :=
  {| existingResults := existingResults v;
     processedCount := S (processedCount v);
     successCount := S (successCount v);
     errorCount := errorCount v |}.

Definition store (k : string) (r : result) (v : variables) : variables :=
  {| existingResults := <[k := r]> (existingResults v);
     processedCount := processedCount v;
     successCount := successCount v;
     errorCount := errorCount v |}.

Definition count_success (v : variables) : variables :=
  {| existingResults := existingResults v;
     processedCount := processedCount v;
     successCount := S (successCount v);
     errorCount := errorCount v |}.

Definition count_error (v : variables) : variables :=
  {| existingResults := existingResults v;
     processedCount := processedCount v;
     successCount := successCount v;
     errorCount := S (errorCount v) |}.

Definition count_processed (v : variables) : variables :=
  {| existingResults := existingResults v;
     processedCount := S (processedCount v);
     successCount := successCount v;
     errorCount := errorCount v |}.

(** The body of [for (const combination of batch)], for the combination at
    position [pos] of the batch that starts at index [i].  The combinations
    are distinct objects, so [batch.indexOf(combination)] is [pos] and
    [combination !== batch[batch.length - 1]] is [pos ≠ size - 1]. *)
Definition processItem (this : system) (total : nat) (started : option Z)
    (i size pos : nat) (c : combination) : M world unit :=
  cached ← gets (λ w, existingResults (vars w) !! id c);
  match cached with
  | Some _ => modify (set_vars count_skipped)
  | None =>
      try_catch
        (result ← scrapeWithRetry this c 1;
         modify (set_vars (store (id c) result));;
         modify (set_vars count_success);;
         results ← gets (λ w, existingResults (vars w));
         saveResults results)
        (λ error, modify (set_vars count_error));;
      modify (set_vars count_processed);;
      v ← gets vars;
      t ← gets now;
      saveProgress {| totalCombinations := total;
                      processed := processedCount v;
                      currentIndex := i + pos + 1;
                      startTime := started;
                      lastProcessedAt := Some t;
                      errors := errorCount v;
                      successes := successCount v |};;
      if bool_decide (pos ≠ (size - 1)%nat)
      then sleep (delayBetweenRequests this)
      else mret tt
  end.

Fixpoint forEach (this : system) (total : nat) (started : option Z)
    (i size pos : nat) (batch : list combination) : M world unit :=
  match batch with
  | [] => mret tt
  | c :: rest =>
      processItem this total started i size pos c;;
      forEach this total started i size (S pos) rest
  end.

(** [combinations.slice(i, Math.min(i + n, combinations.length))] *)
Definition slice (combinations : list combination) (i n : nat)
    : list combination :=
  take (Nat.min (i + n) (length combinations) - i) (drop i combinations).

Definition oneBatch (this : system) (combinations : list combination)
    (started : option Z) (i : nat) : M world unit :=
  let n := Pos.to_nat (batchSize this) in
  let batch := slice combinations i n in
  forEach this (length combinations) started i (length batch) 0 batch;;
  if (i + n <? length combinations)%nat then sleep 10000 else mret tt.

(** [for (let i = startIndex; i < combinations.length; i += this.batchSize)] *)
Equations? forBatches (this : system) (combinations : list combination)
    (started : option Z) (i : nat) (w : world) : res unit * world
    by wf (length combinations - i)%nat lt :=
  forBatches this combinations started i w
    with lt_dec i (length combinations) := {
    | right _ := (Ok tt, w);
    | left _ with oneBatch this combinations started i w := {
        | (Ok _, w1) :=
            forBatches this combinations started
              (i + Pos.to_nat (batchSize this)) w1;
        | (Throw error, w1) := (Throw error, w1) } }.
Proof. lia. Qed.

Definition resume (p : progress) (existing : gmap string result)
    (v : variables) : variables :=
  {| existingResults := existing;
     processedCount := processed p;
     successCount := successes p;
     errorCount := errors p |}.

(** Creating the cache directory and launching and closing the browser are
    left out, as is what goes to the console. *)
Definition startCaching (this : system) : M world unit :=
  initialize;;
  let combinations := generateAllCombinations this in
  progress ← loadProgress;
  existing ← loadResults;
  match progress with
  | None => throw (TypeError "Cannot set properties of null")
  | Some progress =>
      let startIndex := currentIndex progress in
      modify (set_vars (resume progress existing));;
      t ← gets now;
      let started :=
        if (startIndex =? 0)%nat then Some t else startTime progress in
      try_catch
        (forBatches this combinations started startIndex)
        (λ error, throw error)
  end.

(** [getCachedResult], the lookup of the [test] command. *)
Definition getCachedResult (p : parameterSet) : M world (option result) :=
  results ← loadResults;
  mret (results !! generateCombinationId p).

(** ** Statistics *)

(** [progress.successes / (progress.successes + progress.errors) * 100].
    It is [NaN] for 0/0; the division of binary64 is outside this model,
    so that the rate is otherwise kept as its two operands. *)
Inductive rate :=
| NoRate
| Percent (successes total : nat).

Module Stats.
Record t := {
  progress : progress;
  totalCachedResults : nat;
  totalErrors : nat;
  cacheHitRate : rate
}.
End Stats.
Abbreviation stats := Stats.t.

(** The properties of the object literal are evaluated in order, so that
    the three files have been read when [progress.successes] throws for a
    progress that is [null]. *)
Definition getStats : M world stats :=
  progress ← loadProgress;
  results ← loadResults;
  errors ← loadErrors;
  match progress with
  | None =>
      throw (TypeError "Cannot read properties of null (reading 'successes')")
  | Some progress =>
      mret {| Stats.progress := progress;
              Stats.totalCachedResults := size results;
              Stats.totalErrors := length errors;
              Stats.cacheHitRate :=
                if (successes progress + DataCachingSystem.errors progress
                    =? 0)%nat
                then NoRate
                else Percent (successes progress)
                             (successes progress
                              + DataCachingSystem.errors progress) |}
  end.

(** ** The address that [scrapeWithRetry] navigates to *)

(** A number or a boolean appended to the parameters is written as by
    [String(value)]. *)
Definition scrapeUrl (c : combination) : string :=
  let p := params c in
  "https://igotstandardsbro.com/results?" +:+
  searchParams
    [ ("minAge", number_to_string (int (minAge p)));
      ("maxAge", number_to_string (int (maxAge p)));
      ("excludeMarried", show_bool (excludeMarried p));
      ("race", number_to_string (int (race p)));
      ("minHeight", toFixed 2 (int (minHeight p)));
      ("excludeObese", show_bool (excludeObese p));
      ("minIncome", number_to_string (int (minIncome p))) ].

End DataCachingSystem.

(** * The library functions on known values *)
Section library_examples.
Import JS.

(** The test suite of RFC 1321. *)
Example md5_empty : MD5.md5 "" = "d41d8cd98f00b204e9800998ecf8427e".
Proof. by vm_compute. Qed.

Example md5_abc : MD5.md5 "abc" = "900150983cd24fb0d6963f7d28e17f72".
Proof. by vm_compute. Qed.

Example md5_digits :
  MD5.md5 ("1234567890123456789012345678901234567890" +:+
           "1234567890123456789012345678901234567890")
  = "57edf4a22be3c955ac49da2e2107b67a".
Proof. by vm_compute. Qed.

Example parseInt_examples :
  parseInt (JStr "  -42px") = Ok (int (-42)) ∧
  parseInt (JStr "0x1F") = Ok (int 31) ∧
  parseInt (JStr "abc") = Ok NaN ∧
  parseInt (JStr "") = Ok NaN ∧
  parseInt (JNum (Dec 1705 1)) = Ok (int 170) ∧
  parseInt JUndefined = Ok NaN ∧
  parseInt JNull = Ok NaN ∧
  parseInt (JArr [JNum (int 7); JNum (int 8)]) = Ok (int 7).
Proof. by vm_compute. Qed.

Example parseFloat_examples :
  parseFloat (JStr "170.50") = Ok (Dec 1705 1) ∧
  parseFloat (JStr "1.5e3") = Ok (int 1500) ∧
  parseFloat (JStr ".5") = Ok (Dec 5 1) ∧
  parseFloat (JStr "-1e-2x") = Ok (Dec (-1) 2) ∧
  parseFloat (JStr "1e") = Ok (int 1) ∧
  parseFloat (JStr ".") = Ok NaN ∧
  parseFloat (JStr "6'0") = Ok (int 6) ∧
  parseFloat (JStr "Infinity") = Ok (Infinity false) ∧
  parseFloat (JBool true) = Ok NaN.
Proof. by vm_compute. Qed.

Example toString_examples :
  toString (JNum (Dec 1705 1)) = Ok "170.5" ∧
  toString (JNum (Dec (-5) 3)) = Ok "-0.005" ∧
  toString (JArr [JNum (int 7); JNull; JArr [JStr "a"; JStr "b"]])
    = Ok "7,,a,b" ∧
  toString (JObj [("a", JNull)]) = Ok "[object Object]" ∧
  is_ok (toString (JObj [("toString", JNum (int 1))])) = false.
Proof. by vm_compute. Qed.

Example stringify_example :
  stringify (JObj [ ("b", JArr [JUndefined; JNum NaN; JNum (Dec 15 1)]);
                    ("f", JFun "toString"); ("s", JStr "x") ])
  = Some ("{" +:+ quote "b" +:+ ":[null,null,1.5]," +:+
          quote "s" +:+ ":" +:+ quote "x" +:+ "}").
Proof. by vm_compute. Qed.

(** The JSON text that is hashed for the default criteria. *)
Example fingerprint_text :
  stringify (JObj (CacheManager.sortedCopy (CacheManager.toObject
    {| CacheManager.minAge := int 25; CacheManager.maxAge := int 35;
       CacheManager.excludeMarried := false;
       CacheManager.race := JNum (int 0);
       CacheManager.minHeight := int 0;
       CacheManager.excludeObese := false;
       CacheManager.minIncome := int 0 |})))
  = Some ("{" +:+ quote "excludeMarried" +:+ ":false," +:+
          quote "excludeObese" +:+ ":false," +:+
          quote "maxAge" +:+ ":35," +:+ quote "minAge" +:+ ":25," +:+
          quote "minHeight" +:+ ":0," +:+ quote "minIncome" +:+ ":0," +:+
          quote "race" +:+ ":0}").
Proof. by vm_compute. Qed.

End library_examples.

(** * Decimal strings *)
Section decimal_strings.

Lemma append_nil (s : string) : "" +:+ s = s.
Proof. reflexivity. Qed.

Lemma append_cons (c : ascii) (a s : string) :
  String c a +:+ s = String c (a +:+ s).
Proof. reflexivity. Qed.

Fixpoint dashfree (s : string) : Prop :=
  match s with
  | EmptyString => True
  | String c s' => c ≠ "-"%char ∧ dashfree s'
  end.

Lemma pretty_N_go_dashfree (x : N) (s : string) :
  dashfree s → dashfree (pretty_N_go x s).
Proof.
  revert s. induction (N.lt_wf_0 x) as [x _ IH]. intros s Hs.
  destruct (decide (x = 0)%N) as [->|Hx]; [by rewrite pretty_N_go_0|].
  rewrite pretty_N_go_step by lia. apply IH.
  - apply N.div_lt; lia.
  - split; [|done]. unfold pretty_N_char. by repeat case_match.
Qed.

Lemma pretty_N_go_nonempty (x : N) (s : string) :
  s ≠ "" → pretty_N_go x s ≠ "".
Proof.
  revert s. induction (N.lt_wf_0 x) as [x _ IH]. intros s Hs.
  destruct (decide (x = 0)%N) as [->|Hx]; [by rewrite pretty_N_go_0|].
  rewrite pretty_N_go_step by lia. apply IH; [apply N.div_lt; lia|done].
Qed.

Lemma pretty_N_dashfree (x : N) : dashfree (pretty x) ∧ pretty x ≠ "".
Proof.
  unfold pretty, pretty_N. case_decide; [by repeat split|].
  split; [by apply pretty_N_go_dashfree|].
  rewrite pretty_N_go_step by lia. by apply pretty_N_go_nonempty.
Qed.

End decimal_strings.

(** * Properties of the normalizer and of the fingerprint *)
Section normalization.
Import JS CacheManager.

(** The code that a key of [raceMapping] stands for, by exact comparison. *)
Definition raceCode (k : string) : Z :=
  if bool_decide (k = "white" ∨ k = "1") then 1
  else if bool_decide (k = "black" ∨ k = "2") then 2
  else if bool_decide (k = "asian" ∨ k = "3") then 3
  else 0.

Lemma inherited_None k : k ∉ objectPrototype → inherited k = None.
Proof. intros H. unfold inherited. by rewrite bool_decide_eq_false_2. Qed.

Lemma get_raceMapping k :
  k ∉ objectPrototype →
  match get raceMapping k with
  | JUndefined => JNum (int 0)
  | v => v
  end = JNum (int (raceCode k)).
Proof.
  intros H. unfold get, raceMapping, own, raceCode.
  repeat match goal with
         | |- context [String.eqb ?a k] =>
             destruct (String.eqb_spec a k) as [<-|?]; [reflexivity|]
         end.
  rewrite inherited_None by done.
  repeat (rewrite bool_decide_eq_false_2 by (intros [->| ->]; congruence)).
  done.
Qed.

(** C2, as amended: the key is compared exactly, so only the lowercase
    names and the codes 0 to 3 are matched; every other key that is not
    the name of an inherited member gives 0. *)
Theorem normalizeRace_exact_match (v : jsval) (k : string) :
  raceKey v = Ok k →
  k ∉ objectPrototype →
  normalizeRace v = Ok (JNum (int (raceCode k))).
Proof.
  intros Hk Hproto. unfold normalizeRace. rewrite Hk. simpl.
  by rewrite get_raceMapping.
Qed.

Lemma normalizeRace_exact_match_witness :
  normalizeRace (JStr "BLACK") = Ok (JNum (int 0)) ∧
  normalizeRace (JStr "black") = Ok (JNum (int 2)) ∧
  normalizeRace (JNum (int 2)) = Ok (JNum (int 2)) ∧
  normalizeRace (JStr "Asian") = Ok (JNum (int 0)) ∧
  normalizeRace JUndefined = Ok (JNum (int 0)).
Proof.
  split_and!.
  - apply (normalizeRace_exact_match (JStr "BLACK") "BLACK");
      [reflexivity | compute_done].
  - apply (normalizeRace_exact_match (JStr "black") "black");
      [reflexivity | compute_done].
  - apply (normalizeRace_exact_match (JNum (int 2)) "2");
      [reflexivity | compute_done].
  - apply (normalizeRace_exact_match (JStr "Asian") "Asian");
      [reflexivity | compute_done].
  - apply (normalizeRace_exact_match JUndefined "undefined");
      [reflexivity | compute_done].
Defined.

(** C2 as stated fails: the race "BLACK" is normalized to 0, not to 2. *)
Lemma normalizeRace_BLACK_not_2 :
  ∃ n, getNormalizedCriteria [("race", JStr "BLACK")] = Ok n ∧
       race n = JNum (int 0) ∧ race n ≠ JNum (int 2).
Proof. eexists. split; [reflexivity|]. split; [reflexivity|discriminate]. Qed.

(** What the lookup does with the name of an inherited member: the race
    is then not a code at all. *)
Lemma normalizeRace_inherited :
  normalizeRace (JStr "toString") = Ok (JFun "toString") ∧
  normalizeRace (JStr "__proto__") = Ok (JObj []).
Proof. split; reflexivity. Qed.

(** ** A number and its decimal string are read alike *)

Fixpoint digits (s : string) : Prop :=
  match s with
  | EmptyString => True
  | String c s' => is_digit 10 c = true ∧ digits s'
  end.









(** ** Other ways to say the same *)

Lemma normalizeRace_variants (name : string) (z : Z) :
  (name, z) ∈ [("any", 0); ("white", 1); ("black", 2); ("asian", 3)] →
  normalizeRace (JStr name) = Ok (JNum (int z)) ∧
  normalizeRace (JNum (int z)) = Ok (JNum (int z)) ∧
  normalizeRace (JStr (pretty z)) = Ok (JNum (int z)).
Proof.
  intros Hin.
  repeat (apply elem_of_cons in Hin as [[= -> ->]|Hin]; [by vm_compute|]).
  by apply elem_of_nil in Hin.
Qed.

Lemma normalizeHeight_any (v : jsval) :
  truthy v = false ∨ v = JStr "any" → normalizeHeight v = Ok (int 0).
Proof. unfold normalizeHeight. by intros [->| ->]. Qed.

(** The fallbacks that are applied after parsing: a field that does not
    parse as a number gets its default. *)
Lemma numeric_fallbacks (raw : object) (n : normalized) :
  getNormalizedCriteria raw = Ok n →
  (parseInt (get raw "minAge") = Ok NaN → minAge n = int 25) ∧
  (parseInt (get raw "maxAge") = Ok NaN → maxAge n = int 35) ∧
  (parseFloat (or (get raw "height") (get raw "minHeight")) = Ok NaN →
   minHeight n = int 0).
Proof.
  unfold getNormalizedCriteria. intros H.
  destruct (parseInt (get raw "minAge")) as [a|]; [|done].
  destruct (parseInt (get raw "maxAge")) as [b|]; [|done].
  destruct (normalizeRace (get raw "race")) as [r|]; [|done].
  simpl in H. unfold normalizeHeight in H.
  destruct (negb _ || _ || _) eqn:Eh; simpl in H.
  - destruct (parseInt (or _ (JNum (int 0)))) as [i|]; [|done].
    injection H as <-. simpl. split_and!; intros Hx; by simplify_eq.
  - destruct (parseFloat _) as [f|]; [|done]. simpl in H.
    destruct (parseInt (or _ (JNum (int 0)))) as [i|]; [|done].
    injection H as <-. simpl. split_and!; intros Hx; by simplify_eq.
Qed.




(** C7 fails on the code for [minIncome]: its fallback [|| 0] sits inside
    the call of [parseInt], so a non-numeric income is normalized to [NaN]
    and not to the default 0, unlike the other three numeric fields. *)
Theorem getNormalizedCriteria_income_NaN :
  getNormalizedCriteria
    [("minAge", JStr "abc"); ("maxAge", JStr "abc");
     ("height", JStr "abc"); ("income", JStr "abc")]
  = Ok {| minAge := int 25; maxAge := int 35; excludeMarried := false;
          race := JNum (int 0); minHeight := int 0; excludeObese := false;
          minIncome := NaN |}.
Proof. reflexivity. Qed.

(** Normalization can also throw: an own property [toString] that is not
    a function makes [race?.toString()] a [TypeError]. *)
Lemma getNormalizedCriteria_throws :
  getNormalizedCriteria [("race", JObj [("toString", JNum (int 1))])]
  = Throw (TypeError "Cannot convert object to primitive value").
Proof. reflexivity. Qed.

End normalization.

(** * Properties of the combination space *)
Section combinations.
Import DataCachingSystem.

(** The pairs of ages that the filter [minAge >= maxAge] lets through. *)
Definition validAges (r : Range.t) : list (Z * Z) :=
  a ← Range.minAge r;
  b ← Range.maxAge r;
  if a >=? b then [] else [(a, b)].

(** The tuples of the cartesian product of the seven grids. *)
Definition inRanges (r : Range.t) (p : parameterSet) : Prop :=
  minAge p ∈ Range.minAge r ∧ maxAge p ∈ Range.maxAge r ∧
  excludeMarried p ∈ Range.excludeMarried r ∧ race p ∈ Range.race r ∧
  minHeight p ∈ Range.minHeight r ∧ excludeObese p ∈ Range.excludeObese r ∧
  minIncome p ∈ Range.minIncome r.

Definition noDupRanges (r : Range.t) : Prop :=
  NoDup (Range.minAge r) ∧ NoDup (Range.maxAge r) ∧
  NoDup (Range.excludeMarried r) ∧ NoDup (Range.race r) ∧
  NoDup (Range.minHeight r) ∧ NoDup (Range.excludeObese r) ∧
  NoDup (Range.minIncome r).

Definition combinationOf (p : parameterSet) : combination :=
  {| id := generateCombinationId p; params := p |}.

(** Takes a membership in the nested loops apart, one loop at a time. *)
Ltac inv_loops H :=
  cbv beta in H;
  repeat match type of H with
         | _ ∈ mbind _ _ =>
             let H' := fresh in
             apply list_elem_of_bind in H as (? & H & H')
         | _ ∈ (if ?b then _ else _) =>
             let E := fresh "E" in
             destruct b eqn:E; [by apply elem_of_nil in H|]
         | _ ∈ [_] => apply list_elem_of_singleton in H
         end.

Lemma elem_of_generateAllCombinations (this : system) (c : combination) :
  c ∈ generateAllCombinations this ↔
  c = combinationOf (params c) ∧ inRanges (parameterRanges this) (params c) ∧
  minAge (params c) < maxAge (params c).
Proof.
  unfold generateAllCombinations, inRanges, combinationOf. split.
  - intros H. inv_loops H. subst c. simpl. split_and!; try done. lia.
  - destruct c as [i [a b em ra h eo inc]]. simpl.
    intros ([= ->] & (?&?&?&?&?&?&?) & ?).
    apply list_elem_of_bind. exists a. split; [|done].
    apply list_elem_of_bind. exists b. split; [|done].
    destruct (a >=? b) eqn:E; [lia|].
    apply list_elem_of_bind. exists em. split; [|done].
    apply list_elem_of_bind. exists ra. split; [|done].
    apply list_elem_of_bind. exists h. split; [|done].
    apply list_elem_of_bind. exists eo. split; [|done].
    apply list_elem_of_bind. exists inc. split; [|done].
    by apply list_elem_of_singleton.
Qed.

Lemma NoDup_generateAllCombinations (this : system) :
  noDupRanges (parameterRanges this) → NoDup (generateAllCombinations this).
Proof.
  intros (?&?&?&?&?&?&?). unfold generateAllCombinations.
  repeat first
    [ apply NoDup_nil_2
    | apply NoDup_singleton
    | match goal with |- NoDup (if ?b then _ else _) => destruct b end
    | apply NoDup_bind;
      [ intros ?? y _ _ Hy1 Hy2; inv_loops Hy1; inv_loops Hy2; congruence
      | intros ? _
      | done ] ].
Qed.

(** ** The identifier determines the seven values *)

(** What a value looks like inside the identifier: a non-empty run of
    characters other than the separator, after an optional minus sign. *)
Definition token (s : string) : Prop :=
  match s with
  | String "-" s' => dashfree s' ∧ s' ≠ ""
  | _ => dashfree s ∧ s ≠ ""
  end.

Lemma dashfree_split (a b x y : string) :
  dashfree a → dashfree b →
  a +:+ "-" +:+ x = b +:+ "-" +:+ y → a = b ∧ x = y.
Proof.
  revert b. induction a as [|c a IH]; intros [|c' b];
    rewrite ?append_cons, ?append_nil; cbn.
  - intros _ _ [= ->]. done.
  - intros _ [Hc _] [= <- _]. done.
  - intros [Hc _] _ [= -> _]. done.
  - intros [_ Ha] [_ Hb] [= -> H]. destruct (IH b Ha Hb H) as [-> ->]. done.
Qed.

Lemma token_split (a b x y : string) :
  token a → token b →
  a +:+ "-" +:+ x = b +:+ "-" +:+ y → a = b ∧ x = y.
Proof.
  unfold token. intros Ha Hb H.
  destruct a as [|c a]; [by destruct Ha|].
  destruct b as [|c' b]; [by destruct Hb|].
  rewrite !append_cons in H. injection H as -> H.
  destruct (decide (c' = "-"%char)) as [->|Hc].
  - destruct Ha as [Ha _], Hb as [Hb _].
    destruct (dashfree_split a b x y Ha Hb H) as [-> ->]. done.
  - assert (dashfree (String c' a)) as [_ Ha'].
    { revert Ha Hc. clear. destruct c' as [[] [] [] [] [] [] [] []]; tauto. }
    assert (dashfree (String c' b)) as [_ Hb'].
    { revert Hb Hc. clear. destruct c' as [[] [] [] [] [] [] [] []]; tauto. }
    destruct (dashfree_split a b x y Ha' Hb' H) as [-> ->]. done.
Qed.

Lemma pretty_Z_token (z : Z) : token (pretty z).
Proof.
  destruct z as [|p|p]; [by repeat split| |].
  - destruct (pretty_N_dashfree (N.pos p)) as [Hd Hn].
    change (pretty (Z.pos p)) with (pretty (N.pos p)).
    unfold token. destruct (pretty (N.pos p)) as [|c s]; [done|].
    destruct Hd as [Hc Hd].
    destruct c as [[] [] [] [] [] [] [] []]; try done.
  - change (pretty (Z.neg p)) with ("-" +:+ pretty (N.pos p)).
    rewrite append_cons, append_nil. apply pretty_N_dashfree.
Qed.

Lemma show_bool_token (b : bool) : token (show_bool b).
Proof. destruct b; by repeat split. Qed.

#[local] Instance show_bool_inj : Inj (=) (=) show_bool.
Proof. by intros [] [] ?. Qed.

#[global] Instance generateCombinationId_inj :
  Inj (=) (=) generateCombinationId.
Proof.
  intros [a b em ra h eo inc] [a' b' em' ra' h' eo' inc'].
  unfold generateCombinationId; simpl. intros H.
  repeat match type of H with
         | _ +:+ "-" +:+ _ = _ +:+ "-" +:+ _ =>
             let E := fresh "E" in
             apply token_split in H as [E H];
             [| first [apply pretty_Z_token | apply show_bool_token]..]
         end.
  by simplify_eq.
Qed.

(** An identifier is never the name of a member that objects inherit, so
    that [existingResults[combination.id]] only ever finds stored results:
    a finite map is an exact model of that lookup. *)
Lemma dashfree_app_dash (a x : string) : ¬ dashfree (a +:+ "-" +:+ x).
Proof.
  induction a as [|c a IH]; rewrite ?append_cons, ?append_nil; simpl.
  - by intros [? _].
  - intros [_ ?]. by apply IH.
Qed.

Lemma generateCombinationId_not_inherited (p : parameterSet) :
  JS.inherited (generateCombinationId p) = None.
Proof.
  unfold JS.inherited. rewrite bool_decide_eq_false_2; [done|].
  intros Hin.
  assert (Forall dashfree JS.objectPrototype) as Hall.
  { repeat constructor; by vm_compute. }
  apply (proj1 (Forall_forall _ _) Hall) in Hin.
  by apply dashfree_app_dash in Hin.
Qed.

(** ** Size of the space *)

Lemma length_bind_const {A B} (f : A → list B) (l : list A) (n : nat) :
  (∀ x, length (f x) = n) → length (l ≫= f) = (length l * n)%nat.
Proof.
  intros Hf. induction l as [|x l IH]; [done|].
  rewrite bind_cons, length_app, Hf, IH. simpl. lia.
Qed.

Definition tuplesPerAgePair (r : Range.t) : nat :=
  (length (Range.excludeMarried r) * (length (Range.race r) *
   (length (Range.minHeight r) * (length (Range.excludeObese r) *
    length (Range.minIncome r)))))%nat.

Lemma length_generateAllCombinations (this : system) :
  length (generateAllCombinations this) =
  (length (validAges (parameterRanges this)) *
   tuplesPerAgePair (parameterRanges this))%nat.
Proof.
  unfold generateAllCombinations, validAges, tuplesPerAgePair.
  induction (Range.minAge (parameterRanges this)) as [|a la IHa]; [done|].
  rewrite !bind_cons, !length_app, IHa, Nat.mul_add_distr_r. f_equal.
  clear IHa. induction (Range.maxAge (parameterRanges this)) as [|b lb IHb];
    [done|].
  rewrite !bind_cons, !length_app, IHb, Nat.mul_add_distr_r. f_equal.
  destruct (a >=? b); [done|].
  simpl length at 2. rewrite Nat.mul_1_l.
  do 4 (erewrite length_bind_const; [reflexivity|intros ?]).
  rewrite (length_bind_const _ _ 1) by done. lia.
Qed.

(** C6: the space that the constructor's grids span has no combination
    with [minAge >= maxAge], holds every valid tuple of the cartesian
    product exactly once, and its size is the number of valid age pairs
    times the sizes of the five other grids. *)
Theorem generateAllCombinations_space :
  let r := parameterRanges constructor in
  let space := generateAllCombinations constructor in
  Forall (λ c, minAge (params c) < maxAge (params c)) space ∧
  (∀ p, p ∈ params <$> space ↔ inRanges r p ∧ minAge p < maxAge p) ∧
  NoDup (params <$> space) ∧
  ( length (Range.minAge r), length (Range.maxAge r),
    length (Range.excludeMarried r), length (Range.race r),
    length (Range.minHeight r), length (Range.excludeObese r),
    length (Range.minIncome r) ) = (12, 13, 2, 4, 10, 2, 9)%nat ∧
  length space =
    (length (validAges r) *
     (length (Range.excludeMarried r) * (length (Range.race r) *
      (length (Range.minHeight r) * (length (Range.excludeObese r) *
       length (Range.minIncome r))))))%nat ∧
  length (validAges r) = 101%nat ∧
  Z.of_nat (length space) = 145440.
Proof.
  intros r space.
  assert (noDupRanges r) as Hnd.
  { unfold noDupRanges. split_and!; compute_done. }
  split_and!.
  - apply Forall_forall. intros c Hc.
    by apply elem_of_generateAllCombinations in Hc as (_ & _ & ?).
  - intros p. rewrite list_elem_of_fmap. split.
    + intros (c & -> & Hc).
      by apply elem_of_generateAllCombinations in Hc as (_ & ? & ?).
    + intros [Hp Hlt]. exists (combinationOf p). split; [done|].
      by apply elem_of_generateAllCombinations.
  - apply NoDup_fmap_2_strong; [|by apply NoDup_generateAllCombinations].
    intros c1 c2 Hc1 Hc2 Heq.
    apply elem_of_generateAllCombinations in Hc1 as (-> & _).
    apply elem_of_generateAllCombinations in Hc2 as (-> & _).
    by rewrite Heq.
  - reflexivity.
  - apply length_generateAllCombinations.
  - by vm_compute.
  - unfold space. rewrite length_generateAllCombinations. by vm_compute.
Qed.

(** C10: two combinations of the space that differ in one of the seven
    values have different identifiers. *)
Theorem generateCombinationId_distinct (this : system) (c1 c2 : combination) :
  c1 ∈ generateAllCombinations this →
  c2 ∈ generateAllCombinations this →
  params c1 ≠ params c2 →
  id c1 ≠ id c2.
Proof.
  intros H1 H2 Hne Hid. apply Hne.
  apply elem_of_generateAllCombinations in H1 as (E1 & _).
  apply elem_of_generateAllCombinations in H2 as (E2 & _).
  rewrite E1, E2 in Hid. simpl in Hid.
  by apply (inj generateCombinationId).
Qed.

Lemma generateCombinationId_distinct_witness :
  let p1 := {| minAge := 18; maxAge := 22; excludeMarried := true; race := 0;
               minHeight := 0; excludeObese := true; minIncome := 0 |} in
  let p2 := {| minAge := 18; maxAge := 22; excludeMarried := true; race := 0;
               minHeight := 0; excludeObese := true; minIncome := 30000 |} in
  generateCombinationId p1 ≠ generateCombinationId p2.
Proof.
  intros p1 p2.
  apply (generateCombinationId_distinct constructor
           (combinationOf p1) (combinationOf p2)).
  - apply (list_elem_of_lookup_2 _ 0%nat). reflexivity.
  - apply (list_elem_of_lookup_2 _ 1%nat). reflexivity.
  - simpl. discriminate.
Defined.

Lemma NoDup_ids (this : system) :
  noDupRanges (parameterRanges this) →
  NoDup (id <$> generateAllCombinations this).
Proof.
  intros Hnd. apply NoDup_fmap_2_strong;
    [|by apply NoDup_generateAllCombinations].
  intros c1 c2 H1 H2 Hid.
  apply elem_of_generateAllCombinations in H1 as (E1 & _).
  apply elem_of_generateAllCombinations in H2 as (E2 & _).
  rewrite E1, E2 in Hid |- *. simpl in Hid.
  by rewrite (inj generateCombinationId _ _ Hid).
Qed.

End combinations.

(** * Properties of the on-demand path *)
Section server.
Import JS CacheManager Server.

(** Unfolds the monad down to functions on worlds. *)
Ltac run :=
  unfold mbind, mret, M_bind, M_ret, bind, ret, lift, gets, modify, throw,
    try_catch in *;
  simpl in *.

(** A failed write leaves the file alone, reaches [console.error], and is
    not thrown any further. *)
Lemma saveToFile_spec (w : world) :
  saveToFile w =
  (Ok tt,
   if fails w (writes w)
   then log_error "Error saving cache to file:"
          {| cache := cache w; cacheFile := cacheFile w; now := now w;
             console := console w; writes := S (writes w);
             fails := fails w; visits := visits w; site := site w |}
   else {| cache := cache w; cacheFile := Some (cache w); now := now w;
           console := console w; writes := S (writes w); fails := fails w;
           visits := visits w; site := site w |}).
Proof.
  unfold saveToFile, writeFileSync. run. by destruct (fails w (writes w)).
Qed.

Lemma saveToFile_keeps (w : world) :
  ∃ w', saveToFile w = (Ok tt, w') ∧ cache w' = cache w ∧ now w' = now w ∧
        visits w' = visits w ∧ site w' = site w.
Proof.
  rewrite saveToFile_spec. eexists. split; [reflexivity|].
  by destruct (fails w (writes w)).
Qed.

Lemma generateKey_Ok (raw : object) (key : string) :
  generateKey raw = Ok key →
  ∃ n, getNormalizedCriteria raw = Ok n ∧ key = fingerprint n.
Proof.
  unfold generateKey. destruct (getNormalizedCriteria raw) as [n|]; [|done].
  intros [= <-]. by exists n.
Qed.

Definition hit (key : string) (e : cacheEntry) : envelope :=
  {| Envelope.payload := data e; Envelope.fromCache := true;
     Envelope.cacheKey := key; Envelope.cachedAt := Some (timestamp e);
     Envelope.accessCount := Some (accessCount e) |}.

Lemma get_spec (raw : object) (key : string) (w : world) :
  generateKey raw = Ok key →
  Server.get raw w = (Ok (hit key <$> cache w !! key), w).
Proof.
  intros Hk. unfold Server.get. run. rewrite Hk.
  by destruct (cache w !! key).
Qed.

Lemma set_spec (raw scraped : object) (key : string) (w : world) :
  generateKey raw = Ok key →
  ∃ n w', getNormalizedCriteria raw = Ok n ∧
    Server.set raw scraped w = (Ok key, w') ∧
    cache w' = <[key := {| criteria := n; data := scraped;
                           timestamp := now w; accessCount := 1;
                           lastAccessed := None |}]> (cache w) ∧
    now w' = now w ∧ visits w' = visits w ∧ site w' = site w.
Proof.
  intros Hk. destruct (generateKey_Ok raw key Hk) as (n & Hn & _).
  unfold Server.set. run. rewrite Hk, Hn.
  match goal with |- context [saveToFile ?w0] =>
    destruct (saveToFile_keeps w0) as (w' & -> & ? & ? & ? & ?) end.
  by exists n, w'.
Qed.

Lemma updateAccess_spec (raw : object) (key : string) (e : cacheEntry)
    (w : world) :
  generateKey raw = Ok key →
  cache w !! key = Some e →
  ∃ w', updateAccess raw w = (Ok tt, w') ∧
    cache w' =
      <[key := {| criteria := criteria e; data := data e;
                  timestamp := timestamp e;
                  accessCount :=
                    (if accessCount e =? 0 then 1 else accessCount e) + 1;
                  lastAccessed := Some (now w) |}]> (cache w) ∧
    now w' = now w ∧ visits w' = visits w ∧ site w' = site w.
Proof.
  intros Hk He. unfold updateAccess. run. rewrite Hk, He.
  match goal with |- context [saveToFile ?w0] =>
    destruct (saveToFile_keeps w0) as (w' & -> & ? & ? & ? & ?) end.
  by exists w'.
Qed.

Lemma getResults_miss (raw scraped : object) (key : string) (w : world) :
  generateKey raw = Ok key →
  cache w !! key = None →
  site w (visits w) raw = Ok scraped →
  ∃ n w', getNormalizedCriteria raw = Ok n ∧
    getResults raw w =
      (Ok {| Envelope.payload := scraped; Envelope.fromCache := false;
             Envelope.cacheKey := key; Envelope.cachedAt := None;
             Envelope.accessCount := None |}, w') ∧
    cache w' = <[key := {| criteria := n; data := scraped;
                           timestamp := now w; accessCount := 1;
                           lastAccessed := None |}]> (cache w) ∧
    now w' = now w ∧ visits w' = S (visits w).
Proof.
  intros Hk Hmiss Hsite.
  unfold getResults. unfold mbind at 1, M_bind, bind.
  rewrite (get_spec raw key w Hk), Hmiss. simpl.
  unfold mbind at 1, M_bind, bind, scrapeResults. rewrite Hsite.
  unfold mbind at 1, M_bind, bind.
  match goal with |- context [Server.set raw scraped ?w0] =>
    destruct (set_spec raw scraped key w0 Hk)
      as (n & w1 & Hn & -> & Hc1 & Ht1 & Hv1 & Hs1) end.
  by exists n, w1.
Qed.

Lemma getResults_hit (raw : object) (key : string) (e : cacheEntry)
    (w : world) :
  generateKey raw = Ok key →
  cache w !! key = Some e →
  ∃ w', getResults raw w = (Ok (hit key e), w') ∧
    cache w' =
      <[key := {| criteria := criteria e; data := data e;
                  timestamp := timestamp e;
                  accessCount :=
                    (if accessCount e =? 0 then 1 else accessCount e) + 1;
                  lastAccessed := Some (now w) |}]> (cache w) ∧
    now w' = now w ∧ visits w' = visits w.
Proof.
  intros Hk He.
  unfold getResults. unfold mbind at 1, M_bind, bind.
  rewrite (get_spec raw key w Hk), He. simpl.
  unfold mbind at 1, M_bind, bind.
  destruct (updateAccess_spec raw key e w Hk He)
    as (w2 & -> & Hc2 & ? & Hv2 & _).
  by exists w2.
Qed.

(** C8, as amended: the first request is a miss that stores an entry with
    [accessCount = 1]; the identical second request is served from the
    cache with [fromCache = true] and the [accessCount = 1] that [get]
    read before [updateAccess] ran, and it leaves 2 in the stored entry
    without scraping again. *)
Theorem getResults_twice (raw scraped : object) (key : string) (w : world) :
  generateKey raw = Ok key →
  cache w !! key = None →
  site w (visits w) raw = Ok scraped →
  ∃ w1 w2 e1 e2,
    getResults raw w =
      (Ok {| Envelope.payload := scraped; Envelope.fromCache := false;
             Envelope.cacheKey := key; Envelope.cachedAt := None;
             Envelope.accessCount := None |}, w1) ∧
    cache w1 !! key = Some e1 ∧ accessCount e1 = 1 ∧
    getResults raw w1 =
      (Ok {| Envelope.payload := scraped; Envelope.fromCache := true;
             Envelope.cacheKey := key; Envelope.cachedAt := Some (now w);
             Envelope.accessCount := Some 1 |}, w2) ∧
    cache w2 !! key = Some e2 ∧ accessCount e2 = 2 ∧
    visits w2 = visits w1.
Proof.
  intros Hk Hmiss Hsite.
  destruct (getResults_miss raw scraped key w Hk Hmiss Hsite)
    as (n & w1 & _ & Hr1 & Hc1 & _ & _).
  set (e1 := {| criteria := n; data := scraped; timestamp := now w;
                accessCount := 1; lastAccessed := None |}) in *.
  assert (cache w1 !! key = Some e1) as He1
    by (rewrite Hc1; apply lookup_insert_eq).
  destruct (getResults_hit raw key e1 w1 Hk He1)
    as (w2 & Hr2 & Hc2 & _ & Hv2).
  exists w1, w2, e1,
    {| criteria := n; data := scraped; timestamp := now w;
       accessCount := 2; lastAccessed := Some (now w1) |}.
  split_and!; try done.
  rewrite Hc2. apply lookup_insert_eq.
Qed.

End server.

(** * Properties of the harvester *)
Section harvester.
Import JS DataCachingSystem.

Ltac run :=
  unfold mbind, mret, M_bind, M_ret, bind, ret, lift, gets, modify, throw,
    try_catch in *;
  simpl in *.

(** ** What one fetch with retries may touch *)

(** The events of a fetch for the combination [k]: attempts for [k], waits
    and at most a write of the error log. *)
Definition fetchEvent (k : string) (e : event) : Prop :=
  match e with
  | Attempt k' _ => k' = k
  | Sleep _ | SavedErrors _ => True
  | SavedProgress _ | SavedResults _ => False
  end.

Record fetchFrame (k : string) (w w' : world) : Prop := {
  frame_vars : vars w' = vars w;
  frame_fails : fails w' = fails w;
  frame_page : page w' = page w;
  frame_progress : progress_json (files w') = progress_json (files w);
  frame_results : results_json (files w') = results_json (files w);
  frame_trace : ∃ t, trace w' = trace w ++ t ∧ Forall (fetchEvent k) t
}.

Lemma fetchFrame_refl k w : fetchFrame k w w.
Proof. split; try done. exists []. by rewrite app_nil_r. Qed.

Lemma fetchFrame_trans k w1 w2 w3 :
  fetchFrame k w1 w2 → fetchFrame k w2 w3 → fetchFrame k w1 w3.
Proof.
  intros [? ? ? ? ? (t1 & Ht1 & ?)] [? ? ? ? ? (t2 & Ht2 & ?)].
  split; try congruence.
  exists (t1 ++ t2). split; [|by apply Forall_app].
  by rewrite Ht2, Ht1, (assoc_L (++)).
Qed.

Lemma fetchFrame_emit k e w : fetchEvent k e → fetchFrame k w (emit e w).
Proof. intros He. split; try done. exists [e]. split; [done|]. by constructor. Qed.

Lemma attemptOnce_frame (c : combination) (attempt : nat) (w : world) :
  fetchFrame (id c) w (attemptOnce c attempt w).2.
Proof.
  unfold attemptOnce, visit. run.
  destruct (page w (visits w) c) as [results|e]; simpl;
    [destruct (noValidResults results); simpl|];
    (split; try done; exists [Attempt (id c) attempt];
     split; [done|by constructor]).
Qed.

Lemma logError_frame (c : combination) (e : exn) (w : world) :
  ∃ w', logError c e w = (Ok tt, w') ∧ fetchFrame (id c) w w'.
Proof.
  unfold logError, loadErrors, writeFile. run.
  destruct (fails w errorLogFile (writes w)); eexists; (split; [done|]).
  - split; try done. exists []. by rewrite app_nil_r.
  - split; try done. eexists [_]. split; [done|]. by constructor.
Qed.

Lemma scrapeWithRetry_frame (this : system) (c : combination) (attempt : nat)
    (w : world) :
  fetchFrame (id c) w (scrapeWithRetry this c attempt w).2.
Proof.
  funelim (scrapeWithRetry this c attempt w).
  - pose proof (attemptOnce_frame c attempt w) as H. by rewrite Heq in H.
  - pose proof (attemptOnce_frame c attempt w) as H0. rewrite Heq0 in H0.
    eapply fetchFrame_trans; [exact H0|]. simpl.
    eapply fetchFrame_trans; [|apply (H (Ok tt))].
    unfold advance. split; try done. exists [Sleep 5000].
    split; [done|by constructor].
  - pose proof (attemptOnce_frame c attempt w) as H0. rewrite Heq0 in H0.
    eapply fetchFrame_trans; [exact H0|].
    destruct (logError_frame c error w1) as (w2 & Hw2 & ?).
    run. by rewrite Hw2.
Qed.

(** ** An extractor that always fails *)

(** Every visit of the page for [c] throws or yields an object without any
    of the three result fields. *)
Definition failing (w : world) (c : combination) : Prop :=
  ∀ n, match page w n c with
       | Throw _ => True
       | Ok results => noValidResults results = true
       end.

(** The error that an attempt ends with. *)
Definition attemptError (r : res object) : exn :=
  match r with
  | Throw e => e
  | Ok _ => Error "No valid results found on page"
  end.

(** The events of the attempts [attempt], ..., [attempt + d], with the wait
    between two of them. *)
Fixpoint retries (k : string) (attempt d : nat) : list event :=
  match d with
  | O => [Attempt k attempt]
  | S d' => Attempt k attempt :: Sleep 5000 :: retries k (S attempt) d'
  end.

(** The world after these attempts have failed. *)
Definition afterAttempts (k : string) (attempt d : nat) (w : world) : world :=
  {| files := files w; vars := vars w;
     now := now w + 5000 * Z.of_nat d;
     trace := trace w ++ retries k attempt d;
     writes := writes w; fails := fails w;
     visits := visits w + S d; page := page w |}.

Lemma attemptOnce_failing (c : combination) (attempt : nat) (w : world) :
  failing w c →
  attemptOnce c attempt w =
  (Throw (attemptError (page w (visits w) c)),
   afterAttempts (id c) attempt 0 w).
Proof.
  intros Hf. specialize (Hf (visits w)).
  unfold attemptOnce, visit, afterAttempts. run.
  destruct (page w (visits w) c) as [results|e]; simpl.
  - rewrite Hf. simpl. unfold count_visit, emit. simpl.
    do 2 f_equal; lia.
  - unfold count_visit, emit. simpl. do 2 f_equal; lia.
Qed.

Lemma scrapeWithRetry_failing (this : system) (c : combination) (d : nat) :
  ∀ (attempt : nat) (w : world),
  failing w c →
  (attempt + d = retryAttempts this)%nat →
  scrapeWithRetry this c attempt w =
  (let error := attemptError (page w (visits w + d)%nat c) in
   logError c error;; throw error) (afterAttempts (id c) attempt d w).
Proof.
  induction d as [|d IH]; intros attempt w Hf Hd; simp scrapeWithRetry;
    rewrite (attemptOnce_failing c attempt w Hf); simpl;
    destruct (lt_dec attempt (retryAttempts this)) as [Hlt|Hge]; try lia;
    simpl.
  - by rewrite Nat.add_0_r.
  - rewrite IH; [|done|lia]. simpl.
    replace (visits w + 1 + d)%nat with (visits w + S d)%nat by lia.
    unfold afterAttempts. simpl. f_equal.
    f_equal; [lia| |lia].
    by rewrite <-!(assoc_L (++)), Nat.add_1_r.
Qed.

(** The attempts that a trace records, in order. *)
Definition attemptsOf (t : list event) : list (string * nat) :=
  omap (λ e, match e with Attempt k n => Some (k, n) | _ => None end) t.

Lemma attemptsOf_retries (k : string) (attempt d : nat) :
  attemptsOf (retries k attempt d) = (λ n, (k, n)) <$> seq attempt (S d).
Proof.
  revert attempt. induction d as [|d IH]; intros attempt; [done|].
  change (attemptsOf (retries k attempt (S d)))
    with ((k, attempt) :: attemptsOf (retries k (S attempt) d)).
  by rewrite IH.
Qed.

(** C5: against an extractor that fails every time, the fetch visits the
    page exactly [retryAttempts] times, then appends one record to the
    error log and throws, and the results are left alone. *)
Theorem scrapeWithRetry_exhausted (this : system) (c : combination)
    (w : world) :
  (1 ≤ retryAttempts this)%nat →
  failing w c →
  fails w errorLogFile (writes w) = false →
  ∃ error w' t,
    scrapeWithRetry this c 1 w = (Throw error, w') ∧
    trace w' = trace w ++ t ∧
    attemptsOf t = (λ n, (id c, n)) <$> seq 1 (retryAttempts this) ∧
    visits w' = (visits w + retryAttempts this)%nat ∧
    errors_json (files w') =
      Some (default [] (errors_json (files w)) ++
            [ {| ErrorRecord.timestamp := now w';
                 ErrorRecord.combination := c;
                 ErrorRecord.error := message error |} ]) ∧
    results_json (files w') = results_json (files w) ∧
    vars w' = vars w.
Proof.
  intros Hpos Hf Hw.
  rewrite (scrapeWithRetry_failing this c (retryAttempts this - 1) 1 w Hf)
    by lia.
  unfold logError, loadErrors, writeFile. run. rewrite Hw. simpl.
  eexists _, _, _. split; [reflexivity|]. simpl.
  split_and!; try done.
  - by rewrite <-(assoc_L (++)).
  - unfold attemptsOf. rewrite omap_app. simpl. rewrite (right_id_L [] (++)).
    fold (attemptsOf (retries (id c) 1 (retryAttempts this - 1))).
    rewrite attemptsOf_retries. do 2 f_equal. lia.
  - lia.
Qed.

(** ** One item of a batch *)

(** The [try] statement of the loop body. *)
Definition fetchAndStore (this : system) (c : combination) : M world unit :=
  try_catch
    (result ← scrapeWithRetry this c 1;
     modify (set_vars (store (id c) result));;
     modify (set_vars count_success);;
     results ← gets (λ w, existingResults (vars w));
     saveResults results)
    (λ error, modify (set_vars count_error)).

(** What follows it: the count, the checkpoint and the wait. *)
Definition checkpointAndWait (this : system) (total : nat)
    (started : option Z) (i size pos : nat) : M world unit :=
  modify (set_vars count_processed);;
  v ← gets vars;
  t ← gets now;
  saveProgress {| totalCombinations := total;
                  processed := processedCount v;
                  currentIndex := i + pos + 1;
                  startTime := started;
                  lastProcessedAt := Some t;
                  errors := errorCount v;
                  successes := successCount v |};;
  if bool_decide (pos ≠ (size - 1)%nat)
  then sleep (delayBetweenRequests this)
  else mret tt.

Lemma processItem_cached this total started i size pos c r w :
  existingResults (vars w) !! id c = Some r →
  processItem this total started i size pos c w =
  (Ok tt, set_vars count_skipped w).
Proof. intros H. unfold processItem. run. by rewrite H. Qed.

Lemma processItem_uncached this total started i size pos c w :
  existingResults (vars w) !! id c = None →
  processItem this total started i size pos c w =
  (fetchAndStore this c;; checkpointAndWait this total started i size pos) w.
Proof. intros H. unfold processItem. run. by rewrite H. Qed.

(** The events of the [try] statement for the combination [k]: as for a
    fetch, and a write of the results. *)
Definition storeEvent (k : string) (e : event) : Prop :=
  match e with
  | Attempt k' _ => k' = k
  | SavedProgress _ => False
  | Sleep _ | SavedErrors _ | SavedResults _ => True
  end.

Lemma fetchEvent_storeEvent k e : fetchEvent k e → storeEvent k e.
Proof. by destruct e. Qed.

Record storeFrame (k : string) (w w' : world) : Prop := {
  store_fails : fails w' = fails w;
  store_page : page w' = page w;
  store_progress : progress_json (files w') = progress_json (files w);
  store_existing : existingResults (vars w) ⊆ existingResults (vars w');
  store_others : ∀ k', k' ≠ k →
    existingResults (vars w') !! k' = existingResults (vars w) !! k';
  store_processed : processedCount (vars w') = processedCount (vars w);
  store_trace : ∃ t, trace w' = trace w ++ t ∧ Forall (storeEvent k) t
}.

Lemma fetchAndStore_frame this c w :
  existingResults (vars w) !! id c = None →
  ∃ w', fetchAndStore this c w = (Ok tt, w') ∧ storeFrame (id c) w w'.
Proof.
  intros Hnew. unfold fetchAndStore, saveResults, writeFile. run.
  pose proof (scrapeWithRetry_frame this c 1 w) as Hframe.
  destruct (scrapeWithRetry this c 1 w) as [[result|error] w1]; simpl in *;
    destruct Hframe as [Hv Hf Hp Hpr Hre (t & Ht & HF)].
  - assert (existingResults (vars w)
              ⊆ <[id c := result]> (existingResults (vars w1))) as Hsub.
    { rewrite Hv. by apply insert_subseteq. }
    destruct (fails w1 resultsFile (writes w1)); simpl;
      eexists; (split; [reflexivity|]); split; simpl; try done;
      try (by rewrite Hv);
      try (by intros k' Hk'; rewrite lookup_insert_ne, Hv by done).
    + exists t. split; [done|].
      eapply Forall_impl; [done|]. apply fetchEvent_storeEvent.
    + eexists (t ++ [_]). rewrite Ht, (assoc_L (++)). split; [done|].
      apply Forall_app. split; [|by repeat constructor].
      eapply Forall_impl; [done|]. apply fetchEvent_storeEvent.
  - eexists. split; [reflexivity|]. split; simpl; try done;
      try by rewrite Hv.
    exists t. split; [done|].
    eapply Forall_impl; [done|]. apply fetchEvent_storeEvent.
Qed.

(** The checkpoint that the loop body writes in the world [w], in which
    the item has been fetched but not yet counted. *)
Definition checkpointOf (total : nat) (started : option Z) (i pos : nat)
    (w : world) : progress :=
  {| totalCombinations := total;
     processed := S (processedCount (vars w));
     currentIndex := i + pos + 1;
     startTime := started;
     lastProcessedAt := Some (now w);
     errors := errorCount (vars w);
     successes := successCount (vars w) |}.

Definition wait (this : system) (size pos : nat) (w : world) : world :=
  if bool_decide (pos ≠ (size - 1)%nat)
  then emit (Sleep (delayBetweenRequests this))
         (advance (delayBetweenRequests this) w)
  else w.

Lemma checkpointAndWait_spec this total started i size pos w :
  checkpointAndWait this total started i size pos w =
  let p := checkpointOf total started i pos w in
  let w1 := count_write (set_vars count_processed w) in
  if fails w progressFile (writes w)
  then (Throw (IOError "progress.json"), w1)
  else (Ok tt,
        wait this size pos
          (emit (SavedProgress p) (set_files (with_progress p) w1))).
Proof.
  unfold checkpointAndWait, saveProgress, writeFile, wait, sleep. run.
  destruct (fails w progressFile (writes w)); [done|].
  by case_bool_decide.
Qed.

Lemma processItem_uncached_spec this total started i size pos c w :
  existingResults (vars w) !! id c = None →
  ∃ w1, fetchAndStore this c w = (Ok tt, w1) ∧
    storeFrame (id c) w w1 ∧
    processItem this total started i size pos c w =
    checkpointAndWait this total started i size pos w1.
Proof.
  intros Hnew. rewrite processItem_uncached by done.
  destruct (fetchAndStore_frame this c w Hnew) as (w1 & Hw1 & Hframe).
  exists w1. split_and!; [done..|].
  unfold mbind at 1, M_bind, bind. by rewrite Hw1.
Qed.

(** ** Invariants of the two loops *)

Lemma slice_lookup (combinations : list combination) (i n k : nat)
    (c : combination) :
  slice combinations i n !! k = Some c → combinations !! (i + k)%nat = Some c.
Proof.
  unfold slice. intros H. apply lookup_take_Some in H as [H _].
  by rewrite lookup_drop in H.
Qed.

Lemma length_slice (combinations : list combination) (i n : nat) :
  (i < length combinations)%nat →
  (i + length (slice combinations i n))%nat
  = Nat.min (i + n) (length combinations).
Proof. intros Hi. unfold slice. rewrite length_take, length_drop. lia. Qed.

Section loops.
Context (this : system) (combinations : list combination).
Context (started : option Z).

(** [I j w] is to hold in the world [w] in which item [j] is about to be
    processed, [T e w] in the world in which the run has thrown [e]. *)
Context (I : nat → world → Prop) (T : exn → world → Prop).

Hypothesis I_sleep : ∀ j ms w, I j w → I j (emit (Sleep ms) (advance ms w)).

Hypothesis I_item : ∀ i size pos c w,
  combinations !! (i + pos)%nat = Some c →
  I (i + pos)%nat w →
  match processItem this (length combinations) started i size pos c w with
  | (Ok _, w') => I (S (i + pos)) w'
  | (Throw e, w') => T e w'
  end.

Lemma forEach_inv (i size : nat) (batch : list combination) :
  ∀ (pos : nat) (w : world),
  (∀ k c, batch !! k = Some c →
          combinations !! (i + pos + k)%nat = Some c) →
  I (i + pos)%nat w →
  match forEach this (length combinations) started i size pos batch w with
  | (Ok _, w') => I (i + pos + length batch)%nat w'
  | (Throw e, w') => T e w'
  end.
Proof.
  induction batch as [|c batch IH]; intros pos w Hb HI; simpl.
  - run. by rewrite Nat.add_0_r.
  - unfold mbind, M_bind, bind.
    pose proof (I_item i size pos c w) as Hitem.
    rewrite <-(Nat.add_0_r (i + pos)) in Hitem at 1.
    specialize (Hitem (Hb 0%nat c eq_refl) HI).
    destruct (processItem _ _ _ _ _ _ _ _) as [[[]|e] w1]; [|done].
    specialize (IH (S pos) w1).
    replace (i + pos + S (length batch))%nat
      with (i + S pos + length batch)%nat by lia.
    apply IH.
    + intros k c' Hk. specialize (Hb (S k) c' Hk).
      by replace (i + S pos + k)%nat with (i + pos + S k)%nat by lia.
    + by replace (i + S pos)%nat with (S (i + pos)) by lia.
Qed.

Lemma oneBatch_inv (i : nat) (w : world) :
  (i < length combinations)%nat →
  I i w →
  match oneBatch this combinations started i w with
  | (Ok _, w') =>
      I (Nat.min (i + Pos.to_nat (batchSize this)) (length combinations)) w'
  | (Throw e, w') => T e w'
  end.
Proof.
  intros Hi HI. unfold oneBatch. unfold mbind at 1, M_bind, bind.
  pose proof (forEach_inv i
    (length (slice combinations i (Pos.to_nat (batchSize this))))
    (slice combinations i (Pos.to_nat (batchSize this))) 0%nat w) as H.
  rewrite !Nat.add_0_r in H.
  specialize (H (λ k c Hk, slice_lookup _ _ _ _ _ Hk) HI).
  destruct (forEach _ _ _ _ _ _ _ _) as [[[]|e] w1]; [|done].
  rewrite length_slice in H by done.
  destruct (_ <? _)%nat; [|done]. by apply I_sleep.
Qed.

Lemma forBatches_inv (i : nat) (w : world) :
  (i ≤ length combinations)%nat →
  I i w →
  match forBatches this combinations started i w with
  | (Ok _, w') => I (length combinations) w'
  | (Throw e, w') => T e w'
  end.
Proof.
  funelim (forBatches this combinations started i w); intros Hi HI.
  - by replace (length combinations) with i by lia.
  - pose proof (oneBatch_inv i w l HI) as H1. rewrite Heq in H1.
    destruct (decide (i + Pos.to_nat (batchSize this)
                      < length combinations)%nat) as [Hlt|Hge].
    + rewrite Nat.min_l in H1 by lia. apply H; [lia|done].
    + rewrite Nat.min_r in H1 by lia.
      simp forBatches.
      destruct (lt_dec (i + Pos.to_nat (batchSize this))
                       (length combinations)) as [?|?]; [lia|]. done.
  - pose proof (oneBatch_inv i w l HI) as H1. by rewrite Heq in H1.
Qed.

End loops.

Lemma forBatches_done this combinations started i w :
  (length combinations ≤ i)%nat →
  forBatches this combinations started i w = (Ok tt, w).
Proof.
  intros Hi. simp forBatches.
  destruct (lt_dec i (length combinations)); [lia|done].
Qed.

(** ** Nothing cached is fetched *)







(** ** The whole run *)

Lemma try_catch_rethrow {A} (m : M world A) (w : world) :
  try_catch m (λ error, throw error) w = m w.
Proof. unfold try_catch, throw. by destruct (m w) as [[a|e] w']. Qed.

Definition quiet (e : event) : Prop :=
  match e with Attempt _ _ => False | _ => True end.

Lemma initialize_spec (w : world) :
  ∃ r w1, initialize w = (r, w1) ∧
    vars w1 = vars w ∧ fails w1 = fails w ∧ page w1 = page w ∧
    default ∅ (results_json (files w1)) = default ∅ (results_json (files w)) ∧
    ∃ t, trace w1 = trace w ++ t ∧ Forall quiet t.
Proof.
  unfold initialize. rewrite try_catch_rethrow.
  unfold saveProgress, writeFile. run.
  destruct w as [[[p|] [r|] [e|]] v n t wr f vi pg]; simpl;
    repeat match goal with
           | |- context [if ?b then _ else _] => destruct b; simpl
           end;
    eexists _, _; (split; [reflexivity|]); simpl; split_and!; try done;
    first [ by exists []; rewrite app_nil_r
          | by eexists [_]; split; [done|repeat constructor]
          | by eexists [_; _]; rewrite <-!(assoc_L (++));
               split; [done|repeat constructor]
          | by eexists [_; _; _]; rewrite <-!(assoc_L (++));
               split; [done|repeat constructor] ].
Qed.

Lemma initialize_ready (w : world) p r e :
  files w = {| progress_json := Some p; results_json := Some r;
               errors_json := Some e |} →
  initialize w = (Ok tt, w).
Proof.
  intros Hf. unfold initialize. rewrite try_catch_rethrow. run.
  rewrite Hf. simpl. rewrite Hf. simpl. by rewrite Hf.
Qed.

(** The run proper, once the files are there: the loop starts at the
    [currentIndex] of the progress file, with its counters. *)
Definition resumed (this : system) (p : progress)
    (existing : gmap string result) (w : world) : res unit * world :=
  forBatches this (generateAllCombinations this)
    (if (currentIndex p =? 0)%nat then Some (now w) else startTime p)
    (currentIndex p)
    (set_vars (resume p existing) w).

Lemma startCaching_after_initialize (this : system) (w : world) :
  startCaching this w =
  match initialize w with
  | (Ok _, w1) =>
      match progress_json (files w1) with
      | Some p => resumed this p (default ∅ (results_json (files w1))) w1
      | None => (Throw (TypeError "Cannot set properties of null"), w1)
      end
  | (Throw e, w1) => (Throw e, w1)
  end.
Proof.
  unfold startCaching, loadProgress, loadResults, resumed.
  unfold mbind at 1, M_bind, bind.
  destruct (initialize w) as [[[]|e] w1]; [|done].
  unfold mbind, M_bind, bind, gets, modify. simpl.
  destruct (progress_json (files w1)) as [p|]; [|done].
  by rewrite try_catch_rethrow.
Qed.


(** ** Where the checkpoints are *)

(** The checkpoints that a trace records as written, in order. *)
Definition savedProgress (t : list event) : list progress :=
  omap (λ e, match e with SavedProgress p => Some p | _ => None end) t.

(** Whether item [j] is absent from the map [E]. *)
Definition fetchedAt (E : gmap string result)
    (combinations : list combination) (j : nat) : bool :=
  match combinations !! j with
  | Some c => bool_decide (E !! id c = None)
  | None => false
  end.

(** For the items from [i] up to [j] that [E] does not hold, the index
    that follows each of them. *)
Definition expectedCheckpoints (E : gmap string result)
    (combinations : list combination) (i j : nat) : list nat :=
  S <$> filter (λ x, fetchedAt E combinations x) (seq i (j - i)).

Lemma expectedCheckpoints_step E combinations i j :
  (i ≤ j)%nat →
  expectedCheckpoints E combinations i (S j) =
  expectedCheckpoints E combinations i j ++
  (if fetchedAt E combinations j then [S j] else []).
Proof.
  intros Hij. unfold expectedCheckpoints.
  replace (S j - i)%nat with (S (j - i)) by lia.
  rewrite seq_S, filter_app, fmap_app. f_equal.
  replace (i + (j - i))%nat with j by lia.
  rewrite filter_cons, filter_nil.
  destruct (fetchedAt E combinations j); by case_decide.
Qed.

Lemma savedProgress_app t1 t2 :
  savedProgress (t1 ++ t2) = savedProgress t1 ++ savedProgress t2.
Proof. apply omap_app. Qed.

Lemma savedProgress_storeEvent k t :
  Forall (storeEvent k) t → savedProgress t = [].
Proof.
  induction 1 as [|e t He _ IH]; [done|].
  destruct e; simpl in *; try done.
Qed.

Lemma wait_spec this size pos w :
  vars (wait this size pos w) = vars w ∧
  fails (wait this size pos w) = fails w ∧
  files (wait this size pos w) = files w ∧
  ∃ t, trace (wait this size pos w) = trace w ++ t ∧ savedProgress t = [].
Proof.
  unfold wait. case_bool_decide; simpl; split_and!; try done.
  - by eexists [_].
  - exists []. by rewrite app_nil_r.
Qed.

Section checkpoints.
Context (this : system) (combinations : list combination).
Context (started : option Z) (i : nat) (w : world).
Hypothesis ids_distinct : NoDup (id <$> combinations).
Hypothesis progress_writable : ∀ n, fails w progressFile n = false.

(** What holds when item [j] is about to be processed. *)
Definition checked (j : nat) (w1 : world) : Prop :=
  (i ≤ j)%nat ∧
  fails w1 = fails w ∧
  processedCount (vars w1) = (processedCount (vars w) + (j - i))%nat ∧
  existingResults (vars w) ⊆ existingResults (vars w1) ∧
  (∀ k, is_Some (existingResults (vars w1) !! k) →
        is_Some (existingResults (vars w) !! k) ∨
        ∃ j' c', (i ≤ j' < j)%nat ∧ combinations !! j' = Some c' ∧
                 id c' = k) ∧
  ∃ t, trace w1 = trace w ++ t ∧
       currentIndex <$> savedProgress t =
         expectedCheckpoints (existingResults (vars w)) combinations i j ∧
       Forall (λ p, processed p =
                    (processedCount (vars w) + (currentIndex p - i))%nat)
              (savedProgress t).

Lemma checked_sleep j ms w1 :
  checked j w1 → checked j (emit (Sleep ms) (advance ms w1)).
Proof.
  intros (?&?&?&?&?& t & Ht & ? & ?). split_and!; try done.
  exists (t ++ [Sleep ms]). simpl. rewrite Ht, (assoc_L (++)).
  rewrite savedProgress_app. simpl. by rewrite app_nil_r.
Qed.

Lemma checked_item i0 size pos c w1 :
  combinations !! (i0 + pos)%nat = Some c →
  checked (i0 + pos) w1 →
  match processItem this (length combinations) started i0 size pos c w1 with
  | (Ok _, w') => checked (S (i0 + pos)) w'
  | (Throw e, w') => False
  end.
Proof.
  intros Hc (Hij & Hf & HP & Hsub & Hdom & t & Ht & Hcp & Hpr).
  destruct (existingResults (vars w1) !! id c) as [r|] eqn:Hex.
  - rewrite (processItem_cached _ _ _ _ _ _ _ r) by done.
    assert (fetchedAt (existingResults (vars w)) combinations (i0 + pos)
            = false) as Hno.
    { unfold fetchedAt. rewrite Hc. apply bool_decide_eq_false_2.
      destruct (Hdom (id c)) as [[r0 Hr0]|(j' & c' & Hj' & Hc' & Hid)];
        [by eexists|congruence|].
      assert (j' = (i0 + pos)%nat); [|lia].
      eapply (NoDup_lookup _ _ _ _ ids_distinct);
        rewrite list_lookup_fmap; [rewrite Hc'|rewrite Hc]; simpl;
        by rewrite ?Hid. }
    split_and!; simpl; try done; try lia.
    + intros k Hk. destruct (Hdom k Hk) as [?|(j' & c' & ? & ? & ?)];
        [by left|right]. exists j', c'. split_and!; try done; lia.
    + exists t. split; [done|].
      rewrite expectedCheckpoints_step, Hno, app_nil_r by done. done.
  - destruct (processItem_uncached_spec this (length combinations) started
                i0 size pos c w1 Hex)
      as (w2 & _ & [Hf2 _ _ Hsub2 Hoth2 HP2 (t2 & Ht2 & HF2)] & ->).
    rewrite checkpointAndWait_spec. simpl.
    rewrite Hf2, Hf, progress_writable.
    match goal with |- context [wait this size pos ?w0] =>
      destruct (wait_spec this size pos w0) as (Hv3 & Hf3 & _ & t3 & Ht3 & Hs3)
    end.
    assert (fetchedAt (existingResults (vars w)) combinations (i0 + pos)
            = true) as Hyes.
    { unfold fetchedAt. rewrite Hc. apply bool_decide_eq_true_2.
      by eapply lookup_weaken_None. }
    split_and!; try lia.
    + rewrite Hf3. simpl. congruence.
    + rewrite Hv3. simpl. rewrite HP2, HP. lia.
    + rewrite Hv3. simpl. by etrans.
    + rewrite Hv3. simpl. intros k Hk.
      destruct (decide (k = id c)) as [->|Hne].
      * right. exists (i0 + pos)%nat, c. split_and!; try done; lia.
      * rewrite Hoth2 in Hk by done.
        destruct (Hdom k Hk) as [?|(j' & c' & ? & ? & ?)]; [by left|right].
        exists j', c'. split_and!; try done; lia.
    + eexists (t ++ t2 ++ [_] ++ t3). split.
      { rewrite Ht3. simpl. rewrite Ht2, Ht. by rewrite <-!(assoc_L (++)). }
      rewrite !savedProgress_app, (savedProgress_storeEvent _ _ HF2), Hs3.
      simpl. split.
      * rewrite fmap_app, Hcp, expectedCheckpoints_step, Hyes by done.
        simpl. do 2 f_equal. lia.
      * apply Forall_app. split; [done|]. constructor; [|done]. simpl.
        rewrite HP2, HP. lia.
Qed.

Lemma forBatches_checkpoints :
  ∃ w' t,
    forBatches this combinations started i w = (Ok tt, w') ∧
    trace w' = trace w ++ t ∧
    currentIndex <$> savedProgress t =
      expectedCheckpoints (existingResults (vars w)) combinations
        i (length combinations) ∧
    Forall (λ p, processed p =
                 (processedCount (vars w) + (currentIndex p - i))%nat)
           (savedProgress t).
Proof.
  destruct (decide (i ≤ length combinations)%nat) as [Hi|Hi]; cycle 1.
  { exists w, []. rewrite forBatches_done, app_nil_r by lia.
    unfold expectedCheckpoints.
    replace (length combinations - i)%nat with 0%nat by lia. by split_and!. }
  pose proof (forBatches_inv this combinations started checked
                (λ _ _, False) checked_sleep checked_item i w Hi) as H.
  destruct (forBatches this combinations started i w) as [[[]|e] w'].
  - destruct H as (_ & _ & _ & _ & _ & t & Ht & Hcp & Hpr).
    + split_and!; try done; try lia.
      * intros k Hk. by left.
      * exists []. rewrite app_nil_r. split; [done|].
        unfold expectedCheckpoints. rewrite Nat.sub_diag. by split.
    + by exists w', t.
  - destruct H. split_and!; try done; try lia.
    + intros k Hk. by left.
    + exists []. rewrite app_nil_r. split; [done|].
      unfold expectedCheckpoints. rewrite Nat.sub_diag. by split.
Qed.

End checkpoints.

(** ** At most one item in flight *)

(** The number of items whose fetch has begun since the last checkpoint
    was written, after the events [t] when it was [n] before them. *)
Definition inFlightStep (n : nat) (e : event) : nat :=
  match e with
  | SavedProgress _ => 0
  | Attempt _ 1 => S n
  | _ => n
  end.

Definition inFlightFrom (n : nat) (t : list event) : nat :=
  fold_left inFlightStep t n.

Definition inFlight (t : list event) : nat := inFlightFrom 0 t.

(** The largest value that this number takes along [t]. *)
Fixpoint peakFrom (n : nat) (t : list event) : nat :=
  match t with
  | [] => n
  | e :: t' => Nat.max n (peakFrom (inFlightStep n e) t')
  end.

(** The events that follow the first attempt for an item, up to its
    checkpoint. *)
Definition laterEvent (e : event) : Prop :=
  match e with
  | Attempt _ n => (2 ≤ n)%nat
  | SavedProgress _ => False
  | Sleep _ | SavedErrors _ | SavedResults _ => True
  end.

Lemma inFlightFrom_app n t1 t2 :
  inFlightFrom n (t1 ++ t2) = inFlightFrom (inFlightFrom n t1) t2.
Proof. apply fold_left_app. Qed.

Lemma peakFrom_app n t1 t2 :
  peakFrom n (t1 ++ t2)
  = Nat.max (peakFrom n t1) (peakFrom (inFlightFrom n t1) t2).
Proof.
  revert n. induction t1 as [|e t1 IH]; intros n; simpl.
  - destruct t2; simpl; lia.
  - rewrite IH. unfold inFlightFrom. simpl. lia.
Qed.

Lemma inFlightFrom_le_peak n t1 t2 :
  (inFlightFrom n t1 ≤ peakFrom n (t1 ++ t2))%nat.
Proof.
  rewrite peakFrom_app.
  assert (∀ m t, m ≤ peakFrom m t)%nat as Hle.
  { intros m [|e t]; simpl; lia. }
  pose proof (Hle (inFlightFrom n t1) t2). lia.
Qed.

Lemma later_inFlight n t :
  Forall laterEvent t → inFlightFrom n t = n ∧ peakFrom n t = n.
Proof.
  induction 1 as [|e t He _ IH]; simpl; [done|].
  unfold inFlightFrom in *. simpl.
  assert (inFlightStep n e = n) as ->.
  { destruct e as [k [|[|a]]| | | |]; simpl in *; try done; lia. }
  destruct IH as [-> ->]. split; [done|lia].
Qed.

(** The trace of one fetch begins with its first attempt, and what follows
    are waits, later attempts and at most a write of the error log. *)
Lemma attemptOnce_trace (c : combination) (attempt : nat) (w : world) :
  trace (attemptOnce c attempt w).2 = trace w ++ [Attempt (id c) attempt].
Proof.
  unfold attemptOnce, visit. run.
  destruct (page w (visits w) c) as [results|e]; simpl; [|done].
  by destruct (noValidResults results).
Qed.

Definition afterAttempt (attempt : nat) (e : event) : Prop :=
  match e with
  | Attempt _ n => (attempt < n)%nat
  | SavedProgress _ | SavedResults _ => False
  | Sleep _ | SavedErrors _ => True
  end.

Lemma scrapeWithRetry_trace (this : system) (c : combination) (attempt : nat)
    (w : world) :
  ∃ rest,
    trace (scrapeWithRetry this c attempt w).2
    = trace w ++ Attempt (id c) attempt :: rest ∧
    Forall (afterAttempt attempt) rest.
Proof.
  funelim (scrapeWithRetry this c attempt w).
  - pose proof (attemptOnce_trace c attempt w) as H. rewrite Heq in H.
    by exists [].
  - pose proof (attemptOnce_trace c attempt w) as H0. rewrite Heq0 in H0.
    simpl in *. destruct (H (Ok tt) (emit (Sleep 5000) (advance 5000 w1)))
      as (rest & Hrest & HF).
    exists (Sleep 5000 :: Attempt (id c) (attempt + 1) :: rest). split.
    + rewrite Hrest. simpl. rewrite H0. by rewrite <-!(assoc_L (++)).
    + constructor; [done|]. constructor; [simpl; lia|].
      eapply Forall_impl; [done|]. intros [] ?; simpl in *; try done; lia.
  - pose proof (attemptOnce_trace c attempt w) as H0. rewrite Heq0 in H0.
    simpl in *. unfold logError, loadErrors, writeFile. run.
    destruct (fails w1 errorLogFile (writes w1)); simpl.
    + by exists [].
    + eexists [_]. rewrite H0, <-(assoc_L (++)). split; [done|].
      by repeat constructor.
Qed.

Lemma afterAttempt_later e : afterAttempt 1 e → laterEvent e.
Proof. destruct e; simpl; try done. Qed.

Lemma fetchAndStore_trace this c w :
  ∃ rest,
    trace (fetchAndStore this c w).2 = trace w ++ Attempt (id c) 1 :: rest ∧
    Forall laterEvent rest.
Proof.
  unfold fetchAndStore, saveResults, writeFile. run.
  destruct (scrapeWithRetry_trace this c 1 w) as (rest & Hrest & HF).
  assert (Forall laterEvent rest) as HF'.
  { eapply Forall_impl; [done|]. apply afterAttempt_later. }
  destruct (scrapeWithRetry this c 1 w) as [[result|error] w1]; simpl in *.
  - destruct (fails w1 resultsFile (writes w1)); simpl.
    + by exists rest.
    + eexists (rest ++ [_]). rewrite Hrest, <-(assoc_L (++)). split; [done|].
      apply Forall_app. split; [done|]. by repeat constructor.
  - by exists rest.
Qed.

(** After the events [t] nothing is in flight, and nowhere along them was
    more than one item. *)
Definition settled (t : list event) : Prop :=
  (peakFrom 0 t ≤ 1)%nat ∧ inFlight t = 0%nat.

Lemma settled_nil : settled [].
Proof. split; [simpl; lia|done]. Qed.

Lemma settled_later t t' : settled t → Forall laterEvent t' → settled (t ++ t').
Proof.
  intros [Hp Hz] HF. unfold settled, inFlight in *.
  rewrite peakFrom_app, inFlightFrom_app, Hz.
  destruct (later_inFlight 0 t' HF) as [-> ->]. split; [lia|done].
Qed.

Lemma peak_item t k rest :
  settled t → Forall laterEvent rest →
  (peakFrom 0 (t ++ Attempt k 1 :: rest) ≤ 1)%nat.
Proof.
  intros [Hp Hz] HF. unfold inFlight in Hz.
  rewrite peakFrom_app, Hz. simpl.
  destruct (later_inFlight 1 rest HF) as [_ ->]. lia.
Qed.

Lemma settled_item t k rest p t' :
  settled t → Forall laterEvent rest → Forall laterEvent t' →
  settled (t ++ Attempt k 1 :: rest ++ SavedProgress p :: t').
Proof.
  intros [Hp Hz] HF HF'. unfold settled, inFlight in *.
  rewrite peakFrom_app, inFlightFrom_app, Hz.
  change (Attempt k 1 :: rest ++ SavedProgress p :: t')
    with ([Attempt k 1] ++ rest ++ [SavedProgress p] ++ t').
  rewrite !peakFrom_app, !inFlightFrom_app. simpl.
  destruct (later_inFlight 1 rest HF) as [-> ->].
  destruct (later_inFlight 0 t' HF') as [-> ->]. split; [lia|done].
Qed.

Lemma processItem_settled this total started i size pos c w t :
  settled t →
  ∃ t', trace (processItem this total started i size pos c w).2
        = trace w ++ t' ∧
    match (processItem this total started i size pos c w).1 with
    | Ok _ => settled (t ++ t')
    | Throw _ => (peakFrom 0 (t ++ t') ≤ 1)%nat
    end.
Proof.
  intros Hs.
  destruct (existingResults (vars w) !! id c) as [r|] eqn:Hex.
  - rewrite (processItem_cached _ _ _ _ _ _ _ r) by done. simpl.
    exists []. by rewrite !app_nil_r.
  - destruct (fetchAndStore_trace this c w) as (rest & Hrest & HF).
    destruct (processItem_uncached_spec this total started i size pos c w Hex)
      as (w1 & Hw1 & _ & ->).
    rewrite Hw1 in Hrest. simpl in Hrest.
    rewrite checkpointAndWait_spec. simpl.
    destruct (fails w1 progressFile (writes w1)); simpl.
    + eexists. split; [exact Hrest|]. by apply peak_item.
    + unfold wait. case_bool_decide; simpl.
      * eexists (Attempt (id c) 1 :: rest ++ [_; _]).
        rewrite Hrest, <-!(assoc_L (++)). split; [done|].
        apply settled_item; [done..|]. by repeat constructor.
      * eexists (Attempt (id c) 1 :: rest ++ [_]).
        rewrite Hrest, <-!(assoc_L (++)). split; [done|].
        by apply settled_item.
Qed.

Lemma forBatches_settled this combinations started i w :
  ∃ t, trace (forBatches this combinations started i w).2 = trace w ++ t ∧
       ∀ t1 t2, t = t1 ++ t2 → (inFlight t1 ≤ 1)%nat.
Proof.
  assert (∃ t, trace (forBatches this combinations started i w).2
               = trace w ++ t ∧ (peakFrom 0 t ≤ 1)%nat) as (t & Ht & Hp).
  { destruct (decide (i ≤ length combinations)%nat) as [Hi|Hi]; cycle 1.
    { rewrite forBatches_done by lia. exists []. rewrite app_nil_r.
      split; [done|simpl; lia]. }
    pose proof (forBatches_inv this combinations started
      (λ _ w1, ∃ t, trace w1 = trace w ++ t ∧ settled t)
      (λ _ w1, ∃ t, trace w1 = trace w ++ t ∧ (peakFrom 0 t ≤ 1)%nat)) as H.
    specialize (H
      ltac:(intros _ ms w1 (t & Ht & Hs); exists (t ++ [Sleep ms]); simpl;
            rewrite Ht, (assoc_L (++)); split; [done|];
            apply settled_later; [done|by repeat constructor])).
    assert (∀ (i0 size pos : nat) (c : combination) (w1 : world),
      combinations !! (i0 + pos)%nat = Some c →
      (∃ t, trace w1 = trace w ++ t ∧ settled t) →
      let (r, w') :=
        processItem this (length combinations) started i0 size pos c w1 in
      match r with
      | Ok _ => ∃ t, trace w' = trace w ++ t ∧ settled t
      | Throw _ => ∃ t, trace w' = trace w ++ t ∧ (peakFrom 0 t ≤ 1)%nat
      end) as Hitem.
    { intros i0 size pos c w1 _ (t & Ht & Hs).
      destruct (processItem_settled this (length combinations) started
                  i0 size pos c w1 t Hs) as (t' & Ht' & Hr).
      destruct (processItem _ _ _ _ _ _ _ _) as [[[]|e] w2]; simpl in *;
        exists (t ++ t'); by rewrite Ht', Ht, (assoc_L (++)). }
    specialize (H Hitem i w Hi
      ltac:(exists []; rewrite app_nil_r; split; [done|apply settled_nil])).
    destruct (forBatches _ _ _ _ _) as [[[]|e] w']; simpl.
    - destruct H as (t & Ht & [Hp _]). by exists t.
    - done. }
  exists t. split; [done|]. intros t1 t2 ->.
  pose proof (inFlightFrom_le_peak 0 t1 t2). unfold inFlight. lia.
Qed.

Lemma StronglySorted_filter_seq (P : nat → Prop) `{∀ x, Decision (P x)}
    (i n : nat) :
  StronglySorted lt (filter P (seq i n)).
Proof.
  revert i. induction n as [|n IH]; intros i; simpl; [constructor|].
  rewrite filter_cons. case_decide; [|apply IH].
  constructor; [apply IH|].
  apply Forall_forall. intros x [_ Hx%elem_of_seq]%list_elem_of_filter. lia.
Qed.

Lemma StronglySorted_expectedCheckpoints E combinations i j :
  StronglySorted lt (expectedCheckpoints E combinations i j).
Proof.
  unfold expectedCheckpoints.
  apply (StronglySorted_fmap S lt lt); [|apply StronglySorted_filter_seq].
  intros x y. lia.
Qed.

(** C3, as amended: when the run is resumed from the checkpoint [p0], its
    loop starts at [currentIndex p0]; a checkpoint is written after every
    item from there on that the results store does not hold, with that
    item's index plus one as [currentIndex] and with all items up to it
    counted as processed, and none is written for an item that is skipped
    as already cached; so the persisted [currentIndex] strictly advances,
    and at no point of the run has more than one fetch begun since the
    last checkpoint. *)
Theorem checkpoint_after_every_fetch (this : system) (w : world)
    (p0 : progress) (stored : gmap string result) (errs : list errorRecord) :
  let combinations := generateAllCombinations this in
  noDupRanges (parameterRanges this) →
  (∀ n, fails w progressFile n = false) →
  files w = {| progress_json := Some p0; results_json := Some stored;
               errors_json := Some errs |} →
  ∃ w' t,
    startCaching this w = (Ok tt, w') ∧
    startCaching this w = resumed this p0 stored w ∧
    trace w' = trace w ++ t ∧
    currentIndex <$> savedProgress t =
      S <$> filter (λ j, fetchedAt stored combinations j)
              (seq (currentIndex p0) (length combinations - currentIndex p0)) ∧
    StronglySorted lt (currentIndex <$> savedProgress t) ∧
    Forall (λ p, processed p =
                 (processed p0 + (currentIndex p - currentIndex p0))%nat)
           (savedProgress t) ∧
    (∀ t1 t2, t = t1 ++ t2 → (inFlight t1 ≤ 1)%nat) ∧
    (∀ total started i size pos c w1 r1,
       existingResults (vars w1) !! id c = Some r1 →
       ∃ w2,
         processItem this total started i size pos c w1 = (Ok tt, w2) ∧
         processedCount (vars w2) = S (processedCount (vars w1)) ∧
         trace w2 = trace w1 ∧ files w2 = files w1).
Proof.
  intros combinations Hnd Hw Hfiles.
  rewrite startCaching_after_initialize.
  rewrite (initialize_ready w p0 stored errs Hfiles), Hfiles. simpl.
  unfold resumed.
  match goal with |- context [forBatches this ?cs ?st ?i ?w0] =>
    destruct (forBatches_checkpoints this cs st i w0 (NoDup_ids this Hnd) Hw)
      as (w' & t & Hrun & Ht & Hcp & Hpr)
  end.
  match goal with |- context [forBatches this ?cs ?st ?i ?w0] =>
    destruct (forBatches_settled this cs st i w0) as (t' & Ht' & Hone)
  end.
  rewrite Hrun in Ht'. simpl in Ht'. rewrite Ht in Ht'.
  apply app_inv_head in Ht' as <-.
  exists w', t. simpl in *. split_and!; try done.
  - rewrite Hcp. apply StronglySorted_expectedCheckpoints.
  - intros total started i size pos c w1 r1 Hc.
    rewrite (processItem_cached _ _ _ _ _ _ _ r1) by done. by eexists.
Qed.

(** ** Failing writes *)



Section unwritable.
Context (this : system) (combinations : list combination).
Context (started : option Z) (i : nat) (w : world).
Hypothesis progress_unwritable : ∀ n, fails w progressFile n = true.



End unwritable.

End harvester.

(** * Failing writes, on both sides *)
Section persistence.
Import JS CacheManager.



End persistence.

(** * Concrete runs *)

(** What the site shows for any criteria, in these runs. *)
Definition sampleData : JS.object :=
  [ ("probability", JS.JStr "12%");
    ("delusionScoreNumber", JS.JStr "3/5");
    ("delusionScore", JS.JStr "Picky") ].

Section server_runs.
Import JS CacheManager Server.

(** A server that has just started with no cache file; [broken] says
    whether its writes fail. *)
Definition freshServer (broken : bool) : world :=
  {| cache := ∅; cacheFile := None; now := 1000; console := [];
     writes := 0; fails := λ _, broken; visits := 0;
     site := λ _ _, Ok sampleData |}.

Definition defaultRequest : object :=
  [ ("minAge", JNum (int 25)); ("maxAge", JNum (int 35)) ].

Lemma getResults_twice_witness :
  ∃ w1 w2 e1 e2,
    getResults defaultRequest (freshServer false) =
      (Ok {| Envelope.payload := sampleData; Envelope.fromCache := false;
             Envelope.cacheKey := "6d51f8d1a5e1b343c363b1a4539288bc";
             Envelope.cachedAt := None;
             Envelope.accessCount := None |}, w1) ∧
    cache w1 !! "6d51f8d1a5e1b343c363b1a4539288bc" = Some e1 ∧
    accessCount e1 = 1 ∧
    getResults defaultRequest w1 =
      (Ok {| Envelope.payload := sampleData; Envelope.fromCache := true;
             Envelope.cacheKey := "6d51f8d1a5e1b343c363b1a4539288bc";
             Envelope.cachedAt := Some 1000;
             Envelope.accessCount := Some 1 |}, w2) ∧
    cache w2 !! "6d51f8d1a5e1b343c363b1a4539288bc" = Some e2 ∧
    accessCount e2 = 2 ∧
    visits w2 = visits w1.
Proof.
  apply (getResults_twice defaultRequest sampleData
           "6d51f8d1a5e1b343c363b1a4539288bc" (freshServer false)).
  - vm_compute. reflexivity.
  - reflexivity.
  - reflexivity.
Defined.

(** C8 as stated fails: the envelope of the second request carries
    [accessCount = 1], not 2. *)
Lemma second_request_accessCount_1 :
  ∃ e1 w1 e2 w2,
    getResults defaultRequest (freshServer false) = (Ok e1, w1) ∧
    getResults defaultRequest w1 = (Ok e2, w2) ∧
    Envelope.fromCache e2 = true ∧
    Envelope.accessCount e2 = Some 1 ∧
    Envelope.accessCount e2 ≠ Some 2.
Proof.
  eexists _, _, _, _. split; [vm_compute; reflexivity|].
  split; [vm_compute; reflexivity|]. by split_and!.
Qed.


End server_runs.

Section harvester_runs.
Import JS DataCachingSystem.

(** The first combination of the space of the constructor's grids. *)
Definition firstCombination : combination :=
  combinationOf {| minAge := 18; maxAge := 22; excludeMarried := true;
                   race := 0; minHeight := 0; excludeObese := true;
                   minIncome := 0 |}.

Definition sampleResult (c : combination) : result :=
  {| data := sampleData; timestamp := 0; parameters := params c |}.

(** The progress file as [initialize] writes it. *)
Definition noProgress : progress :=
  {| totalCombinations := 0; processed := 0; currentIndex := 0;
     startTime := None; lastProcessedAt := None; errors := 0;
     successes := 0 |}.

(** A cache directory with its three files, of which the results hold
    [stored]; [broken] tells which writes fail and [answer] what the page
    gives. *)
Definition sampleWorld (stored : gmap string result)
    (broken : file → nat → bool) (answer : res object) : world :=
  {| files := {| progress_json := Some noProgress;
                 results_json := Some stored;
                 errors_json := Some [] |};
     vars := {| existingResults := stored; processedCount := 0;
                successCount := 0; errorCount := 0 |};
     now := 1000; trace := []; writes := 0; fails := broken;
     visits := 0; page := λ _ _, answer |}.

Definition firstStored : gmap string result :=
  {[ id firstCombination := sampleResult firstCombination ]}.

(** A system like the constructor's whose grids span two combinations. *)
Definition twoCombinations : system :=
  {| batchSize := 10; delayBetweenRequests := 3000; retryAttempts := 3;
     parameterRanges :=
       {| Range.minAge := [18]; Range.maxAge := [22];
          Range.excludeMarried := [true]; Range.race := [0];
          Range.minHeight := [0]; Range.excludeObese := [true];
          Range.minIncome := [0; 30000] |} |}.

Definition bothStored : gmap string result :=
  list_to_map ((λ c, (id c, sampleResult c))
                 <$> generateAllCombinations twoCombinations).

(** C3 as stated fails.  In the constructor's system, the loop body counts
    the first combination, which the store holds, as processed and writes
    no checkpoint.  A whole run over two cached combinations counts both
    and leaves the progress file as it was, with nothing processed. *)
Lemma no_checkpoint_after_cached_item :
  (∃ w',
     processItem constructor 145440 (Some 1000) 0 10 0 firstCombination
       (sampleWorld firstStored (λ _ _, false) (Ok sampleData))
     = (Ok tt, w') ∧
     processedCount (vars w') = 1%nat ∧
     trace w' = [] ∧
     progress_json (files w') = Some noProgress) ∧
  (∃ w',
     startCaching twoCombinations
       (sampleWorld bothStored (λ _ _, false) (Ok sampleData))
     = (Ok tt, w') ∧
     processedCount (vars w') = 2%nat ∧
     savedProgress (trace w') = [] ∧
     progress_json (files w') = Some noProgress ∧
     processed noProgress = 0%nat).
Proof.
  split; eexists; (split; [vm_compute; reflexivity|]); by split_and!.
Qed.

Lemma checkpoint_after_every_fetch_witness :
  let w := sampleWorld firstStored (λ _ _, false) (Ok sampleData) in
  let combinations := generateAllCombinations constructor in
  ∃ w' t,
    startCaching constructor w = (Ok tt, w') ∧
    startCaching constructor w = resumed constructor noProgress firstStored w ∧
    trace w' = trace w ++ t ∧
    currentIndex <$> savedProgress t =
      S <$> filter (λ j, fetchedAt firstStored combinations j)
              (seq (currentIndex noProgress)
                   (length combinations - currentIndex noProgress)) ∧
    StronglySorted lt (currentIndex <$> savedProgress t) ∧
    Forall (λ p, processed p =
                 (processed noProgress
                  + (currentIndex p - currentIndex noProgress))%nat)
           (savedProgress t) ∧
    (∀ t1 t2, t = t1 ++ t2 → (inFlight t1 ≤ 1)%nat) ∧
    (∀ total started i size pos c w1 r1,
       existingResults (vars w1) !! id c = Some r1 →
       ∃ w2,
         processItem constructor total started i size pos c w1
         = (Ok tt, w2) ∧
         processedCount (vars w2) = S (processedCount (vars w1)) ∧
         trace w2 = trace w1 ∧ files w2 = files w1).
Proof.
  apply (checkpoint_after_every_fetch constructor
           (sampleWorld firstStored (λ _ _, false) (Ok sampleData))
           noProgress firstStored []).
  - unfold noDupRanges. split_and!; compute_done.
  - intros n. reflexivity.
  - reflexivity.
Defined.


Lemma scrapeWithRetry_exhausted_witness :
  let w := sampleWorld ∅ (λ _ _, false) (Throw (Error "Timeout 45000ms")) in
  ∃ error w' t,
    scrapeWithRetry constructor firstCombination 1 w = (Throw error, w') ∧
    trace w' = trace w ++ t ∧
    attemptsOf t =
      (λ n, (id firstCombination, n)) <$> seq 1 (retryAttempts constructor) ∧
    visits w' = (visits w + retryAttempts constructor)%nat ∧
    errors_json (files w') =
      Some (default [] (errors_json (files w)) ++
            [ {| ErrorRecord.timestamp := now w';
                 ErrorRecord.combination := firstCombination;
                 ErrorRecord.error := message error |} ]) ∧
    results_json (files w') = results_json (files w) ∧
    vars w' = vars w.
Proof.
  apply (scrapeWithRetry_exhausted constructor firstCombination
           (sampleWorld ∅ (λ _ _, false) (Throw (Error "Timeout 45000ms")))).
  - simpl. lia.
  - intros n. simpl. exact I.
  - reflexivity.
Defined.


End harvester_runs.

(** * More on the cache of the server *)
Section cache_operations.
Import JS CacheManager Server.

Ltac run :=
  unfold mbind, mret, M_bind, M_ret, bind, ret, lift, gets, modify, throw,
    try_catch in *;
  simpl in *.

Lemma mbind_run {W A B} (m : M W A) (k : A → M W B) (w : W) :
  (m ≫= k) w =
  match m w with
  | (Ok a, w') => k a w'
  | (Throw e, w') => (Throw e, w')
  end.
Proof. reflexivity. Qed.

(** ** Insert and look up *)

(** X1: what [set] has stored under a key is what [get] returns for any
    criteria with that key, whether or not the cache file could be written,
    and the lookups of the other keys are as before. *)
Theorem set_then_get (raw raw' scraped : object) (key : string) (w : world) :
  generateKey raw = Ok key →
  generateKey raw' = Ok key →
  ∃ w',
    Server.set raw scraped w = (Ok key, w') ∧
    Server.get raw' w' =
      (Ok (Some {| Envelope.payload := scraped; Envelope.fromCache := true;
                   Envelope.cacheKey := key;
                   Envelope.cachedAt := Some (now w);
                   Envelope.accessCount := Some 1 |}), w') ∧
    ∀ other key',
      generateKey other = Ok key' → key' ≠ key →
      (Server.get other w').1 = (Server.get other w).1.
Proof.
  intros Hk Hk'.
  destruct (set_spec raw scraped key w Hk)
    as (n & w' & _ & Hset & Hc & _ & _ & _).
  exists w'. split; [done|]. split.
  - rewrite (get_spec raw' key w' Hk'), Hc, lookup_insert_eq. done.
  - intros other key' Ho Hne.
    rewrite (get_spec other key' w' Ho), (get_spec other key' w Ho), Hc.
    simpl. by rewrite lookup_insert_ne.
Qed.

(** ** A request that fails *)


(** ** Statistics *)

Lemma foldl_accesses_Permutation (l1 l2 : list cacheEntry) :
  l1 ≡ₚ l2 →
  ∀ a, foldl (λ sum entry, sum + accessesOf entry) a l1
       = foldl (λ sum entry, sum + accessesOf entry) a l2.
Proof.
  induction 1 as [|x l1 l2 _ IH|x y l|l1 l2 l3 _ IH1 _ IH2]; intros a; simpl.
  - done.
  - apply IH.
  - f_equal. lia.
  - by rewrite IH1.
Qed.

Lemma foldl_accesses_shift (l : list cacheEntry) (a : Z) :
  foldl (λ sum entry, sum + accessesOf entry) a l
  = a + foldl (λ sum entry, sum + accessesOf entry) 0 l.
Proof.
  revert a. induction l as [|x l IH]; intros a; simpl; [lia|].
  rewrite IH, (IH (0 + _)). lia.
Qed.

(** The sum that [getStats] reports as [totalAccesses]. *)
Definition accesses (m : gmap string cacheEntry) : Z :=
  foldl (λ sum entry, sum + accessesOf entry) 0 (map_to_list m).*2.

Lemma accesses_insert (m : gmap string cacheEntry) (k : string)
    (e : cacheEntry) :
  m !! k = None → accesses (<[k := e]> m) = accessesOf e + accesses m.
Proof.
  intros Hk. unfold accesses.
  rewrite (foldl_accesses_Permutation _ (e :: (map_to_list m).*2)).
  - simpl. by rewrite foldl_accesses_shift.
  - by rewrite (map_to_list_insert m k e Hk).
Qed.

Lemma accesses_update (m : gmap string cacheEntry) (k : string)
    (e e' : cacheEntry) :
  m !! k = Some e →
  accesses (<[k := e']> m) = accesses m - accessesOf e + accessesOf e'.
Proof.
  intros Hk.
  rewrite <-(insert_delete_eq m k e').
  rewrite <-(insert_delete_id m k e Hk) at 2.
  rewrite !accesses_insert by apply lookup_delete_eq. lia.
Qed.

Lemma getStats_spec (w : world) :
  ∃ s, getStats w = (Ok s, w) ∧
       Stats.totalEntries s = size (cache w) ∧
       Stats.totalAccesses s = accesses (cache w).
Proof. eexists. split; [reflexivity|]. done. Qed.

(** X3: every request that is answered, from the cache or after a scrape,
    adds exactly one to [totalAccesses]; it adds one entry when it was a
    miss and none when it was a hit; and all counts stay at least 1. *)
Theorem getResults_accounting (raw : object) (result : envelope)
    (w w' : world) :
  map_Forall (λ _ entry, 1 ≤ accessCount entry) (cache w) →
  getResults raw w = (Ok result, w') →
  ∃ s s',
    getStats w = (Ok s, w) ∧ getStats w' = (Ok s', w') ∧
    Stats.totalAccesses s' = Stats.totalAccesses s + 1 ∧
    Stats.totalEntries s' =
      (Stats.totalEntries s + if Envelope.fromCache result then 0 else 1)%nat ∧
    map_Forall (λ _ entry, 1 ≤ accessCount entry) (cache w').
Proof.
  intros Hall H.
  destruct (getStats_spec w) as (s & Hs & Hn & Ha).
  destruct (getStats_spec w') as (s' & Hs' & Hn' & Ha').
  exists s, s'. split; [done|]. split; [done|].
  rewrite Hn, Hn', Ha, Ha'. clear Hs Hs' Hn Hn' Ha Ha' s s'.
  destruct (generateKey raw) as [key|e0] eqn:Hk; cycle 1.
  { unfold getResults, Server.get in H. run. by rewrite Hk in H. }
  destruct (cache w !! key) as [entry|] eqn:Hc.
  - destruct (getResults_hit raw key entry w Hk Hc) as (w2 & Hr & Hc2 & _).
    rewrite Hr in H. injection H as <- <-. simpl.
    pose proof (Hall key entry Hc) as Hpos. simpl in Hpos.
    rewrite Hc2. split_and!.
    + rewrite (accesses_update _ _ entry) by done.
      unfold accessesOf. simpl.
      repeat (case_match; try lia).
    + rewrite map_size_insert_Some by done. lia.
    + apply map_Forall_insert_2; [|done]. simpl. case_match; lia.
  - unfold getResults in H. unfold mbind at 1, M_bind, bind in H.
    rewrite (get_spec raw key w Hk), Hc in H. simpl in H.
    unfold mbind at 1, M_bind, bind, scrapeResults in H.
    destruct (site w (visits w) raw) as [scraped|e1] eqn:Hs; [|done].
    unfold mbind at 1, M_bind, bind in H.
    match type of H with context [Server.set raw scraped ?w0] =>
      destruct (set_spec raw scraped key w0 Hk)
        as (n & w1 & _ & Hset & Hc1 & _) end.
    rewrite Hset in H. injection H as <- <-. simpl in *.
    rewrite Hc1. split_and!.
    + rewrite accesses_insert by done. unfold accessesOf. simpl. lia.
    + rewrite map_size_insert_None by done. lia.
    + by apply map_Forall_insert_2.
Qed.

Lemma foldl_oldest (x : cacheEntry) (l : list cacheEntry) :
  let r := foldl (λ oldest entry,
                    if timestamp entry <? timestamp oldest
                    then entry else oldest) x l in
  r ∈ x :: l ∧ ∀ y, y ∈ x :: l → timestamp r ≤ timestamp y.
Proof.
  revert x. induction l as [|z l IH]; intros x; simpl.
  - split; [by left|]. intros y ->%list_elem_of_singleton. lia.
  - destruct (IH (if timestamp z <? timestamp x then z else x)) as [Hin Hle].
    split.
    + apply elem_of_cons in Hin as [->|Hin].
      * case_match; [right; left|left]; done.
      * by do 2 right.
    + intros y Hy.
      apply elem_of_cons in Hy as [->|[->|Hy]%elem_of_cons];
        [| |apply Hle; by right];
        (etrans; [apply Hle; left|]);
        destruct (Z.ltb_spec (timestamp z) (timestamp x)); lia.
Qed.

Lemma foldl_newest (x : cacheEntry) (l : list cacheEntry) :
  let r := foldl (λ newest entry,
                    if timestamp newest <? timestamp entry
                    then entry else newest) x l in
  r ∈ x :: l ∧ ∀ y, y ∈ x :: l → timestamp y ≤ timestamp r.
Proof.
  revert x. induction l as [|z l IH]; intros x; simpl.
  - split; [by left|]. intros y ->%list_elem_of_singleton. lia.
  - destruct (IH (if timestamp x <? timestamp z then z else x)) as [Hin Hle].
    split.
    + apply elem_of_cons in Hin as [->|Hin].
      * case_match; [right; left|left]; done.
      * by do 2 right.
    + intros y Hy.
      apply elem_of_cons in Hy as [->|[->|Hy]%elem_of_cons];
        [| |apply Hle; by right];
        (etrans; [|apply Hle; left]);
        destruct (Z.ltb_spec (timestamp x) (timestamp z)); lia.
Qed.

Lemma elem_of_entries (m : gmap string cacheEntry) (e : cacheEntry) :
  e ∈ (map_to_list m).*2 ↔ ∃ k, m !! k = Some e.
Proof.
  rewrite list_elem_of_fmap. split.
  - intros ([k e'] & -> & Hin%elem_of_map_to_list). by exists k.
  - intros (k & Hk). exists (k, e). split; [done|].
    by apply elem_of_map_to_list.
Qed.

(** X4: [getStats] reports the number of entries; for an empty cache both
    time stamps are [null] and the accesses are 0; otherwise [oldestEntry]
    and [newestEntry] are time stamps of entries, and the time stamp of
    every entry lies between them. *)
Theorem getStats_extremes (w : world) :
  ∃ s,
    getStats w = (Ok s, w) ∧
    Stats.totalEntries s = size (cache w) ∧
    match Stats.oldestEntry s, Stats.newestEntry s with
    | Some oldest, Some newest =>
        (∀ k entry, cache w !! k = Some entry →
                    oldest ≤ timestamp entry ≤ newest) ∧
        (∃ k entry, cache w !! k = Some entry ∧ timestamp entry = oldest) ∧
        (∃ k entry, cache w !! k = Some entry ∧ timestamp entry = newest)
    | None, None => cache w = ∅ ∧ Stats.totalAccesses s = 0
    | _, _ => False
    end.
Proof.
  eexists. split; [reflexivity|]. split; [done|]. simpl.
  destruct ((map_to_list (cache w)).*2) as [|x l] eqn:El; simpl.
  - apply fmap_nil_inv in El. by apply map_to_list_empty_iff in El.
  - destruct (foldl_oldest x l) as [Hin1 Hle1].
    destruct (foldl_newest x l) as [Hin2 Hle2].
    rewrite <-El in Hin1, Hin2, Hle1, Hle2. split_and!.
    + intros k entry Hk.
      assert (entry ∈ (map_to_list (cache w)).*2) as Hin
        by (apply elem_of_entries; by exists k).
      split; [by apply Hle1|by apply Hle2].
    + apply elem_of_entries in Hin1 as (k & Hk). eexists k, _. by split.
    + apply elem_of_entries in Hin2 as (k & Hk). eexists k, _. by split.
Qed.

(** ** Repeated requests *)

(** X5: when an entry with a count of at least 1 is cached, [n] further
    requests for it are all served from the cache without a scrape; the
    [i]-th of them, counted from 0, reports the count plus [i], and the
    entry ends with the count plus [n], its data and time stamp as they
    were. *)
Theorem repeated_requests (raw : object) (key : string) (n : nat) :
  ∀ (entry : cacheEntry) (w : world),
  generateKey raw = Ok key →
  cache w !! key = Some entry →
  1 ≤ accessCount entry →
  ∃ w' entry',
    mapM getResults (replicate n raw) w =
      (Ok ((λ i : nat,
              {| Envelope.payload := data entry;
                 Envelope.fromCache := true;
                 Envelope.cacheKey := key;
                 Envelope.cachedAt := Some (timestamp entry);
                 Envelope.accessCount :=
                   Some (accessCount entry + Z.of_nat i) |})
             <$> seq 0 n),
       w') ∧
    cache w' !! key = Some entry' ∧
    accessCount entry' = accessCount entry + Z.of_nat n ∧
    data entry' = data entry ∧
    timestamp entry' = timestamp entry ∧
    visits w' = visits w.
Proof.
  induction n as [|n IH]; intros entry w Hk Hc Hpos.
  - exists w, entry. simpl. split_and!; try done. lia.
  - destruct (getResults_hit raw key entry w Hk Hc)
      as (w1 & Hr & Hc1 & _ & Hv1).
    assert ((accessCount entry =? 0) = false) as Hnz by lia.
    rewrite Hnz in Hc1.
    set (entry1 := {| criteria := criteria entry; data := data entry;
                      timestamp := timestamp entry;
                      accessCount := accessCount entry + 1;
                      lastAccessed := Some (now w) |}) in *.
    destruct (IH entry1 w1 Hk) as (w' & entry' & Hrun & Hc' & Ha & Hd & Ht & Hv).
    { rewrite Hc1. apply lookup_insert_eq. }
    { simpl. lia. }
    exists w', entry'. split_and!; try done; try congruence.
    + change (replicate (S n) raw) with (raw :: replicate n raw).
      simpl. rewrite mbind_run, Hr, mbind_run, Hrun. simpl.
      unfold mret, M_ret, ret. do 2 f_equal. unfold hit. f_equal.
      * do 2 f_equal. lia.
      * rewrite <-fmap_S_seq, <-list_fmap_compose.
        apply list_fmap_ext. intros ? i ?. simpl. do 2 f_equal. lia.
    + rewrite Ha. simpl. lia.
Qed.

(** ** Forgetting everything *)

(** X6: [clear] empties the cache in memory before it removes the file, so
    that every lookup misses afterwards and the next request scrapes again,
    also when removing the file fails; it throws in that case only, and
    the file is gone otherwise. *)
Theorem clear_forgets (w : world) :
  ∃ r w',
    clear w = (r, w') ∧
    cache w' = ∅ ∧
    (∀ raw key, generateKey raw = Ok key →
       Server.get raw w' = (Ok None, w') ∧
       ∀ scraped, site w' (visits w') raw = Ok scraped →
         ∃ w'', getResults raw w' =
           (Ok {| Envelope.payload := scraped; Envelope.fromCache := false;
                  Envelope.cacheKey := key; Envelope.cachedAt := None;
                  Envelope.accessCount := None |}, w'')) ∧
    getStats w' =
      (Ok {| Stats.totalEntries := 0; Stats.totalAccesses := 0;
             Stats.oldestEntry := None; Stats.newestEntry := None |}, w') ∧
    match r with
    | Ok _ => cacheFile w' = None
    | Throw _ =>
        is_Some (cacheFile w) ∧ fails w (writes w) = true ∧
        cacheFile w' = cacheFile w
    end.
Proof.
  assert (∃ r w', clear w = (r, w') ∧ cache w' = ∅ ∧
            match r with
            | Ok _ => cacheFile w' = None
            | Throw _ =>
                is_Some (cacheFile w) ∧ fails w (writes w) = true ∧
                cacheFile w' = cacheFile w
            end) as (r & w' & Hrun & Hc & Hr).
  { unfold clear, unlinkSync. run. case_bool_decide as Hf; simpl.
    - destruct (fails w (writes w)) eqn:Hw; eexists _, _;
        (split; [reflexivity|]); simpl; by split_and!.
    - eexists _, _. split; [reflexivity|]. simpl. split; [done|].
      destruct (cacheFile w); [|done]. destruct Hf. by eexists. }
  exists r, w'. split_and!; try done.
  - intros raw key Hk. split.
    + by rewrite (get_spec raw key w' Hk), Hc, lookup_empty.
    + intros scraped Hs.
      destruct (getResults_miss raw scraped key w' Hk) as (n & w2 & _ & ? & _);
        [by rewrite Hc, lookup_empty|done|].
      by exists w2.
  - unfold getStats. run. rewrite Hc. by rewrite map_to_list_empty.
Qed.

(** ** Counting an access *)

(** X7: [updateAccess] creates no entry and changes nothing but the count
    and the time of the last access of the entry for its criteria; when
    there is no such entry, or the criteria cannot be normalized, it leaves
    everything as it was and writes nothing. *)
Theorem updateAccess_counts_only (raw : object) (w : world) :
  ∃ r w',
    updateAccess raw w = (r, w') ∧
    dom (cache w') = dom (cache w) ∧
    (∀ k entry', cache w' !! k = Some entry' →
       ∃ entry, cache w !! k = Some entry ∧
         data entry' = data entry ∧ timestamp entry' = timestamp entry ∧
         criteria entry' = criteria entry ∧
         (generateKey raw ≠ Ok k → entry' = entry)) ∧
    (match generateKey raw with
     | Ok key => cache w !! key = None
     | Throw _ => True
     end → w' = w).
Proof.
  destruct (generateKey raw) as [key|e] eqn:Hk; cycle 1.
  { unfold updateAccess. run. rewrite Hk. exists (Throw e), w.
    split_and!; try done. intros k entry' Hc. by exists entry'. }
  destruct (cache w !! key) as [entry|] eqn:Hc.
  - destruct (updateAccess_spec raw key entry w Hk Hc) as (w' & Hr & Hc' & _).
    exists (Ok tt), w'. split; [done|]. rewrite Hc'. split_and!.
    + apply dom_insert_lookup_L. by eexists.
    + intros k entry' [[<- <-]|[Hne Hl]]%lookup_insert_Some.
      * exists entry. by split_and!.
      * exists entry'. split_and!; try done.
    + done.
  - unfold updateAccess. run. rewrite Hk, Hc. exists (Ok tt), w.
    split_and!; try done. intros k entry' Hl. by exists entry'.
Qed.

(** ** On concrete inputs *)

(** The default request, written otherwise. *)
Definition sameRequest : object :=
  [ ("race", JStr "any"); ("maxAge", JStr "35"); ("minAge", JStr "25") ].


Lemma set_then_get_witness :
  ∃ w',
    Server.set defaultRequest sampleData (freshServer true)
      = (Ok "6d51f8d1a5e1b343c363b1a4539288bc", w') ∧
    Server.get sameRequest w' =
      (Ok (Some {| Envelope.payload := sampleData;
                   Envelope.fromCache := true;
                   Envelope.cacheKey := "6d51f8d1a5e1b343c363b1a4539288bc";
                   Envelope.cachedAt := Some (now (freshServer true));
                   Envelope.accessCount := Some 1 |}), w') ∧
    ∀ other key',
      generateKey other = Ok key' →
      key' ≠ "6d51f8d1a5e1b343c363b1a4539288bc" →
      (Server.get other w').1 = (Server.get other (freshServer true)).1.
Proof.
  apply (set_then_get defaultRequest sameRequest sampleData
           "6d51f8d1a5e1b343c363b1a4539288bc" (freshServer true)).
  - vm_compute. reflexivity.
  - vm_compute. reflexivity.
Defined.


Lemma getResults_accounting_witness :
  let w := freshServer false in
  let result := {| Envelope.payload := sampleData;
                   Envelope.fromCache := false;
                   Envelope.cacheKey := "6d51f8d1a5e1b343c363b1a4539288bc";
                   Envelope.cachedAt := None;
                   Envelope.accessCount := None |} in
  let w' := (getResults defaultRequest w).2 in
  ∃ s s',
    getStats w = (Ok s, w) ∧ getStats w' = (Ok s', w') ∧
    Stats.totalAccesses s' = Stats.totalAccesses s + 1 ∧
    Stats.totalEntries s' =
      (Stats.totalEntries s + if Envelope.fromCache result then 0 else 1)%nat ∧
    map_Forall (λ _ entry, 1 ≤ accessCount entry) (cache w').
Proof.
  apply (getResults_accounting defaultRequest _ (freshServer false)
           (getResults defaultRequest (freshServer false)).2).
  - apply map_Forall_empty.
  - vm_compute. reflexivity.
Defined.

Lemma repeated_requests_witness :
  let w := (getResults defaultRequest (freshServer false)).2 in
  let key := "6d51f8d1a5e1b343c363b1a4539288bc" in
  ∃ entry,
    cache w !! key = Some entry ∧
    ∃ w' entry',
      mapM getResults (replicate 3 defaultRequest) w =
        (Ok ((λ i : nat,
                {| Envelope.payload := data entry;
                   Envelope.fromCache := true;
                   Envelope.cacheKey := key;
                   Envelope.cachedAt := Some (timestamp entry);
                   Envelope.accessCount :=
                     Some (accessCount entry + Z.of_nat i) |})
               <$> seq 0 3),
         w') ∧
      cache w' !! key = Some entry' ∧
      accessCount entry' = accessCount entry + Z.of_nat 3 ∧
      data entry' = data entry ∧
      timestamp entry' = timestamp entry ∧
      visits w' = visits w.
Proof.
  eexists. split; [vm_compute; reflexivity|].
  apply (repeated_requests defaultRequest
           "6d51f8d1a5e1b343c363b1a4539288bc" 3).
  - vm_compute. reflexivity.
  - vm_compute. reflexivity.
  - simpl. lia.
Defined.

End cache_operations.

(** * The routes of the server *)
Section routes.
Import JS CacheManager Server.

(** ** [GET /api/results] *)









(** ** [GET /api/search] *)

Lemma filterM_sublist {A} (f : A → res bool) (l l' : list A) :
  filterM f l = Ok l' → l' `sublist_of` l.
Proof.
  revert l'. induction l as [|x l IH]; intros l'; simpl.
  - by intros [= <-].
  - destruct (f x) as [keep|]; [|done]. simpl.
    destruct (filterM f l) as [rest|]; [|done]. simpl.
    intros [= <-]. destruct keep.
    + apply sublist_skip. by apply IH.
    + apply sublist_cons. by apply IH.
Qed.

Lemma filterM_none {A} (f : A → res bool) (l : list A) :
  (∀ x, f x = Ok false) → filterM f l = Ok [].
Proof.
  intros Hf. induction l as [|x l IH]; simpl; [done|].
  by rewrite Hf, IH.
Qed.

(** The four filters of the route, one after the other. *)
Lemma search_unfold (query : object) (w : world) :
  search query w =
  (Ok match
     (f1 ← (if truthy (JS.get query "minAge")
            then filterM (λ entry : string * cacheEntry,
                            n ← parseInt (JS.get query "minAge");
                            Ok (number_leb n (minAge (criteria entry.2))))
                         (map_to_list (cache w))
            else Ok (map_to_list (cache w)));
      f2 ← (if truthy (JS.get query "maxAge")
            then filterM (λ entry : string * cacheEntry,
                            n ← parseInt (JS.get query "maxAge");
                            Ok (number_leb (maxAge (criteria entry.2)) n))
                         f1
            else Ok f1);
      f3 ← (if truthy (JS.get query "race")
               && negb (is_string (JS.get query "race") "any")
            then raceValue ← normalizeRace (JS.get query "race");
                 Ok (filter (λ entry : string * cacheEntry,
                               strictEquals (race (criteria entry.2))
                                            raceValue = true) f2)
            else Ok f2);
      f4 ← (if truthy (JS.get query "minIncome")
            then filterM (λ entry : string * cacheEntry,
                            n ← parseInt (JS.get query "minIncome");
                            Ok (number_leb n (minIncome (criteria entry.2))))
                         f3
            else Ok f3);
      Ok (Sent {| SearchBody.total := length (map_to_list (cache w));
                  SearchBody.filtered := length f4;
                  SearchBody.data := f4 |}))
   with
   | Ok r => r
   | Throw e => Failed e
   end, w).
Proof.
  unfold search, try_catch, getAllCached.
  unfold mbind, M_bind, res_bind, bind, gets, lift, mret, M_ret, ret.
  destruct (if truthy (JS.get query "minAge") then _ else _); [|done].
  destruct (if truthy (JS.get query "maxAge") then _ else _); [|done].
  destruct (if truthy (JS.get query "race") && _ then _ else _); [|done].
  by destruct (if truthy (JS.get query "minIncome") then _ else _).
Qed.

(** X9: the search reads the cache and changes nothing; when it answers,
    [total] is the number of cached entries, and the entries it returns are
    cached entries, in the order of the whole list and [filtered] in
    number; without any of the four parameters it returns them all. *)
Theorem search_selects (query : object) (w : world) :
  ∃ r,
    search query w = (Ok r, w) ∧
    match r with
    | Sent body =>
        SearchBody.total body = size (cache w) ∧
        SearchBody.filtered body = length (SearchBody.data body) ∧
        SearchBody.data body `sublist_of` map_to_list (cache w) ∧
        (∀ k entry, (k, entry) ∈ SearchBody.data body →
                    cache w !! k = Some entry) ∧
        (Forall (λ name, truthy (JS.get query name) = false)
                ["minAge"; "maxAge"; "race"; "minIncome"] →
         SearchBody.data body = map_to_list (cache w))
    | Failed _ => True
    end.
Proof.
  rewrite search_unfold. eexists. split; [reflexivity|].
  destruct (if truthy (JS.get query "minAge") then _ else _)
    as [f1|] eqn:E1; simpl; [|done].
  destruct (if truthy (JS.get query "maxAge") then _ else _)
    as [f2|] eqn:E2; simpl; [|done].
  destruct (if truthy (JS.get query "race") && _ then _ else _)
    as [f3|] eqn:E3; simpl; [|done].
  destruct (if truthy (JS.get query "minIncome") then _ else _)
    as [f4|] eqn:E4; simpl; [|done].
  assert (f1 `sublist_of` map_to_list (cache w)) as S1.
  { destruct (truthy (JS.get query "minAge"));
      [by eapply filterM_sublist|by injection E1 as <-]. }
  assert (f2 `sublist_of` f1) as S2.
  { destruct (truthy (JS.get query "maxAge"));
      [by eapply filterM_sublist|by injection E2 as <-]. }
  assert (f3 `sublist_of` f2) as S3.
  { destruct (truthy (JS.get query "race") && _); [|by injection E3 as <-].
    destruct (normalizeRace _); [|done]. injection E3 as <-.
    apply sublist_filter. }
  assert (f4 `sublist_of` f3) as S4.
  { destruct (truthy (JS.get query "minIncome"));
      [by eapply filterM_sublist|by injection E4 as <-]. }
  assert (f4 `sublist_of` map_to_list (cache w)) as S
    by (etrans; [done|]; etrans; [done|]; by etrans).
  split_and!; try done.
  - apply length_map_to_list.
  - intros k entry Hin. apply elem_of_map_to_list.
    by apply (sublist_subseteq _ _ S).
  - intros HF. rewrite !Forall_cons in HF.
    destruct HF as (H1 & H2 & H3 & H4 & _).
    rewrite H1 in E1. rewrite H2 in E2. rewrite H3 in E3. rewrite H4 in E4.
    simpl in *. congruence.
Qed.

(** X10: a filter value that does not begin with a number matches
    nothing: when [minAge], [maxAge] or [minIncome] is given and [parseInt]
    makes [NaN] of it, an answer of the search holds no entry. *)
Theorem search_non_numeric (query : object) (w : world) (name : string) :
  name ∈ ["minAge"; "maxAge"; "minIncome"] →
  truthy (JS.get query name) = true →
  parseInt (JS.get query name) = Ok NaN →
  ∃ r,
    search query w = (Ok r, w) ∧
    match r with
    | Sent body =>
        SearchBody.data body = [] ∧ SearchBody.filtered body = 0%nat ∧
        SearchBody.total body = size (cache w)
    | Failed _ => True
    end.
Proof.
  intros Hname Ht Hn. rewrite search_unfold. eexists. split; [reflexivity|].
  destruct (if truthy (JS.get query "minAge") then _ else _)
    as [f1|] eqn:E1; simpl; [|done].
  destruct (if truthy (JS.get query "maxAge") then _ else _)
    as [f2|] eqn:E2; simpl; [|done].
  destruct (if truthy (JS.get query "race") && _ then _ else _)
    as [f3|] eqn:E3; simpl; [|done].
  destruct (if truthy (JS.get query "minIncome") then _ else _)
    as [f4|] eqn:E4; simpl; [|done].
  assert (f4 = []) as ->; [|split_and!; try done; apply length_map_to_list].
  assert (f1 = [] → f2 = []) as H12.
  { intros ->. destruct (truthy (JS.get query "maxAge")); simpl in E2;
      congruence. }
  assert (f2 = [] → f3 = []) as H23.
  { intros ->. destruct (truthy (JS.get query "race") && _); [|congruence].
    destruct (normalizeRace _); [|done]. by injection E3 as <-. }
  assert (f3 = [] → f4 = []) as H34.
  { intros ->. destruct (truthy (JS.get query "minIncome")); simpl in E4;
      congruence. }
  repeat (apply elem_of_cons in Hname as [->|Hname]).
  - apply H34, H23, H12. rewrite Ht in E1.
    rewrite filterM_none in E1; [congruence|]. intros x. by rewrite Hn.
  - apply H34, H23. rewrite Ht in E2.
    rewrite filterM_none in E2; [congruence|]. intros x. rewrite Hn. simpl.
    by destruct (maxAge _) as [|[]|].
  - rewrite Ht in E4.
    rewrite filterM_none in E4; [congruence|]. intros x. by rewrite Hn.
  - by apply elem_of_nil in Hname.
Qed.

(** ** On concrete inputs *)

Lemma search_non_numeric_witness :
  let query := [ ("minAge", JStr "young") ] in
  let w := (getResults defaultRequest (freshServer false)).2 in
  ∃ r,
    search query w = (Ok r, w) ∧
    match r with
    | Sent body =>
        SearchBody.data body = [] ∧ SearchBody.filtered body = 0%nat ∧
        SearchBody.total body = size (cache w)
    | Failed _ => True
    end.
Proof.
  apply (search_non_numeric [ ("minAge", JStr "young") ]
           (getResults defaultRequest (freshServer false)).2 "minAge").
  - by left.
  - reflexivity.
  - vm_compute. reflexivity.
Defined.

End routes.

(** * The license *)
Section license.
Import LicenseManager.

Ltac run :=
  unfold mbind, mret, M_bind, M_ret, bind, ret, lift, gets, modify, throw,
    try_catch in *;
  simpl in *.

(** What happens to the manager: the hourly check, or a request that
    passes through the middleware. *)
Inductive happening :=
| Tick
| Request (path : string).

Definition happen (h : happening) : M world (option served) :=
  match h with
  | Tick => checkLicenseExpiry;; mret None
  | Request path => s ← checkLicense path; mret (Some s)
  end.

(** The happenings of a list, each at its clock reading. *)
Fixpoint happenings (l : list (Z * happening))
    : M world (list (option served)) :=
  match l with
  | [] => mret []
  | (t, h) :: rest =>
      modify (set_now t);;
      o ← happen h;
      os ← happenings rest;
      mret (o :: os)
  end.

(** How an expired license answers. *)
Definition refused (h : happening) : option served :=
  match h with
  | Tick => None
  | Request path =>
      Some (if String.prefix "/api/" path then ServiceUnavailable else Next)
  end.

Definition passed (h : happening) : option served :=
  match h with
  | Tick => None
  | Request path => Some Next
  end.

Lemma checkLicenseExpiry_flag (w : world) :
  isExpired w = true →
  ∃ b w', checkLicenseExpiry w = (Ok b, w') ∧
       isExpired w' = true ∧
       index_html w' = index_html w ∧
       results_html w' = results_html w ∧
       writes w' = writes w.
Proof.
  intros He. unfold checkLicenseExpiry. run.
  destruct (expiry w) as [x|]; simpl; [|by exists true, w].
  destruct (x <? now w); simpl.
  - rewrite He. simpl. by exists false, w.
  - destruct (daysRemaining x (now w) <=? 7); by eexists true, _.
Qed.

Lemma checkLicense_expired (path : string) (w : world) :
  isExpired w = true →
  checkLicense path w = (Ok (default Next (refused (Request path))), w).
Proof.
  intros He. unfold checkLicense, isActive. run. rewrite He. simpl.
  by destruct (String.prefix "/api/" path).
Qed.

Lemma createExpiredPage_spec (w : world) :
  let p := ContainerNotFound (licenseExpiry w) (now w) in
  ∃ w',
    createExpiredPage w = (Ok tt, w') ∧
    isExpired w' = isExpired w ∧ expiry w' = expiry w ∧
    fails w' = fails w ∧ (writes w ≤ writes w')%nat ∧
    ((index_html w' = Some p ∧ results_html w' = Some p ∧
      publicDir w' = true ∧ console w' = console w ++ [PageCreated] ∧
      ∀ n, (writes w ≤ n < writes w')%nat → fails w n = false) ∨
     (results_html w' = results_html w ∧
      (index_html w' = index_html w ∨ index_html w' = Some p) ∧
      console w' = console w ++ [PageFailed] ∧
      fails w (writes w' - 1) = true ∧ (writes w < writes w')%nat)).
Proof.
  unfold createExpiredPage, fsChange. run.
  destruct (publicDir w) eqn:Hp; simpl;
    repeat match goal with
    | |- context [if fails w ?n then _ else _] =>
        let E := fresh "E" in destruct (fails w n) eqn:E; simpl
    end;
    eexists; (split; [reflexivity|]); simpl; split_and!; try done; try lia.
  all: first
    [ right; split_and!; try done; try lia; try (by left); try (by right);
      rewrite ?Nat.sub_0_r; done
    | left; split_and!; try done; intros n Hn;
      repeat match goal with
      | E : fails _ ?m = false |- _ =>
          destruct (decide (n = m)) as [->|?]; [done|]; revert E
      end; intros; lia ].
Qed.

(** Every happening is answered, and the expiry date stays what it is. *)
Lemma happen_answers (h : happening) (w : world) :
  ∃ o w', happen h w = (Ok o, w') ∧ expiry w' = expiry w.
Proof.
  destruct (createExpiredPage_spec (set_isExpired true (log LicenseExpired w)))
    as (w1 & Hpage & _ & Hx & _).
  assert (∃ b w', checkLicenseExpiry w = (Ok b, w') ∧ expiry w' = expiry w)
    as (b & w2 & Hcheck & Hx2).
  { unfold checkLicenseExpiry. run.
    destruct (expiry w) as [x|] eqn:Ex; simpl; [|by exists true, w].
    destruct (x <? now w); simpl.
    - destruct (isExpired w); simpl; [by exists false, w|].
      rewrite Hpage. by exists false, w1.
    - destruct (daysRemaining x (now w) <=? 7); by eexists true, _. }
  destruct h as [|path]; simpl.
  - rewrite mbind_run, Hcheck. by eexists _, _.
  - unfold checkLicense, isActive. rewrite !mbind_run. unfold gets at 1.
    destruct (isExpired w); simpl.
    + destruct (String.prefix "/api/" path); by eexists _, _.
    + rewrite Hcheck. destruct b; simpl; [by eexists _, _|].
      destruct (String.prefix "/api/" path); by eexists _, _.
Qed.

Lemma happenings_answer (l : list (Z * happening)) :
  ∀ w, ∃ out w', happenings l w = (Ok out, w') ∧ expiry w' = expiry w ∧
                 length out = length l.
Proof.
  induction l as [|[t h] l IH]; intros w; [by exists [], w|].
  simpl. rewrite mbind_run. unfold modify at 1. rewrite mbind_run.
  destruct (happen_answers h (set_now t w)) as (o & w1 & -> & Hx1).
  destruct (IH w1) as (out & w' & Hrun & Hx & Hlen).
  rewrite mbind_run, Hrun. exists (o :: out), w'.
  simpl in Hx1. split_and!; try done; [congruence|simpl; lia].
Qed.

(** The first happening after the expiry date is refused, and leaves the
    manager expired. *)
Lemma happen_after_expiry (h : happening) (w : world) (x : Z) :
  expiry w = Some x → x < now w →
  ∃ w', happen h w = (Ok (refused h), w') ∧ isExpired w' = true.
Proof.
  intros Hx Hlt.
  destruct (createExpiredPage_spec (set_isExpired true (log LicenseExpired w)))
    as (w1 & Hpage & He1 & _).
  assert (∃ w', checkLicenseExpiry w = (Ok false, w') ∧ isExpired w' = true)
    as (w2 & Hcheck & He2).
  { unfold checkLicenseExpiry. run. rewrite Hx. simpl.
    destruct (Z.ltb_spec x (now w)); [|lia]. simpl.
    destruct (isExpired w) eqn:He; simpl; [by exists w|].
    rewrite Hpage. by exists w1. }
  destruct h as [|path]; simpl.
  - rewrite mbind_run, Hcheck. by exists w2.
  - unfold checkLicense, isActive. rewrite !mbind_run. unfold gets at 1.
    destruct (isExpired w) eqn:He; simpl.
    + exists w. by destruct (String.prefix "/api/" path).
    + rewrite Hcheck. simpl. exists w2.
      by destruct (String.prefix "/api/" path).
Qed.

Lemma happenings_expired (l : list (Z * happening)) :
  ∀ w : world,
  isExpired w = true →
  ∃ w',
    happenings l w = (Ok (refused <$> l.*2), w') ∧
    isExpired w' = true ∧
    index_html w' = index_html w ∧ results_html w' = results_html w ∧
    writes w' = writes w.
Proof.
  induction l as [|[t h] l IH]; intros w He.
  - by exists w.
  - simpl. rewrite mbind_run. unfold modify at 1.
    rewrite mbind_run.
    assert (∃ w1, happen h (set_now t w) = (Ok (refused h), w1) ∧
              isExpired w1 = true ∧ index_html w1 = index_html w ∧
              results_html w1 = results_html w ∧ writes w1 = writes w)
      as (w1 & -> & He1 & Hi1 & Hr1 & Hw1).
    { destruct h as [|path]; simpl.
      - destruct (checkLicenseExpiry_flag (set_now t w) He)
          as (b & w1 & Hb & ? & ? & ? & ?).
        rewrite mbind_run, Hb. by exists w1.
      - rewrite mbind_run, checkLicense_expired by done.
        by exists (set_now t w). }
    destruct (IH w1 He1) as (w' & Hrun & ? & ? & ? & ?).
    rewrite mbind_run, Hrun. exists w'. split_and!; try done; congruence.
Qed.

Lemma happenings_app (l1 l2 : list (Z * happening)) (w : world) :
  happenings (l1 ++ l2) w =
  match happenings l1 w with
  | (Ok out1, w1) =>
      match happenings l2 w1 with
      | (Ok out2, w2) => (Ok (out1 ++ out2), w2)
      | (Throw e, w2) => (Throw e, w2)
      end
  | (Throw e, w1) => (Throw e, w1)
  end.
Proof.
  revert w. induction l1 as [|[t h] l1 IH]; intros w; simpl.
  - unfold mret, M_ret, ret. by destruct (happenings l2 w) as [[out|e] w'].
  - rewrite !mbind_run. unfold modify. rewrite !mbind_run.
    destruct (happen h (set_now t w)) as [[o|e] w1]; [|done].
    rewrite !mbind_run, IH.
    destruct (happenings l1 w1) as [[out1|e] w2]; [|done].
    unfold mret, M_ret, ret.
    by destruct (happenings l2 w2) as [[out2|e] w3].
Qed.

(** X11: the expiry of the license is permanent.  From the first hourly
    check or request that comes at a clock reading after the expiry date,
    every request under [/api/] is answered with status 503 and every
    other request is handed on, at whatever clock readings the later ones
    come, also at readings before the expiry date; and after that first
    one nothing is written any more. *)
Theorem expiry_is_permanent (l1 l2 : list (Z * happening)) (t : Z)
    (h : happening) (w : world) (x : Z) :
  expiry w = Some x →
  x < t →
  ∃ out1 w1 w2 w',
    happenings l1 w = (Ok out1, w1) ∧
    happen h (set_now t w1) = (Ok (refused h), w2) ∧
    happenings (l1 ++ (t, h) :: l2) w
      = (Ok (out1 ++ refused h :: (refused <$> l2.*2)), w') ∧
    isExpired w' = true ∧
    index_html w' = index_html w2 ∧ results_html w' = results_html w2 ∧
    writes w' = writes w2.
Proof.
  intros Hx Hlt.
  destruct (happenings_answer l1 w) as (out1 & w1 & Hrun1 & Hx1 & _).
  destruct (happen_after_expiry h (set_now t w1) x) as (w2 & Hh & He2);
    [by rewrite <-Hx, <-Hx1|done|].
  destruct (happenings_expired l2 w2 He2) as (w' & Hrun2 & ? & ? & ? & ?).
  exists out1, w1, w2, w'. split_and!; try done.
  rewrite happenings_app, Hrun1. simpl.
  rewrite mbind_run. unfold modify at 1. rewrite mbind_run, Hh.
  by rewrite mbind_run, Hrun2.
Qed.

(** X12: until then nothing is refused.  While every clock reading is at
    most the expiry date, every request is handed on, the manager does not
    become expired and writes nothing; with an expiry date that cannot be
    read as a date this holds at all clock readings, so that such a
    license never expires. *)
Theorem active_until_expiry (l : list (Z * happening)) :
  ∀ w : world,
  isExpired w = false →
  Forall (λ th, match expiry w with
                | Some x => th.1 ≤ x
                | None => True
                end) l →
  ∃ w',
    happenings l w = (Ok (passed <$> l.*2), w') ∧
    isExpired w' = false ∧
    index_html w' = index_html w ∧ results_html w' = results_html w ∧
    writes w' = writes w.
Proof.
  induction l as [|[t h] l IH]; intros w He HF.
  - by exists w.
  - apply Forall_cons in HF as [Ht HF]. simpl in Ht.
    simpl. rewrite mbind_run. unfold modify at 1. rewrite mbind_run.
    assert (∃ w1, checkLicenseExpiry (set_now t w) = (Ok true, w1) ∧
              isExpired w1 = false ∧ expiry w1 = expiry w ∧
              index_html w1 = index_html w ∧
              results_html w1 = results_html w ∧ writes w1 = writes w)
      as (w1 & Hcheck & He1 & Hx1 & Hi1 & Hr1 & Hw1).
    { unfold checkLicenseExpiry. run.
      destruct (expiry w) as [x|] eqn:Ex; simpl;
        [|eexists; split; [reflexivity|by rewrite ?Ex]].
      destruct (Z.ltb_spec x t); [lia|]. simpl.
      destruct (daysRemaining x t <=? 7);
        (eexists; split; [reflexivity|by rewrite ?Ex]). }
    assert (happen h (set_now t w) = (Ok (passed h), w1)) as ->.
    { destruct h as [|path]; simpl.
      - by rewrite mbind_run, Hcheck.
      - unfold checkLicense, isActive. rewrite !mbind_run. unfold gets at 1.
        simpl. by rewrite He, Hcheck. }
    destruct (IH w1 He1) as (w' & Hrun & ? & ? & ? & ?).
    { by rewrite Hx1. }
    rewrite mbind_run, Hrun. exists w'. split_and!; try done; congruence.
Qed.


(** ** On concrete inputs *)

(** The manager of the file's default license, 2025-07-15, one day before
    the expiry. *)
Definition lastDay : world :=
  {| licenseExpiry := "2025-07-15"; expiry := Some 1752537600000;
     isExpired := false; now := 1752451200000; publicDir := true;
     index_html := Some Application; results_html := Some Application;
     console := []; writes := 0; fails := λ _, false |}.


Lemma expiry_is_permanent_witness :
  let l1 := [ (1752451200000, Request "/api/results") ] in
  let l2 := [ (1752451200000, Request "/api/results");
              (1752544800000, Request "/results.html") ] in
  let h := Tick in
  ∃ out1 w1 w2 w',
    happenings l1 lastDay = (Ok out1, w1) ∧
    happen h (set_now 1752541200000 w1) = (Ok (refused h), w2) ∧
    happenings (l1 ++ (1752541200000, h) :: l2) lastDay
      = (Ok (out1 ++ refused h :: (refused <$> l2.*2)), w') ∧
    isExpired w' = true ∧
    index_html w' = index_html w2 ∧ results_html w' = results_html w2 ∧
    writes w' = writes w2.
Proof.
  apply (expiry_is_permanent
           [ (1752451200000, Request "/api/results") ]
           [ (1752451200000, Request "/api/results");
             (1752544800000, Request "/results.html") ]
           1752541200000 Tick lastDay 1752537600000).
  - reflexivity.
  - lia.
Defined.

Lemma active_until_expiry_witness :
  let l := [ (1752451200000, Tick);
             (1752537600000, Request "/api/results") ] in
  ∃ w',
    happenings l lastDay = (Ok (passed <$> l.*2), w') ∧
    isExpired w' = false ∧
    index_html w' = index_html lastDay ∧
    results_html w' = results_html lastDay ∧
    writes w' = writes lastDay.
Proof.
  apply (active_until_expiry
           [ (1752451200000, Tick);
             (1752537600000, Request "/api/results") ] lastDay).
  - reflexivity.
  - repeat constructor; simpl; lia.
Defined.


End license.

(** * The clean-up of screenshots *)
Section screenshots.
Import Screenshots.

(** The screenshots of a directory, as the clean-up lists them. *)
Definition screenshotsOf (dir : gmap string Z) : list shot :=
  (λ p, {| name := p.1; time := p.2 |})
    <$> filter (λ p, isScreenshot p.1 = true) (map_to_list dir).

Lemma elem_of_screenshotsOf (dir : gmap string Z) (s : shot) :
  s ∈ screenshotsOf dir ↔
  isScreenshot (name s) = true ∧ dir !! name s = Some (time s).
Proof.
  unfold screenshotsOf. rewrite list_elem_of_fmap. split.
  - intros ([f t] & -> & [? ?%elem_of_map_to_list]%list_elem_of_filter).
    done.
  - intros [? ?]. exists (name s, time s). split; [by destruct s|].
    apply list_elem_of_filter. split; [done|by apply elem_of_map_to_list].
Qed.

Lemma NoDup_screenshotsOf (dir : gmap string Z) :
  NoDup (name <$> screenshotsOf dir).
Proof.
  unfold screenshotsOf. rewrite <-list_fmap_compose.
  change (name ∘ _) with (fst : string * Z → string).
  eapply NoDup_fmap_fst.
  - intros f t1 t2 [_ H1%elem_of_map_to_list]%list_elem_of_filter
                   [_ H2%elem_of_map_to_list]%list_elem_of_filter.
    congruence.
  - apply NoDup_filter, NoDup_map_to_list.
Qed.

Lemma names_screenshotsOf (dir : gmap string Z) :
  filter (λ file, isScreenshot file = true) (map_to_list dir).*1
  = name <$> screenshotsOf dir.
Proof.
  unfold screenshotsOf. rewrite <-list_fmap_compose.
  induction (map_to_list dir) as [|[f t] l IH]; [done|].
  rewrite fmap_cons, !filter_cons. simpl.
  case_decide; simpl; by rewrite IH.
Qed.

(** [statSync] over the screenshots of the directory: it reads their
    times, or throws at the first file for which it fails, and changes
    nothing. *)
Lemma mapM_statSync (w : world) (dir : gmap string Z) (l : list shot) :
  publicDir w = Some dir →
  (∀ s, s ∈ l → dir !! name s = Some (time s)) →
  if bool_decide (Exists (λ s, statFails w (name s) = true) l)
  then ∃ e, mapM statSync (name <$> l) w = (Throw e, w)
  else mapM statSync (name <$> l) w = (Ok l, w).
Proof.
  intros Hd. induction l as [|s l IH]; intros Hl.
  - by rewrite bool_decide_eq_false_2 by (by intros ?%Exists_nil).
  - rewrite fmap_cons.
    change (mapM statSync (name s :: (name <$> l)))
      with (y ← statSync (name s); k ← mapM statSync (name <$> l);
            mret (y :: k)).
    rewrite mbind_run. unfold statSync at 1 3. rewrite Hd. simpl.
    rewrite (Hl s) by left.
    destruct (statFails w (name s)) eqn:Hs.
    + rewrite bool_decide_eq_true_2 by (by left). by eexists.
    + rewrite mbind_run. specialize (IH ltac:(intros; apply Hl; by right)).
      case_bool_decide as Hex.
      * rewrite bool_decide_eq_true_2 by (by right).
        destruct IH as [e ->]. by exists e.
      * rewrite bool_decide_eq_false_2.
        { rewrite IH. by destruct s. }
        intros [?|?]%Exists_cons; [congruence|done].
Qed.

Lemma deleteOne_spec (s : shot) (w : world) :
  is_Some (publicDir w ≫= (.!! name s)) →
  deleteOne s w =
  (Ok tt, if unlinkFails w (name s) then log (CouldNotDelete (name s)) w
          else log (Deleted (name s)) (remove (name s) w)).
Proof.
  intros [t Ht]. unfold deleteOne, unlinkSync, try_catch.
  rewrite mbind_run, Ht. by destruct (unlinkFails w (name s)).
Qed.

(** Every failure to delete is caught. *)
Lemma forEach_ok (l : list shot) : ∀ w, ∃ w', forEach l w = (Ok tt, w').
Proof.
  induction l as [|s l IH]; intros w; simpl; [by exists w|].
  rewrite mbind_run.
  assert (∃ w1, deleteOne s w = (Ok tt, w1)) as [w1 ->].
  { unfold deleteOne, unlinkSync, try_catch. rewrite mbind_run.
    destruct (publicDir w ≫= _); [destruct (unlinkFails _ _)|]; by eexists. }
  apply IH.
Qed.

(** What [forEach] leaves of a directory that has the files of the list:
    the files whose name is not among the ones it could delete. *)
Lemma forEach_spec (l : list shot) :
  ∀ w,
  NoDup (name <$> l) →
  (∀ s, s ∈ l → is_Some (publicDir w ≫= (.!! name s))) →
  ∃ w',
    forEach l w = (Ok tt, w') ∧
    statFails w' = statFails w ∧ unlinkFails w' = unlinkFails w ∧
    publicDir w' =
      filter (λ p, p.1 ∉ name <$> filter
                                   (λ s, unlinkFails w (name s) = false) l)
        <$> publicDir w ∧
    console w' =
      console w ++ ((λ s, if unlinkFails w (name s)
                          then CouldNotDelete (name s)
                          else Deleted (name s)) <$> l).
Proof.
  induction l as [|s l IH]; intros w Hnd Hin; simpl.
  - exists w. rewrite app_nil_r. split_and!; try done.
    destruct (publicDir w) as [dir|]; [|done]. simpl. f_equal.
    symmetry. apply map_filter_id. intros f t _. simpl.
    apply not_elem_of_nil.
  - rewrite fmap_cons in Hnd. apply NoDup_cons in Hnd as [Hs0 Hnd].
    rewrite mbind_run, deleteOne_spec by (apply Hin; left).
    destruct (unlinkFails w (name s)) eqn:Hs.
    + destruct (IH (log (CouldNotDelete (name s)) w) Hnd)
        as (w' & -> & ? & ? & Hp & Hc).
      { intros s' Hs'. simpl. apply Hin. by right. }
      exists w'. simpl in *. split_and!; try done.
      * rewrite Hp. rewrite filter_cons. simpl. by rewrite Hs.
      * by rewrite Hc, <-(assoc_L (++)).
    + destruct (IH (log (Deleted (name s)) (remove (name s) w)) Hnd)
        as (w' & -> & ? & ? & Hp & Hc).
      { intros s' Hs'. simpl.
        destruct (Hin s') as [t Ht]; [by right|].
        destruct (publicDir w) as [dir|]; [|done]. simpl in *.
        rewrite lookup_delete_ne; [by eexists|].
        intros Heq. apply Hs0. rewrite Heq. by apply list_elem_of_fmap_2. }
      exists w'. simpl in *. split_and!; try done.
      * rewrite Hp. rewrite filter_cons. simpl. rewrite Hs. simpl.
        destruct (publicDir w) as [dir|]; [|done]. simpl. f_equal.
        apply map_eq. intros f.
        destruct (decide (f = name s)) as [->|Hne].
        -- rewrite !map_lookup_filter. rewrite lookup_delete_eq. simpl.
           destruct (dir !! name s); [|done]. simpl.
           rewrite option_guard_False; [done|]. simpl.
           intros Hn. apply Hn. left.
        -- rewrite !map_lookup_filter. rewrite lookup_delete_ne by done.
           destruct (dir !! f); [|done]. simpl.
           apply option_guard_iff. simpl. rewrite not_elem_of_cons. tauto.
      * by rewrite Hc, <-(assoc_L (++)).
Qed.

#[local] Instance newestFirst_total : Total newestFirst.
Proof. intros a b. unfold newestFirst. lia. Qed.

#[local] Instance newestFirst_trans : Transitive newestFirst.
Proof. intros a b c. unfold newestFirst. lia. Qed.

(** The clean-up, step by step. *)
Lemma cleanup_unfold (w : world) (dir : gmap string Z) :
  publicDir w = Some dir →
  cleanupOldScreenshots w =
  if bool_decide (Exists (λ s, statFails w (name s) = true)
                         (screenshotsOf dir))
  then (Ok tt, log CleanupError w)
  else forEach (drop 50 (merge_sort newestFirst (screenshotsOf dir))) w.
Proof.
  intros Hd. unfold cleanupOldScreenshots, try_catch.
  rewrite mbind_run. unfold gets at 1. rewrite Hd.
  rewrite mbind_run, names_screenshotsOf.
  pose proof (mapM_statSync w dir (screenshotsOf dir) Hd) as Hstat.
  specialize (Hstat ltac:(by intros s [_ ?]%elem_of_screenshotsOf)).
  case_bool_decide as Hex.
  - by destruct Hstat as [e ->].
  - rewrite Hstat. destruct (50 <? _)%nat eqn:Hlen.
    + match goal with |- context [forEach ?l w] =>
        destruct (forEach_ok l w) as (w' & ->) end.
      done.
    + apply Nat.ltb_ge in Hlen. rewrite drop_ge by done. done.
Qed.

Lemma elem_of_drop_sorted (dir : gmap string Z) (n : nat) (s : shot) :
  s ∈ drop n (merge_sort newestFirst (screenshotsOf dir)) →
  s ∈ screenshotsOf dir.
Proof.
  intros Hin. rewrite <-(merge_sort_Permutation newestFirst).
  by apply (subseteq_drop n).
Qed.

(** The files to delete are files of the directory, each listed once. *)
Lemma drop_sorted_listed (w : world) (dir : gmap string Z) (n : nat) :
  publicDir w = Some dir →
  NoDup (name <$> drop n (merge_sort newestFirst (screenshotsOf dir))) ∧
  ∀ s, s ∈ drop n (merge_sort newestFirst (screenshotsOf dir)) →
       is_Some (publicDir w ≫= (.!! name s)).
Proof.
  intros Hd. split.
  - rewrite fmap_drop. eapply sublist_NoDup; [|apply sublist_drop].
    rewrite (merge_sort_Permutation newestFirst).
    apply NoDup_screenshotsOf.
  - intros s [_ Hs]%elem_of_drop_sorted%elem_of_screenshotsOf.
    rewrite Hd. simpl. by eexists.
Qed.

Lemma filter_all {A} (P : A → Prop) `{∀ x, Decision (P x)} (l : list A) :
  (∀ x, P x) → filter P l = l.
Proof.
  intros HP. induction l as [|x l IH]; [done|].
  by rewrite filter_cons, decide_True, IH.
Qed.

(** X14: the clean-up never throws, and it is careful: it removes no file
    other than a screenshot, it removes nothing when [fs.statSync] fails
    for a screenshot, and nothing when there are at most 50 of them. *)
Theorem cleanup_is_careful (w : world) :
  ∃ w',
    cleanupOldScreenshots w = (Ok tt, w') ∧
    match publicDir w, publicDir w' with
    | None, None => True
    | Some dir, Some dir' =>
        dir' ⊆ dir ∧
        (∀ file, isScreenshot file = false → dir' !! file = dir !! file) ∧
        ((∃ file t, dir !! file = Some t ∧ isScreenshot file = true ∧
                    statFails w file = true) → dir' = dir) ∧
        ((length (screenshotsOf dir) ≤ 50)%nat → dir' = dir)
    | _, _ => False
    end.
Proof.
  destruct (publicDir w) as [dir|] eqn:Hd; cycle 1.
  { exists w. rewrite Hd. split; [|done].
    unfold cleanupOldScreenshots, try_catch. rewrite mbind_run.
    unfold gets. by rewrite Hd. }
  rewrite (cleanup_unfold w dir Hd). case_bool_decide as Hex.
  - eexists. split; [reflexivity|]. simpl. rewrite Hd. by split_and!.
  - destruct (drop_sorted_listed w dir 50 Hd) as [Hnd Hthere].
    match goal with |- context [forEach ?l w] =>
      destruct (forEach_spec l w Hnd Hthere)
        as (w' & -> & _ & _ & Hp & _) end.
    exists w'. split; [done|]. rewrite Hp, Hd. simpl. split_and!.
    + apply map_filter_subseteq.
    + intros file Hno. rewrite map_lookup_filter.
      destruct (dir !! file) as [t|]; [|done]. simpl.
      rewrite option_guard_True; [done|]. simpl.
      intros (s & -> & [_ Hin]%list_elem_of_filter)%list_elem_of_fmap.
      apply elem_of_drop_sorted, elem_of_screenshotsOf in Hin as [? _].
      congruence.
    + intros (file & t & Hf & Hs & Hfail). destruct Hex.
      apply Exists_exists. exists {| name := file; time := t |}.
      split; [by apply elem_of_screenshotsOf|done].
    + intros Hlen. rewrite drop_ge; cycle 1.
      { by rewrite (merge_sort_Permutation newestFirst). }
      apply map_filter_id. intros file t _. simpl. apply not_elem_of_nil.
Qed.

(** X15: when no call fails, the clean-up keeps the 50 newest screenshots
    and deletes the others: the screenshots of the directory fall into the
    kept and the deleted ones, at most 50 are kept, all of them when there
    are no more, no deleted one is newer than a kept one, and the
    directory is left without exactly the deleted ones. *)
Theorem cleanup_keeps_the_newest (w : world) (dir : gmap string Z) :
  publicDir w = Some dir →
  (∀ file, statFails w file = false) →
  (∀ file, unlinkFails w file = false) →
  ∃ w' kept deleted,
    cleanupOldScreenshots w = (Ok tt, w') ∧
    kept ++ deleted ≡ₚ screenshotsOf dir ∧
    length kept = Nat.min 50 (length (screenshotsOf dir)) ∧
    (∀ a b, a ∈ kept → b ∈ deleted → time b ≤ time a) ∧
    (∀ file, publicDir w' ≫= (.!! file) =
             if bool_decide (file ∈ name <$> deleted) then None
             else dir !! file) ∧
    console w' = console w ++ (Deleted ∘ name <$> deleted).
Proof.
  intros Hd Hstat Hunlink.
  rewrite (cleanup_unfold w dir Hd).
  rewrite bool_decide_eq_false_2; cycle 1.
  { intros (s & _ & Hs)%Exists_exists. by rewrite Hstat in Hs. }
  destruct (drop_sorted_listed w dir 50 Hd) as [Hnd Hthere].
  set (sorted := merge_sort newestFirst (screenshotsOf dir)) in *.
  destruct (forEach_spec (drop 50 sorted) w Hnd Hthere)
    as (w' & -> & _ & _ & Hp & Hc).
  exists w', (take 50 sorted), (drop 50 sorted). split; [done|].
  rewrite filter_all in Hp by (intros; apply Hunlink). split_and!.
  - rewrite take_drop. apply merge_sort_Permutation.
  - rewrite length_take. unfold sorted.
    by rewrite (merge_sort_Permutation newestFirst).
  - intros a b Ha Hb.
    eapply (StronglySorted_app_1_elem_of newestFirst); [|done..].
    rewrite take_drop. apply StronglySorted_merge_sort; apply _.
  - intros file. rewrite Hp, Hd. simpl. rewrite map_lookup_filter.
    destruct (dir !! file) as [t|]; [|by case_bool_decide]. simpl.
    case_bool_decide.
    + by rewrite option_guard_False by (intros Hn; by apply Hn).
    + by rewrite option_guard_True.
  - rewrite Hc. f_equal. apply list_fmap_ext. intros ? s ?. simpl.
    by rewrite Hunlink.
Qed.

(** ** On concrete inputs *)

(** A directory with the two pages and [n] screenshots, of which a later
    one is newer. *)
Definition manyShots (n : nat) : gmap string Z :=
  list_to_map
    ([ ("index.html", 0); ("results.html", 0) ] ++
     ((λ i : nat, ("screenshot_" +:+ pretty i +:+ ".png", Z.of_nat i))
        <$> seq 0 n)).

Definition sampleDir (n : nat) : world :=
  {| publicDir := Some (manyShots n); statFails := λ _, false;
     unlinkFails := λ _, false; console := [] |}.

Lemma cleanup_keeps_the_newest_witness :
  let w := sampleDir 52 in
  let dir := manyShots 52 in
  ∃ w' kept deleted,
    cleanupOldScreenshots w = (Ok tt, w') ∧
    kept ++ deleted ≡ₚ screenshotsOf dir ∧
    length kept = Nat.min 50 (length (screenshotsOf dir)) ∧
    (∀ a b, a ∈ kept → b ∈ deleted → time b ≤ time a) ∧
    (∀ file, publicDir w' ≫= (.!! file) =
             if bool_decide (file ∈ name <$> deleted) then None
             else dir !! file) ∧
    console w' = console w ++ (Deleted ∘ name <$> deleted).
Proof.
  apply (cleanup_keeps_the_newest (sampleDir 52) (manyShots 52)).
  - reflexivity.
  - intros file. reflexivity.
  - intros file. reflexivity.
Defined.

End screenshots.

(** * More on the harvester *)
Section harvest.
Import JS DataCachingSystem.

Ltac run :=
  unfold mbind, mret, M_bind, M_ret, bind, ret, lift, gets, modify, throw,
    try_catch in *;
  simpl in *.

(** ** A fetch that succeeds after some failures *)

(** What a visit gives is of no use: it throws, or none of the three
    result fields is there. *)
Definition useless (r : res object) : Prop :=
  match r with
  | Throw _ => True
  | Ok results => noValidResults results = true
  end.

Lemma attemptOnce_useless (c : combination) (attempt : nat) (w : world) :
  useless (page w (visits w) c) →
  attemptOnce c attempt w =
  (Throw (attemptError (page w (visits w) c)),
   afterAttempts (id c) attempt 0 w).
Proof.
  intros Hf. unfold attemptOnce, visit, afterAttempts. run.
  destruct (page w (visits w) c) as [results|e]; simpl in *.
  - rewrite Hf. simpl. unfold count_visit, emit. simpl.
    do 2 f_equal; lia.
  - unfold count_visit, emit. simpl. do 2 f_equal; lia.
Qed.

Lemma attemptOnce_valid (c : combination) (attempt : nat) (w : world)
    (results : object) :
  page w (visits w) c = Ok results →
  noValidResults results = false →
  attemptOnce c attempt w =
  (Ok {| data := results; timestamp := now w; parameters := params c |},
   afterAttempts (id c) attempt 0 w).
Proof.
  intros Hp Hv. unfold attemptOnce, visit, afterAttempts. run.
  rewrite Hp. simpl. rewrite Hv. simpl. unfold count_visit, emit. simpl.
  do 2 f_equal; lia.
Qed.

(** X16: when the first [d] visits of the page are of no use and the next
    one gives valid results, with [d] less than [retryAttempts], the fetch
    returns these results with the parameters of the combination after
    exactly [d + 1] attempts, with a wait of 5 seconds before each retry,
    and writes nothing: no error is logged. *)
Theorem scrapeWithRetry_recovers (this : system) (c : combination)
    (d : nat) (results : object) :
  ∀ (attempt : nat) (w : world),
  (attempt + d ≤ retryAttempts this)%nat →
  (∀ j, (j < d)%nat → useless (page w (visits w + j)%nat c)) →
  page w (visits w + d)%nat c = Ok results →
  noValidResults results = false →
  ∃ w',
    scrapeWithRetry this c attempt w =
      (Ok {| data := results; timestamp := now w + 5000 * Z.of_nat d;
             parameters := params c |}, w') ∧
    trace w' = trace w ++ retries (id c) attempt d ∧
    visits w' = (visits w + S d)%nat ∧
    now w' = now w + 5000 * Z.of_nat d ∧
    files w' = files w ∧ vars w' = vars w ∧ writes w' = writes w.
Proof.
  induction d as [|d IH]; intros attempt w Hd Hbad Hok Hvalid;
    simp scrapeWithRetry.
  - rewrite Nat.add_0_r in Hok.
    rewrite (attemptOnce_valid c attempt w results Hok Hvalid). simpl.
    eexists. split; [do 3 f_equal; lia|]. simpl. by split_and!.
  - rewrite (attemptOnce_useless c attempt w)
      by (specialize (Hbad 0%nat); rewrite Nat.add_0_r in Hbad;
          apply Hbad; lia).
    simpl. destruct (lt_dec attempt (retryAttempts this)) as [Hlt|Hge];
      [|lia]. simpl.
    match goal with |- context [scrapeWithRetry this c _ ?w0] =>
      destruct (IH (attempt + 1)%nat w0) as (w' & Hrun & Ht & Hv & Hn & ? & ? & ?)
    end; simpl.
    + lia.
    + intros j Hj. replace (visits w + 1 + j)%nat
        with (visits w + S j)%nat by lia. apply Hbad. lia.
    + by replace (visits w + 1 + d)%nat with (visits w + S d)%nat by lia.
    + done.
    + exists w'. simpl in *. split_and!; try done.
      * rewrite Hrun. do 3 f_equal. lia.
      * rewrite Ht, <-!(assoc_L (++)). simpl. by rewrite Nat.add_1_r.
      * lia.
      * lia.
Qed.

(** ** A run in which nothing fails *)

(** The loop body for an item that is not cached, when the page gives
    valid results at once and the two writes succeed. *)
Lemma processItem_clean (this : system) (total : nat) (started : option Z)
    (i size pos : nat) (c : combination) (w : world) (results : object) :
  existingResults (vars w) !! id c = None →
  page w (visits w) c = Ok results →
  noValidResults results = false →
  fails w resultsFile (writes w) = false →
  fails w progressFile (S (writes w)) = false →
  let r := {| data := results; timestamp := now w;
              parameters := params c |} in
  ∃ w',
    processItem this total started i size pos c w = (Ok tt, w') ∧
    vars w' =
      {| existingResults := <[id c := r]> (existingResults (vars w));
         processedCount := S (processedCount (vars w));
         successCount := S (successCount (vars w));
         errorCount := errorCount (vars w) |} ∧
    files w' =
      {| progress_json :=
           Some {| totalCombinations := total;
                   processed := S (processedCount (vars w));
                   currentIndex := i + pos + 1;
                   startTime := started;
                   lastProcessedAt := Some (now w);
                   errors := errorCount (vars w);
                   successes := S (successCount (vars w)) |};
         results_json := Some (<[id c := r]> (existingResults (vars w)));
         errors_json := errors_json (files w) |} ∧
    fails w' = fails w ∧ page w' = page w ∧
    writes w' = S (S (writes w)) ∧ visits w' = S (visits w).
Proof.
  intros Hnew Hp Hv Hw1 Hw2 r.
  unfold processItem. rewrite mbind_run. unfold gets at 1. rewrite Hnew.
  unfold try_catch. rewrite !mbind_run.
  simp scrapeWithRetry. rewrite (attemptOnce_valid c 1 w results Hp Hv).
  simpl. unfold saveResults, saveProgress, writeFile. run.
  rewrite Hw1. simpl. rewrite Hw2. simpl.
  replace (now w + 5000 * Z.of_nat 0) with (now w) by lia.
  unfold sleep, modify.
  case_bool_decide; eexists; (split; [reflexivity|]); simpl;
    split_and!; try done; lia.
Qed.

Section clean_run.
Context (this : system) (combinations : list combination).
Context (started : option Z) (i : nat) (w : world).
Hypothesis writable : ∀ f n, fails w f n = false.
Hypothesis valid : ∀ n c, ∃ results,
  page w n c = Ok results ∧ noValidResults results = false.

(** What holds when item [j] is about to be processed. *)
Definition clean (j : nat) (w1 : world) : Prop :=
  (i ≤ j)%nat ∧
  fails w1 = fails w ∧ page w1 = page w ∧
  results_json (files w1) = Some (existingResults (vars w1)) ∧
  errors_json (files w1) = errors_json (files w) ∧
  errorCount (vars w1) = errorCount (vars w) ∧
  successCount (vars w1) = (successCount (vars w) + (j - i))%nat ∧
  processedCount (vars w1) = (processedCount (vars w) + (j - i))%nat ∧
  existingResults (vars w) ⊆ existingResults (vars w1) ∧
  (∀ j' c, (i ≤ j' < j)%nat → combinations !! j' = Some c →
           is_Some (existingResults (vars w1) !! id c)) ∧
  (∀ k r, existingResults (vars w1) !! k = Some r →
          existingResults (vars w) !! k = Some r ∨
          ∃ c, c ∈ combinations ∧ id c = k ∧ parameters r = params c ∧
               noValidResults (data r) = false).

Lemma clean_sleep j ms w1 :
  clean j w1 → clean j (emit (Sleep ms) (advance ms w1)).
Proof. intros (?&?&?&?&?&?&?&?&?&?&?). by split_and!. Qed.

Lemma clean_item i0 size pos c w1 :
  combinations !! (i0 + pos)%nat = Some c →
  clean (i0 + pos) w1 →
  match processItem this (length combinations) started i0 size pos c w1 with
  | (Ok _, w') => clean (S (i0 + pos)) w'
  | (Throw e, w') => False
  end.
Proof.
  intros Hc (Hij & Hf & Hpg & Hres & Herr & Hec & Hsc & Hpc & Hsub & Hall & Hdom).
  destruct (existingResults (vars w1) !! id c) as [r|] eqn:Hex.
  - rewrite (processItem_cached _ _ _ _ _ _ _ r) by done.
    split_and!; simpl; try done; try lia.
    intros j' c' Hj' Hc'.
    destruct (decide (j' = (i0 + pos)%nat)) as [->|];
      [|apply (Hall j' c'); [lia|done]].
    rewrite Hc in Hc'. injection Hc' as <-. by eexists.
  - destruct (valid (visits w1) c) as (results & Hp & Hv).
    destruct (processItem_clean this (length combinations) started
                i0 size pos c w1 results Hex)
      as (w' & -> & Hvars & Hfiles & Hf' & Hpg' & _ & _);
      rewrite ?Hpg, ?Hf; try done.
    unfold clean. rewrite Hvars, Hfiles. simpl.
    split_and!; try done; try congruence; try lia.
    + etrans; [done|]. by apply insert_subseteq.
    + intros j' c' Hj' Hc'.
      destruct (decide (id c' = id c)) as [->|Hne].
      { rewrite lookup_insert_eq. by eexists. }
      rewrite lookup_insert_ne by done.
      destruct (decide (j' = (i0 + pos)%nat)) as [->|];
        [congruence|apply (Hall j' c'); [lia|done]].
    + intros k r [[<- <-]|[Hne Hk]]%lookup_insert_Some.
      * right. exists c. split_and!; try done.
        by eapply list_elem_of_lookup_2.
      * by apply Hdom.
Qed.

Lemma forBatches_clean :
  results_json (files w) = Some (existingResults (vars w)) →
  ∃ w', forBatches this combinations started i w = (Ok tt, w') ∧
        clean (Nat.max i (length combinations)) w'.
Proof.
  intros Hsync.
  assert (clean i w) as H0.
  { split_and!; try done; try lia;
      first [by intros k r Hk; left|intros; lia]. }
  destruct (decide (i ≤ length combinations)%nat) as [Hi|Hi]; cycle 1.
  { exists w. rewrite forBatches_done by lia. by rewrite Nat.max_l by lia. }
  pose proof (forBatches_inv this combinations started clean
                (λ _ _, False) clean_sleep clean_item i w Hi H0) as H.
  destruct (forBatches this combinations started i w) as [[[]|e] w'];
    [|done].
  exists w'. by rewrite Nat.max_r by lia.
Qed.

End clean_run.

Lemma id_generated (this : system) (c : combination) :
  c ∈ generateAllCombinations this → id c = generateCombinationId (params c).
Proof. intros (-> & _)%elem_of_generateAllCombinations. done. Qed.

(** X17: a run in which every page gives valid results at once and every
    write succeeds returns normally and logs no error; afterwards the
    results file holds what it held before and a result for every
    combination from the resume index on, which [getCachedResult] returns
    for the parameters of the combination, and which, if the run has
    fetched it, carries these parameters and valid data. *)
Theorem clean_run_caches_everything (this : system) (w : world)
    (p0 : progress) (stored : gmap string result)
    (errs : list errorRecord) :
  files w = {| progress_json := Some p0; results_json := Some stored;
               errors_json := Some errs |} →
  (∀ f n, fails w f n = false) →
  (∀ n c, ∃ results,
     page w n c = Ok results ∧ noValidResults results = false) →
  ∃ w' final,
    startCaching this w = (Ok tt, w') ∧
    results_json (files w') = Some final ∧
    stored ⊆ final ∧
    errors_json (files w') = Some errs ∧
    ∀ j c,
      (currentIndex p0 ≤ j)%nat →
      generateAllCombinations this !! j = Some c →
      ∃ r, final !! id c = Some r ∧
           getCachedResult (params c) w' = (Ok (Some r), w') ∧
           (stored !! id c = None →
            parameters r = params c ∧ noValidResults (data r) = false).
Proof.
  intros Hfiles Hw Hvalid.
  rewrite startCaching_after_initialize.
  rewrite (initialize_ready w p0 stored errs Hfiles), Hfiles. simpl.
  unfold resumed.
  match goal with |- context [forBatches this ?cs ?st ?i ?w0] =>
    destruct (forBatches_clean this cs st i w0 Hw Hvalid)
      as (w' & -> & (_ & _ & _ & Hres & Herr & _ & _ & _ & Hsub & Hall & Hdom))
  end.
  { simpl. by rewrite Hfiles. }
  simpl in *. rewrite Hfiles in Herr. simpl in Herr.
  exists w', (existingResults (vars w')). split_and!; try done.
  intros j c Hj Hc.
  assert (c ∈ generateAllCombinations this) as Hin
    by (by eapply list_elem_of_lookup_2).
  destruct (Hall j c) as [r Hr]; [|done|].
  { apply lookup_lt_Some in Hc. lia. }
  exists r. split_and!; try done.
  - unfold getCachedResult, loadResults. run. rewrite Hres. simpl.
    by rewrite <-(id_generated this c Hin), Hr.
  - intros Hnew. destruct (Hdom _ _ Hr) as [?|(c' & Hin' & Hid & Hp & Hv)];
      [congruence|]. split; [|done]. rewrite Hp.
    rewrite (id_generated this c Hin), (id_generated this c' Hin') in Hid.
    by rewrite (inj generateCombinationId _ _ Hid).
Qed.

(** ** The counters *)

(** The [try] statement counts an item as a success or as an error, and
    as one of the two only when the results file can be written. *)
Lemma fetchAndStore_counts (this : system) (c : combination) (w : world) :
  (∀ n, fails w resultsFile n = false) →
  ∃ w', fetchAndStore this c w = (Ok tt, w') ∧
        (successCount (vars w') + errorCount (vars w')
         = S (successCount (vars w) + errorCount (vars w)))%nat.
Proof.
  intros Hw. unfold fetchAndStore, saveResults, writeFile. run.
  pose proof (scrapeWithRetry_frame this c 1 w) as [Hv Hf _ _ _ _].
  destruct (scrapeWithRetry this c 1 w) as [[result|error] w1]; simpl in *.
  - rewrite Hf, Hw. simpl. eexists. split; [reflexivity|]. simpl.
    rewrite Hv. lia.
  - eexists. split; [reflexivity|]. simpl. rewrite Hv. lia.
Qed.

(** A checkpoint in which every processed item is a success or an error. *)
Definition balanced (p : progress) : Prop :=
  processed p = (successes p + errors p)%nat.

Section counters.
Context (this : system) (combinations : list combination).
Context (started : option Z) (i : nat) (w : world).
Hypothesis results_writable : ∀ n, fails w resultsFile n = false.

Definition balancedSoFar (w1 : world) : Prop :=
  ∃ t, trace w1 = trace w ++ t ∧ Forall balanced (savedProgress t).

Definition counted (j : nat) (w1 : world) : Prop :=
  fails w1 = fails w ∧
  processedCount (vars w1)
  = (successCount (vars w1) + errorCount (vars w1))%nat ∧
  balancedSoFar w1.

Lemma counted_sleep j ms w1 :
  counted j w1 → counted j (emit (Sleep ms) (advance ms w1)).
Proof.
  intros (? & ? & t & Ht & ?). split_and!; try done.
  exists (t ++ [Sleep ms]). simpl. rewrite Ht, (assoc_L (++)).
  rewrite savedProgress_app. simpl. by rewrite app_nil_r.
Qed.

Lemma counted_item i0 size pos c w1 :
  combinations !! (i0 + pos)%nat = Some c →
  counted (i0 + pos) w1 →
  match processItem this (length combinations) started i0 size pos c w1 with
  | (Ok _, w') => counted (S (i0 + pos)) w'
  | (Throw e, w') => balancedSoFar w'
  end.
Proof.
  intros _ (Hf & Hbal & t & Ht & HF).
  destruct (existingResults (vars w1) !! id c) as [r|] eqn:Hex.
  - rewrite (processItem_cached _ _ _ _ _ _ _ r) by done.
    split_and!; simpl; try done; [lia|by exists t].
  - destruct (processItem_uncached_spec this (length combinations) started
                i0 size pos c w1 Hex)
      as (w2 & Hw2 & [Hf2 _ _ _ _ HP2 (t2 & Ht2 & HF2)] & ->).
    destruct (fetchAndStore_counts this c w1) as (w2' & Hw2' & Hcount).
    { intros n. by rewrite Hf. }
    rewrite Hw2 in Hw2'. injection Hw2' as <-.
    rewrite checkpointAndWait_spec. simpl.
    destruct (fails w2 progressFile (writes w2)); simpl.
    + exists (t ++ t2). simpl. rewrite Ht2, Ht, (assoc_L (++)).
      split; [done|].
      rewrite savedProgress_app, (savedProgress_storeEvent _ _ HF2).
      by rewrite app_nil_r.
    + match goal with |- context [wait this size pos ?w0] =>
        destruct (wait_spec this size pos w0)
          as (Hv3 & Hf3 & _ & t3 & Ht3 & Hs3)
      end.
      split_and!.
      * rewrite Hf3. simpl. congruence.
      * rewrite Hv3. simpl. lia.
      * eexists (t ++ t2 ++ [_] ++ t3). split.
        { rewrite Ht3. simpl. rewrite Ht2, Ht.
          by rewrite <-!(assoc_L (++)). }
        rewrite !savedProgress_app, (savedProgress_storeEvent _ _ HF2), Hs3.
        simpl. apply Forall_app. split; [done|]. constructor; [|done].
        unfold balanced. simpl. lia.
Qed.

Lemma forBatches_counted :
  processedCount (vars w)
  = (successCount (vars w) + errorCount (vars w))%nat →
  balancedSoFar (forBatches this combinations started i w).2.
Proof.
  intros H0.
  assert (balancedSoFar w) as Hw.
  { exists []. by rewrite app_nil_r. }
  destruct (decide (i ≤ length combinations)%nat) as [Hi|Hi]; cycle 1.
  { by rewrite forBatches_done by lia. }
  pose proof (forBatches_inv this combinations started counted
                (λ _, balancedSoFar) counted_sleep counted_item i w Hi) as H.
  destruct (forBatches this combinations started i w) as [[[]|e] w'];
    simpl; [|by apply H]. by apply H.
Qed.

End counters.

(** X18: while the results file can be written, the checkpoints add up:
    when the run is resumed from a checkpoint in which [processed] is the
    sum of [successes] and [errors], so it is in every checkpoint that the
    run writes, whatever the pages give and whether or not the run ends
    with an exception. *)
Theorem checkpoints_add_up (this : system) (w : world) (p0 : progress)
    (stored : gmap string result) (errs : list errorRecord) :
  files w = {| progress_json := Some p0; results_json := Some stored;
               errors_json := Some errs |} →
  (∀ n, fails w resultsFile n = false) →
  balanced p0 →
  ∃ t, trace (startCaching this w).2 = trace w ++ t ∧
       Forall balanced (savedProgress t).
Proof.
  intros Hfiles Hw H0.
  rewrite startCaching_after_initialize.
  rewrite (initialize_ready w p0 stored errs Hfiles), Hfiles. simpl.
  unfold resumed.
  match goal with |- context [forBatches this ?cs ?st ?i ?w0] =>
    apply (forBatches_counted this cs st i w0)
  end; done.
Qed.

(** X19: when the page gives valid results and the results file cannot
    be written, the failed write lands in the [catch] block that is meant
    for failed fetches: the item is counted both as a success and as an
    error, no error is logged, the result stays in memory and is not in
    the file, and the checkpoint that follows moves past the item with
    one more success and error than processed items. *)
Theorem unsaved_result_counts_twice (this : system) (total : nat)
    (started : option Z) (i size pos : nat) (c : combination) (w : world)
    (results : object) :
  existingResults (vars w) !! id c = None →
  page w (visits w) c = Ok results →
  noValidResults results = false →
  fails w resultsFile (writes w) = true →
  fails w progressFile (S (writes w)) = false →
  ∃ w' p,
    processItem this total started i size pos c w = (Ok tt, w') ∧
    progress_json (files w') = Some p ∧
    existingResults (vars w') !! id c =
      Some {| data := results; timestamp := now w;
              parameters := params c |} ∧
    results_json (files w') = results_json (files w) ∧
    errors_json (files w') = errors_json (files w) ∧
    successCount (vars w') = S (successCount (vars w)) ∧
    errorCount (vars w') = S (errorCount (vars w)) ∧
    processedCount (vars w') = S (processedCount (vars w)) ∧
    currentIndex p = (i + pos + 1)%nat ∧
    processed p = S (processedCount (vars w)) ∧
    (successes p + errors p
     = successCount (vars w) + errorCount (vars w) + 2)%nat.
Proof.
  intros Hnew Hp Hv Hw1 Hw2.
  unfold processItem. rewrite mbind_run. unfold gets at 1. rewrite Hnew.
  unfold try_catch. rewrite !mbind_run.
  simp scrapeWithRetry. rewrite (attemptOnce_valid c 1 w results Hp Hv).
  simpl. unfold saveResults, saveProgress, writeFile. run.
  rewrite Hw1. simpl. rewrite Hw2. simpl.
  unfold sleep, modify.
  replace (now w + 5000 * Z.of_nat 0) with (now w) by lia.
  case_bool_decide; eexists _, _; (split; [reflexivity|]); simpl;
    (split; [reflexivity|]); simpl;
    rewrite lookup_insert_eq; split_and!; try done; lia.
Qed.

(** ** Starting again *)

(** X20: a run that finds the three files, with a checkpoint whose
    [currentIndex] is at or beyond the number of combinations, does
    nothing: it fetches no page, writes no file and waits for nothing. *)
Theorem finished_run_does_nothing (this : system) (w : world)
    (p0 : progress) (stored : gmap string result)
    (errs : list errorRecord) :
  files w = {| progress_json := Some p0; results_json := Some stored;
               errors_json := Some errs |} →
  (length (generateAllCombinations this) ≤ currentIndex p0)%nat →
  ∃ w',
    startCaching this w = (Ok tt, w') ∧
    files w' = files w ∧ trace w' = trace w ∧ visits w' = visits w ∧
    writes w' = writes w ∧ now w' = now w.
Proof.
  intros Hfiles Hdone.
  rewrite startCaching_after_initialize.
  rewrite (initialize_ready w p0 stored errs Hfiles), Hfiles. simpl.
  unfold resumed. rewrite forBatches_done by done.
  by eexists.
Qed.

(** X21: [initialize] creates the files that are missing and touches no
    file that is there.  When it returns, the three files exist, a new
    progress file holds the checkpoint with all counters at zero, a new
    results file no result and a new error log no record, and a second
    [initialize] changes nothing; when it throws, it is because a write
    failed. *)
Theorem initialize_creates_what_is_missing (w : world) :
  ∃ r w1,
    initialize w = (r, w1) ∧
    (∀ p, progress_json (files w) = Some p →
          progress_json (files w1) = Some p) ∧
    (∀ m, results_json (files w) = Some m →
          results_json (files w1) = Some m) ∧
    (∀ l, errors_json (files w) = Some l →
          errors_json (files w1) = Some l) ∧
    match r with
    | Ok _ =>
        (progress_json (files w) = None →
         progress_json (files w1) =
           Some {| totalCombinations := 0; processed := 0;
                   currentIndex := 0; startTime := None;
                   lastProcessedAt := None; errors := 0;
                   successes := 0 |}) ∧
        (results_json (files w) = None → results_json (files w1) = Some ∅) ∧
        (errors_json (files w) = None → errors_json (files w1) = Some []) ∧
        is_Some (progress_json (files w1)) ∧
        is_Some (results_json (files w1)) ∧
        is_Some (errors_json (files w1)) ∧
        initialize w1 = (Ok tt, w1)
    | Throw e => ∃ f n, e = IOError (path f) ∧ fails w f n = true
    end.
Proof.
  unfold initialize. rewrite !try_catch_rethrow.
  unfold saveProgress, writeFile. run.
  destruct w as [[[p|] [r|] [e|]] v n t wr f vi pg]; simpl;
    repeat match goal with
           | |- context [if f ?x ?y then _ else _] =>
               let E := fresh "E" in destruct (f x y) eqn:E; simpl
           end;
    eexists _, _; (split; [reflexivity|]); simpl; split_and!; try done;
    try (by eexists);
    try ((exists progressFile + exists resultsFile + exists errorLogFile);
         eexists; split; [reflexivity|eassumption]).
Qed.

(** ** From an empty directory to the statistics *)

Section fresh_run.
Context (this : system) (combinations : list combination).
Context (started : option Z) (w : world).
Hypothesis writable : ∀ f n, fails w f n = false.
Hypothesis valid : ∀ n c, ∃ results,
  page w n c = Ok results ∧ noValidResults results = false.
Hypothesis ids_distinct : NoDup (id <$> combinations).

(** What holds when item [j] is about to be processed, in a run that has
    started at the first item with nothing cached. *)
Definition fresh (j : nat) (w1 : world) : Prop :=
  fails w1 = fails w ∧ page w1 = page w ∧
  dom (existingResults (vars w1)) = list_to_set (id <$> take j combinations) ∧
  processedCount (vars w1) = j ∧ successCount (vars w1) = j ∧
  errorCount (vars w1) = 0%nat ∧
  errors_json (files w1) = errors_json (files w) ∧
  (j = 0%nat ∨
   results_json (files w1) = Some (existingResults (vars w1)) ∧
   ∃ last, progress_json (files w1) =
           Some {| totalCombinations := length combinations;
                   processed := j; currentIndex := j; startTime := started;
                   lastProcessedAt := Some last; errors := 0;
                   successes := j |}).

Lemma fresh_sleep j ms w1 :
  fresh j w1 → fresh j (emit (Sleep ms) (advance ms w1)).
Proof. intros (?&?&?&?&?&?&?&?). by split_and!. Qed.

Lemma fresh_item i0 size pos c w1 :
  combinations !! (i0 + pos)%nat = Some c →
  fresh (i0 + pos) w1 →
  match processItem this (length combinations) started i0 size pos c w1 with
  | (Ok _, w') => fresh (S (i0 + pos)) w'
  | (Throw e, w') => False
  end.
Proof.
  intros Hc (Hf & Hpg & Hdom & Hpc & Hsc & Hec & Herr & Hfiles).
  assert (existingResults (vars w1) !! id c = None) as Hex.
  { apply not_elem_of_dom. rewrite Hdom, elem_of_list_to_set.
    intros (c' & Hid & Hin)%list_elem_of_fmap.
    apply list_elem_of_lookup in Hin as [j' Hj'].
    apply lookup_take_Some in Hj' as [Hj' Hlt].
    assert (j' = (i0 + pos)%nat); [|lia].
    eapply (NoDup_lookup _ _ _ _ ids_distinct);
      rewrite list_lookup_fmap; [rewrite Hj'|rewrite Hc]; simpl;
      by rewrite ?Hid. }
  destruct (valid (visits w1) c) as (results & Hp & Hv).
  destruct (processItem_clean this (length combinations) started
              i0 size pos c w1 results Hex)
    as (w' & -> & Hvars & Hfiles' & Hf' & Hpg' & _ & _);
    rewrite ?Hpg, ?Hf; try done.
  unfold fresh. rewrite Hvars, Hfiles'. simpl.
  split_and!; try done; try congruence; try lia.
  - rewrite dom_insert_L, Hdom.
    rewrite (take_S_r _ _ c) by done.
    rewrite fmap_app, list_to_set_app_L. simpl.
    rewrite (right_id_L ∅ (∪)). by rewrite (comm_L (∪)).
  - right. split; [done|]. eexists. do 2 f_equal; lia.
Qed.

Lemma forBatches_fresh :
  existingResults (vars w) = ∅ →
  processedCount (vars w) = 0%nat → successCount (vars w) = 0%nat →
  errorCount (vars w) = 0%nat →
  ∃ w', forBatches this combinations started 0 w = (Ok tt, w') ∧
        fresh (length combinations) w'.
Proof.
  intros HE Hp Hs He.
  assert (fresh 0 w) as H0.
  { split_and!; try done; [|by left]. by rewrite HE, dom_empty_L. }
  pose proof (forBatches_inv this combinations started fresh
                (λ _ _, False) fresh_sleep fresh_item 0 w
                ltac:(lia) H0) as H.
  destruct (forBatches this combinations started 0 w) as [[[]|e] w'];
    [|done].
  by exists w'.
Qed.

End fresh_run.

(** X22: from an empty cache directory, a run in which every page gives
    valid results at once and every write succeeds processes the whole
    space, and [getStats] then reports as many cached results, processed
    items and successes as there are combinations, no error, and a hit
    rate of all out of all. *)
Theorem fresh_run_statistics (this : system) (w : world) :
  let n := length (generateAllCombinations this) in
  files w = {| progress_json := None; results_json := None;
               errors_json := None |} →
  (∀ f n, fails w f n = false) →
  (∀ n c, ∃ results,
     page w n c = Ok results ∧ noValidResults results = false) →
  noDupRanges (parameterRanges this) →
  (0 < n)%nat →
  ∃ w' s last,
    startCaching this w = (Ok tt, w') ∧
    getStats w' = (Ok s, w') ∧
    Stats.progress s =
      {| totalCombinations := n; processed := n; currentIndex := n;
         startTime := Some (now w); lastProcessedAt := Some last;
         errors := 0; successes := n |} ∧
    Stats.totalCachedResults s = n ∧
    Stats.totalErrors s = 0%nat ∧
    Stats.cacheHitRate s = Percent n n.
Proof.
  intros n Hfiles Hw Hvalid Hnd Hn.
  rewrite startCaching_after_initialize.
  assert (∃ w1, initialize w = (Ok tt, w1) ∧
            files w1 = {| progress_json :=
                            Some {| totalCombinations := 0; processed := 0;
                                    currentIndex := 0; startTime := None;
                                    lastProcessedAt := None; errors := 0;
                                    successes := 0 |};
                          results_json := Some ∅;
                          errors_json := Some [] |} ∧
            fails w1 = fails w ∧ page w1 = page w ∧ now w1 = now w)
    as (w1 & -> & Hfiles1 & Hf1 & Hp1 & Hn1).
  { unfold initialize. rewrite try_catch_rethrow.
    unfold saveProgress, writeFile. run.
    repeat (progress (rewrite ?Hfiles, ?Hw; simpl)).
    eexists. split; [reflexivity|]. simpl. by rewrite Hfiles. }
  rewrite Hfiles1. simpl. unfold resumed. simpl.
  match goal with |- context [forBatches this ?cs ?st 0 ?w0] =>
    destruct (forBatches_fresh this cs st w0)
      as (w' & -> & (_ & _ & Hdom & Hpc & Hsc & Hec & Herr & Hlast))
  end; try done.
  { intros f k. simpl. by rewrite Hf1. }
  { intros k c. simpl. rewrite Hp1. apply Hvalid. }
  { by apply NoDup_ids. }
  fold n in Hdom, Hpc, Hsc, Hlast |- *.
  destruct Hlast as [?|(Hres & last & Hprog)]; [lia|].
  simpl in Herr. rewrite Hfiles1 in Herr. simpl in Herr.
  eexists w', _, last. split; [done|].
  unfold getStats, loadProgress, loadResults, loadErrors. run.
  rewrite Hprog, Hres, Herr. simpl.
  split; [reflexivity|]. simpl.
  rewrite Hn1. split_and!; try done.
  - rewrite <-size_dom, Hdom. unfold n.
    rewrite firstn_all, size_list_to_set, length_fmap; [done|].
    by apply NoDup_ids.
  - destruct (n + 0 =? 0)%nat eqn:E; [apply Nat.eqb_eq in E; lia|].
    by rewrite Nat.add_0_r.
Qed.

(** ** A wait before every page load *)

(** Reads a trace for its page loads: [ready] tells whether a page may be
    loaded, at first or because at least [d] milliseconds have been waited
    for at once since the last load.  The result is [None] when a page is
    loaded too early. *)
Fixpoint pace (d : Z) (ready : bool) (t : list event) : option bool :=
  match t with
  | [] => Some ready
  | Attempt _ _ :: t' => if ready then pace d false t' else None
  | Sleep ms :: t' => pace d (ready || (d <=? ms)) t'
  | _ :: t' => pace d ready t'
  end.

Lemma pace_app d ready t1 t2 :
  pace d ready (t1 ++ t2) = pace d ready t1 ≫= λ r, pace d r t2.
Proof.
  revert ready. induction t1 as [|e t1 IH]; intros ready; [done|].
  destruct e; simpl; try apply IH. destruct ready; [apply IH|done].
Qed.

Lemma pace_quiet d t : Forall quiet t → pace d true t = Some true.
Proof. induction 1 as [|e t He _ IH]; [done|]. by destruct e. Qed.

Lemma pace_waiting d t :
  pace d false t = Some false ∨ pace d false t = None ∨
  ∃ ms, Sleep ms ∈ t ∧ d ≤ ms.
Proof.
  induction t as [|e t IH]; [by left|].
  assert (pace d false t = Some false ∨ pace d false t = None ∨
          ∃ ms, Sleep ms ∈ e :: t ∧ d ≤ ms) as IH'.
  { destruct IH as [?|[?|(ms & ? & ?)]]; [by left|by right; left|].
    right; right. exists ms. split; [by right|done]. }
  destruct e as [k n|ms| | |]; simpl; try done.
  - by right; left.
  - destruct (Z.leb_spec d ms); [|done].
    right; right. exists ms. split; [by left|done].
Qed.

(** What [pace] accepts: between two page loads there is a wait of at
    least [d] milliseconds. *)
Lemma pace_between d ready t t1 k1 n1 t2 k2 n2 t3 :
  is_Some (pace d ready t) →
  t = t1 ++ Attempt k1 n1 :: t2 ++ Attempt k2 n2 :: t3 →
  ∃ ms, Sleep ms ∈ t2 ∧ d ≤ ms.
Proof.
  intros [r Hr] ->.
  rewrite pace_app in Hr.
  destruct (pace d ready t1) as [r1|]; [|done]. simpl in Hr.
  destruct r1; [|done].
  rewrite pace_app in Hr.
  destruct (pace_waiting d t2) as [H|[H|H]]; [| |done];
    by rewrite H in Hr.
Qed.

Section pacing.
Context (this : system) (d : Z) (w0 : world).
Hypothesis retry_wait : d ≤ 5000.
Hypothesis request_wait : d ≤ delayBetweenRequests this.

(** The events since [w0] are well paced and leave the state [r]. *)
Definition pacedTo (r : bool) (w : world) : Prop :=
  ∃ t, trace w = trace w0 ++ t ∧ pace d true t = Some r.

Definition paced (w : world) : Prop := ∃ r, pacedTo r w.

Lemma pacedTo_events r r' t w w' :
  pacedTo r w → trace w' = trace w ++ t → pace d r t = Some r' →
  pacedTo r' w'.
Proof.
  intros (t1 & Ht1 & Hp) Ht Hr. exists (t1 ++ t).
  rewrite Ht, Ht1, (assoc_L (++)). split; [done|].
  by rewrite pace_app, Hp.
Qed.

Lemma scrapeWithRetry_pace (c : combination) (attempt : nat) (w : world) :
  ∃ t, trace (scrapeWithRetry this c attempt w).2 = trace w ++ t ∧
       pace d true t = Some false.
Proof.
  funelim (scrapeWithRetry this c attempt w).
  - pose proof (attemptOnce_trace c attempt w) as H. rewrite Heq in H.
    by eexists.
  - pose proof (attemptOnce_trace c attempt w) as H0. rewrite Heq0 in H0.
    simpl in *. destruct (H (Ok tt) (emit (Sleep 5000) (advance 5000 w1)))
      as (t & Ht & Hp).
    exists (Attempt (id c) attempt :: Sleep 5000 :: t). split.
    + rewrite Ht. simpl. rewrite H0. by rewrite <-!(assoc_L (++)).
    + simpl. by destruct (Z.leb_spec d 5000); [|lia].
  - pose proof (attemptOnce_trace c attempt w) as H0. rewrite Heq0 in H0.
    simpl in *. unfold logError, loadErrors, writeFile. run.
    destruct (fails w1 errorLogFile (writes w1)); simpl.
    + by eexists.
    + eexists [_; _]. rewrite H0, <-(assoc_L (++)). by split.
Qed.

Lemma processItem_pace total started i size pos c w :
  pacedTo true w →
  match processItem this total started i size pos c w with
  | (Ok _, w') => pacedTo true w' ∨ (pos = (size - 1)%nat ∧ pacedTo false w')
  | (Throw _, w') => paced w'
  end.
Proof.
  intros Hw.
  destruct (existingResults (vars w) !! id c) as [r|] eqn:Hex.
  - rewrite (processItem_cached _ _ _ _ _ _ _ r) by done. by left.
  - destruct (processItem_uncached_spec this total started i size pos c w Hex)
      as (w1 & Hw1 & _ & ->).
    assert (pacedTo false w1) as Hp1.
    { unfold fetchAndStore, saveResults, writeFile in Hw1. run.
      destruct (scrapeWithRetry_pace c 1 w) as (t & Ht & Hp).
      destruct (scrapeWithRetry this c 1 w) as [[result|error] w2];
        simpl in *.
      - destruct (fails w2 resultsFile (writes w2)); simpl in *;
          injection Hw1 as <-.
        + by eapply pacedTo_events.
        + eapply (pacedTo_events _ _ (t ++ [_])); [done| |].
          * simpl. by rewrite Ht, <-(assoc_L (++)).
          * by rewrite pace_app, Hp.
      - injection Hw1 as <-. by eapply pacedTo_events. }
    rewrite checkpointAndWait_spec. simpl.
    destruct (fails w1 progressFile (writes w1)); simpl.
    + exists false.
      eapply (pacedTo_events false false []);
        [done|by rewrite app_nil_r|done].
    + unfold wait. case_bool_decide as Hpos; simpl.
      * left. eapply (pacedTo_events _ _ [_; _]);
          [done|simpl; by rewrite <-(assoc_L (++))|]. simpl.
        by destruct (Z.leb_spec d (delayBetweenRequests this)); [|lia].
      * right. split; [lia|].
        by eapply (pacedTo_events _ _ [_]).
Qed.

Lemma forEach_pace total started i size (batch : list combination) :
  ∀ pos w,
  (pos + length batch = size)%nat →
  pacedTo true w →
  match forEach this total started i size pos batch w with
  | (Ok _, w') => paced w'
  | (Throw _, w') => paced w'
  end.
Proof.
  induction batch as [|c batch IH]; intros pos w Hsize Hw; simpl.
  - by exists true.
  - rewrite mbind_run.
    pose proof (processItem_pace total started i size pos c w Hw) as Hitem.
    destruct (processItem _ _ _ _ _ _ _ _) as [[[]|e] w1]; [|done].
    destruct Hitem as [H1|[-> H1]].
    + apply IH; [simpl in Hsize; lia|done].
    + destruct batch; [|simpl in Hsize; lia]. simpl. by exists false.
Qed.

Lemma forBatches_pace combinations started i w :
  pacedTo true w → paced (forBatches this combinations started i w).2.
Proof.
  funelim (forBatches this combinations started i w); intros Hw.
  - by exists true.
  - unfold oneBatch in Heq. rewrite mbind_run in Heq.
    pose proof (forEach_pace (length combinations) started i
      (length (slice combinations i (Pos.to_nat (batchSize this))))
      (slice combinations i (Pos.to_nat (batchSize this))) 0%nat w
      eq_refl Hw) as Hbatch.
    destruct (forEach _ _ _ _ _ _ _ _) as [[[]|e] w2]; [|done].
    destruct (_ <? _)%nat eqn:Hmore.
    + injection Heq as Hx. subst w1. apply H. destruct Hbatch as [r Hr].
      eapply (pacedTo_events _ _ [Sleep 10000]); [done|done|]. simpl.
      destruct (Z.leb_spec d 10000); [|lia]. by rewrite orb_true_r.
    + injection Heq as Hx. subst w1. apply Nat.ltb_ge in Hmore.
      by rewrite forBatches_done by lia.
  - unfold oneBatch in Heq. rewrite mbind_run in Heq.
    pose proof (forEach_pace (length combinations) started i
      (length (slice combinations i (Pos.to_nat (batchSize this))))
      (slice combinations i (Pos.to_nat (batchSize this))) 0%nat w
      eq_refl Hw) as Hbatch.
    destruct (forEach _ _ _ _ _ _ _ _) as [[[]|e] w2].
    + by destruct (_ <? _)%nat.
    + by injection Heq as <- <-.
Qed.

End pacing.

(** X23: no page is loaded without a wait.  Between any two attempts to
    load a page during a run there is one wait of at least the smaller of
    5 seconds and [delayBetweenRequests]: the code waits 5 seconds before
    a retry, [delayBetweenRequests] after an item that is not the last of
    its batch, and 10 seconds between two batches.  This holds whatever
    the pages give and whichever writes fail. *)
Theorem a_wait_before_every_load (this : system) (w : world) :
  ∃ t,
    trace (startCaching this w).2 = trace w ++ t ∧
    ∀ t1 k1 n1 t2 k2 n2 t3,
      t = t1 ++ Attempt k1 n1 :: t2 ++ Attempt k2 n2 :: t3 →
      ∃ ms, Sleep ms ∈ t2 ∧ Z.min 5000 (delayBetweenRequests this) ≤ ms.
Proof.
  set (d := Z.min 5000 (delayBetweenRequests this)).
  assert (∃ t, trace (startCaching this w).2 = trace w ++ t ∧
               is_Some (pace d true t)) as (t & Ht & Hp).
  { rewrite startCaching_after_initialize.
    destruct (initialize_spec w)
      as (r0 & w1 & -> & _ & _ & _ & _ & (t1 & Ht1 & Hq)).
    pose proof (pace_quiet d t1 Hq) as Hp1.
    destruct r0 as [[]|e]; [|by exists t1].
    destruct (progress_json (files w1)) as [p|]; [|by exists t1].
    unfold resumed.
    match goal with |- context [forBatches this ?cs ?st ?i ?w2] =>
      destruct (forBatches_pace this d w ltac:(lia) ltac:(lia) cs st i w2)
        as (r & t & Ht & Hp)
    end.
    { by exists t1. }
    exists t. split; [done|]. by exists r. }
  exists t. split; [done|]. intros. by eapply pace_between.
Qed.

(** ** On concrete inputs *)

(** A cache directory with its three files, in which the first [bad]
    visits of a page time out and the later ones give [sampleData]. *)
Definition flakyWorld (bad : nat) : world :=
  {| files := {| progress_json := Some noProgress; results_json := Some ∅;
                 errors_json := Some [] |};
     vars := {| existingResults := ∅; processedCount := 0;
                successCount := 0; errorCount := 0 |};
     now := 1000; trace := []; writes := 0; fails := λ _ _, false;
     visits := 0;
     page := λ n _, if (n <? bad)%nat
                    then Throw (Error "Timeout 45000ms exceeded")
                    else Ok sampleData |}.

(** A cache directory without files, where every page gives
    [sampleData]. *)
Definition emptyDirectory : world :=
  {| files := {| progress_json := None; results_json := None;
                 errors_json := None |};
     vars := {| existingResults := ∅; processedCount := 0;
                successCount := 0; errorCount := 0 |};
     now := 1000; trace := []; writes := 0; fails := λ _ _, false;
     visits := 0; page := λ _ _, Ok sampleData |}.

(** The checkpoint after a complete run over [twoCombinations], and a
    cache directory that holds it. *)
Definition allDone : progress :=
  {| totalCombinations := 2; processed := 2; currentIndex := 2;
     startTime := Some 1000; lastProcessedAt := Some 4000; errors := 0;
     successes := 2 |}.

Definition finishedWorld : world :=
  {| files := {| progress_json := Some allDone;
                 results_json := Some bothStored;
                 errors_json := Some [] |};
     vars := {| existingResults := ∅; processedCount := 0;
                successCount := 0; errorCount := 0 |};
     now := 9000; trace := []; writes := 0; fails := λ _ _, false;
     visits := 0; page := λ _ _, Ok sampleData |}.

Lemma scrapeWithRetry_recovers_witness :
  let w := flakyWorld 2 in
  let c := firstCombination in
  ∃ w',
    scrapeWithRetry constructor c 1 w =
      (Ok {| data := sampleData; timestamp := now w + 5000 * Z.of_nat 2;
             parameters := params c |}, w') ∧
    trace w' = trace w ++ retries (id c) 1 2 ∧
    visits w' = (visits w + 3)%nat ∧
    now w' = now w + 5000 * Z.of_nat 2 ∧
    files w' = files w ∧ vars w' = vars w ∧ writes w' = writes w.
Proof.
  apply (scrapeWithRetry_recovers constructor firstCombination 2 sampleData
           1%nat (flakyWorld 2)).
  - simpl. lia.
  - intros j Hj. destruct j as [|[|j]]; [exact I|exact I|lia].
  - reflexivity.
  - reflexivity.
Defined.

Lemma clean_run_caches_everything_witness :
  let w := sampleWorld ∅ (λ _ _, false) (Ok sampleData) in
  ∃ w' final,
    startCaching twoCombinations w = (Ok tt, w') ∧
    results_json (files w') = Some final ∧
    ∅ ⊆ final ∧
    errors_json (files w') = Some [] ∧
    ∀ j c,
      (currentIndex noProgress ≤ j)%nat →
      generateAllCombinations twoCombinations !! j = Some c →
      ∃ r, final !! id c = Some r ∧
           getCachedResult (params c) w' = (Ok (Some r), w') ∧
           ((∅ : gmap string result) !! id c = None →
            parameters r = params c ∧ noValidResults (data r) = false).
Proof.
  apply (clean_run_caches_everything twoCombinations
           (sampleWorld ∅ (λ _ _, false) (Ok sampleData)) noProgress ∅ []).
  - reflexivity.
  - intros f n. reflexivity.
  - intros n c. exists sampleData. split; reflexivity.
Defined.

Lemma checkpoints_add_up_witness :
  let w := sampleWorld ∅ (λ _ _, false)
             (Throw (Error "Timeout 45000ms exceeded")) in
  ∃ t, trace (startCaching twoCombinations w).2 = trace w ++ t ∧
       Forall balanced (savedProgress t).
Proof.
  apply (checkpoints_add_up twoCombinations
           (sampleWorld ∅ (λ _ _, false)
              (Throw (Error "Timeout 45000ms exceeded")))
           noProgress ∅ []).
  - reflexivity.
  - intros n. reflexivity.
  - reflexivity.
Defined.

Lemma unsaved_result_counts_twice_witness :
  let w := sampleWorld ∅ (λ f _, bool_decide (f = resultsFile))
             (Ok sampleData) in
  let c := firstCombination in
  ∃ w' p,
    processItem constructor 145440 (Some 1000) 0 10 0 c w = (Ok tt, w') ∧
    progress_json (files w') = Some p ∧
    existingResults (vars w') !! id c =
      Some {| data := sampleData; timestamp := now w;
              parameters := params c |} ∧
    results_json (files w') = results_json (files w) ∧
    errors_json (files w') = errors_json (files w) ∧
    successCount (vars w') = S (successCount (vars w)) ∧
    errorCount (vars w') = S (errorCount (vars w)) ∧
    processedCount (vars w') = S (processedCount (vars w)) ∧
    currentIndex p = (0 + 0 + 1)%nat ∧
    processed p = S (processedCount (vars w)) ∧
    (successes p + errors p
     = successCount (vars w) + errorCount (vars w) + 2)%nat.
Proof.
  apply (unsaved_result_counts_twice constructor 145440 (Some 1000) 0 10 0
           firstCombination
           (sampleWorld ∅ (λ f _, bool_decide (f = resultsFile))
              (Ok sampleData))
           sampleData).
  - reflexivity.
  - reflexivity.
  - reflexivity.
  - reflexivity.
  - reflexivity.
Defined.

Lemma finished_run_does_nothing_witness :
  ∃ w',
    startCaching twoCombinations finishedWorld = (Ok tt, w') ∧
    files w' = files finishedWorld ∧ trace w' = trace finishedWorld ∧
    visits w' = visits finishedWorld ∧
    writes w' = writes finishedWorld ∧ now w' = now finishedWorld.
Proof.
  apply (finished_run_does_nothing twoCombinations finishedWorld allDone
           bothStored []).
  - reflexivity.
  - vm_compute. lia.
Defined.

Lemma fresh_run_statistics_witness :
  let n := length (generateAllCombinations twoCombinations) in
  ∃ w' s last,
    startCaching twoCombinations emptyDirectory = (Ok tt, w') ∧
    getStats w' = (Ok s, w') ∧
    Stats.progress s =
      {| totalCombinations := n; processed := n; currentIndex := n;
         startTime := Some (now emptyDirectory);
         lastProcessedAt := Some last;
         errors := 0; successes := n |} ∧
    Stats.totalCachedResults s = n ∧
    Stats.totalErrors s = 0%nat ∧
    Stats.cacheHitRate s = Percent n n.
Proof.
  apply (fresh_run_statistics twoCombinations emptyDirectory).
  - reflexivity.
  - intros f n. reflexivity.
  - intros n c. exists sampleData. split; reflexivity.
  - unfold noDupRanges. split_and!; compute_done.
  - vm_compute. lia.
Defined.

End harvest.

(** * The address of a search, on both sides *)
Section addresses.
Import JS.












(** ** The address, letter by letter *)







(** ** On concrete inputs *)


End addresses.
